(** * Mandelbrot explorer: escape-time evaluator, viewport operations and
      tile scheduler of [MandelBrot.cpp]

    The C++ program works on [double] and [int].  In this development

    - a [double] is modelled twice.  Module [Binary64] has the functions of
      the program that compute on [double] on the binary64 numbers of the
      machine (the primitive [float]: IEEE 754 with rounding to nearest,
      infinities and NaN), operation by operation in the order of the
      program; the statements about [Binary64.mandelbrotEscape],
      [Binary64.resize] and the other functions of the module are
      statements about the values the program computes (where a proof
      needs more than the evaluation of the functions, the results of the
      operations are bounded by the exact results, from the Standard
      Library's specification of the primitive operations).  Outside the
      module a [double] is an exact rational number ([Q]): the same
      formulas with rounding left out, with equalities stated with [==].
      The exact functions are used for statements about the formulas over
      the reals, which the program follows up to rounding only (the
      viewport identities), and in the rendering pipeline and the main
      loop, whose properties use the colour of a pixel only as a function
      of the pixel, the raster and the viewport;
    - an [int] is an integer ([Z]), with truncating division and remainder
      as [Z.quot] and [Z.rem]; on rasters of fewer than [2^31] pixels the
      integers the render block computes stay in the range of a 32-bit
      [int] ([render_block_int_range]);
    - the pixel buffer is a list of colours, written through a checked
      store that fails outside the buffer (where the C++ program has no
      defined behaviour);
    - a worker thread is the sequence of stores it performs, and a render
      pass is any interleaving of the workers' sequences. *)

From Equations Require Import Equations.
From Stdlib Require Import ZArith QArith Qpower Lqa Lia Bool Floats Uint63.
From stdpp Require Import base relations list list_numbers.

Local Open Scope Z_scope.

(** ** Constants of the program *)

Definition WIDTH : Z := 900.
Definition HEIGHT : Z := 900.
Definition MAX_ITER : Z := 100.
Definition TILE_SIZE : Z := 64.

(** ** Comparisons and conversions on [double], exact *)

Definition Qltb (a b : Q) : bool := negb (Qle_bool b a).
Definition Qgtb (a b : Q) : bool := Qltb b a.

(** [(int) d]: conversion to [int] drops the fractional part. *)
Definition int_of_double (d : Q) : Z := Z.quot (Qnum d) (Z.pos (Qden d)).

(** The values of a 32-bit [int]. *)
Definition int_range (z : Z) : Prop := - 2 ^ 31 <= z < 2 ^ 31.

(** [int n = u] for an [unsigned u]: values from [2^31] on wrap around. *)
Definition int_of_unsigned (u : Z) : Z :=
  let m := u mod 2 ^ 32 in if m <? 2 ^ 31 then m else m - 2 ^ 32.

(** ** The escape-time evaluator [mandelbrotEscape], exact *)

(** The [do { ... } while (zx2 + zy2 <= 4.0 && n < max_iter)] loop, entered
    with the current [zx], [zy] and [n].  The body runs, then the test
    decides between another round and returning [n]. *)
Equations? escape_loop (cx cy zx zy : Q) (n max_iter : Z) : Z
  by wf (Z.to_nat (max_iter - n)) lt :=
  escape_loop cx cy zx zy n max_iter :=
    let zx2 := (zx * zx)%Q in
    let zy2 := (zy * zy)%Q in
    let zy' := (2 * zx * zy + cy)%Q in
    let zx' := (zx2 - zy2 + cx)%Q in
    let n' := n + 1 in
    if Qle_bool (zx2 + zy2) 4.0 then
      match Z_lt_dec n' max_iter with
      | left _ => escape_loop cx cy zx' zy' n' max_iter
      | right _ => n'
      end
    else n'.
Proof. lia. Qed.

(** The three closed-form tests, in the order of the program. *)
Definition in_cardioid (cx cy : Q) : bool :=
  let q := ((cx - 0.25) * (cx - 0.25) + cy * cy)%Q in
  Qltb (q * (q + (cx - 0.25))) (0.25 * cy * cy).

Definition in_bulb (cx cy : Q) : bool :=
  Qltb ((cx + 1) * (cx + 1) + cy * cy) 0.0625.

Definition outside (cx cy : Q) : bool :=
  Qgtb (cx * cx + cy * cy) 4.0.

Definition mandelbrotEscape (cx cy : Q) (max_iter : Z) : Z :=
  if in_cardioid cx cy then max_iter
  else if in_bulb cx cy then max_iter
  else if outside cx cy then 0
  else escape_loop cx cy 0 0 0 max_iter.

(** ** Viewport and its operations in [main], exact *)

(** The four bounds [Re_min], [Re_max], [Im_min], [Im_max] of [main]. *)
Record Viewport : Type := mkViewport
  { Re_min : Q; Re_max : Q; Im_min : Q; Im_max : Q }.

(** The bounds [main] starts with, and the [R] key restores. *)
Definition default_viewport : Viewport :=
  {| Re_min := -2.0; Re_max := 1.5; Im_min := -1.5; Im_max := 1.5 |}.

(** The pixel-to-plane mapping
    [Re_min + (x / (double)width) * (Re_max - Re_min)] and
    [Im_max - (y / (double)height) * (Im_max - Im_min)], which the program
    writes in place in [RenderTile] (integer pixel) and in the wheel handler
    (mouse position). *)
Definition plane_real (vp : Viewport) (x : Q) (width : Z) : Q :=
  (Re_min vp + (x / inject_Z width) * (Re_max vp - Re_min vp))%Q.

Definition plane_imag (vp : Viewport) (y : Q) (height : Z) : Q :=
  (Im_max vp - (y / inject_Z height) * (Im_max vp - Im_min vp))%Q.

(** Centre and extent of a viewport. *)
Definition center_real (vp : Viewport) : Q := ((Re_min vp + Re_max vp) / 2.0)%Q.
Definition center_imag (vp : Viewport) : Q := ((Im_min vp + Im_max vp) / 2.0)%Q.
Definition real_range (vp : Viewport) : Q := (Re_max vp - Re_min vp)%Q.
Definition imag_range (vp : Viewport) : Q := (Im_max vp - Im_min vp)%Q.

(** The window-size handler: [if (newWidth != currentWidth || newHeight !=
    currentHeight) { ... }]. *)
Definition resize (vp : Viewport) (currentWidth currentHeight : Z)
    (newWidth newHeight : Z) : Viewport :=
  if negb (newWidth =? currentWidth) || negb (newHeight =? currentHeight) then
    let widthScale := (inject_Z newWidth / inject_Z currentWidth)%Q in
    let heightScale := (inject_Z newHeight / inject_Z currentHeight)%Q in
    let currentRealRange := (Re_max vp - Re_min vp)%Q in
    let currentImagRange := (Im_max vp - Im_min vp)%Q in
    let centerReal := ((Re_min vp + Re_max vp) / 2.0)%Q in
    let centerImag := ((Im_min vp + Im_max vp) / 2.0)%Q in
    let newRealRange := (currentRealRange * widthScale)%Q in
    let newImagRange := (currentImagRange * heightScale)%Q in
    {| Re_min := centerReal - newRealRange / 2.0;
       Re_max := centerReal + newRealRange / 2.0;
       Im_min := centerImag - newImagRange / 2.0;
       Im_max := centerImag + newImagRange / 2.0 |}
  else vp.

(** The wheel handler: [if (wheel != 0) { ... }], with the mouse at
    [(mouseX, mouseY)]. *)
Definition zoom (vp : Viewport) (currentWidth currentHeight : Z)
    (mouseX mouseY wheel : Q) : Viewport :=
  if negb (Qeq_bool wheel 0) then
    let mouseRe := plane_real vp mouseX currentWidth in
    let mouseIm := plane_imag vp mouseY currentHeight in
    let zoomFactor := if Qgtb wheel 0 then 0.8%Q else 1.25%Q in
    let newWidth := ((Re_max vp - Re_min vp) * zoomFactor)%Q in
    let newHeight := ((Im_max vp - Im_min vp) * zoomFactor)%Q in
    {| Re_min := mouseRe - newWidth / 2.0;
       Re_max := mouseRe + newWidth / 2.0;
       Im_min := mouseIm - newHeight / 2.0;
       Im_max := mouseIm + newHeight / 2.0 |}
  else vp.

(** ** Colours and the pixel buffer *)

(** raylib's [Color]: four [unsigned char] channels. *)
Record Color : Type := mkColor { r : Z; g : Z; b : Z; a : Z }.

(** Modelled from the spec: raylib's [BLACK], the fixed interior colour
    (black); [raylib.h] is not among the sources. *)
Definition BLACK : Color := mkColor 0 0 0 255.

(** A value-initialised [Color], as [std::vector<Color>] creates them. *)
Definition blank : Color := mkColor 0 0 0 0.

(** A stand-in for raylib's [ColorFromHSV] in closed examples. *)
Definition gray_hsv (hue saturation value : Q) : Color :=
  let v := int_of_double hue in mkColor v v 255 255.

(** [pixelBuffer[i] = c].  Outside the buffer the C++ program has no
    defined behaviour: the store fails. *)
Definition store (pixelBuffer : list Color) (i : Z) (c : Color)
    : option (list Color) :=
  if (0 <=? i) && (i <? Z.of_nat (length pixelBuffer))
  then Some (<[Z.to_nat i := c]> pixelBuffer)
  else None.

(** [pixelBuffer.resize(n)]: keeps the first [n] elements and appends
    value-initialised ones. *)
Definition vector_resize (pixelBuffer : list Color) (n : Z) : list Color :=
  take (Z.to_nat n) pixelBuffer
    ++ replicate (Z.to_nat n - length pixelBuffer) blank.

(** [for (int i = lo; i < hi; i++) body], threading the state [s]. *)
Fixpoint for_count {S : Type} (count : nat) (i : Z)
    (body : Z -> S -> option S) (s : S) : option S :=
  match count with
  | O => Some s
  | Datatypes.S count' =>
      match body i s with
      | Some s' => for_count count' (i + 1) body s'
      | None => None
      end
  end.

Definition for_range {S : Type} (lo hi : Z)
    (body : Z -> S -> option S) (s : S) : option S :=
  for_count (Z.to_nat (hi - lo)) lo body s.

(** Running a sequence of stores, first to last. *)
Fixpoint run_stores (stores : list (Z * Color)) (pixelBuffer : list Color)
    : option (list Color) :=
  match stores with
  | [] => Some pixelBuffer
  | (i, c) :: rest =>
      match store pixelBuffer i c with
      | Some pixelBuffer' => run_stores rest pixelBuffer'
      | None => None
      end
  end.

(** The tiles of a raster, as [main] counts them. *)
Definition tiles_along (size : Z) : Z := Z.quot (size + TILE_SIZE - 1) TILE_SIZE.

(** The pixel rectangle of tile [(tileX, tileY)], as [RenderTile] clips it. *)
Definition in_tile (tileX tileY width height x y : Z) : Prop :=
  tileX * TILE_SIZE <= x < Z.min (tileX * TILE_SIZE + TILE_SIZE) width /\
  tileY * TILE_SIZE <= y < Z.min (tileY * TILE_SIZE + TILE_SIZE) height.

(** The linear index, as the workers count tiles, of the tile at
    [(x / TILE_SIZE, y / TILE_SIZE)]. *)
Definition tile_index_of (width x y : Z) : Z :=
  (y / TILE_SIZE) * tiles_along width + x / TILE_SIZE.

(** The loop of worker [t]: [for (int tileIdx = t; tileIdx < totalTiles;
    tileIdx += numThreads)].  [None] when the rounds allowed by [fuel] are
    used up. *)
Fixpoint worker_tiles (fuel : nat) (tileIdx numThreads totalTiles : Z)
    : option (list Z) :=
  if tileIdx <? totalTiles then
    match fuel with
    | O => None
    | Datatypes.S fuel' =>
        match worker_tiles fuel' (tileIdx + numThreads) numThreads totalTiles with
        | Some rest => Some (tileIdx :: rest)
        | None => None
        end
    end
  else Some [].

(** Interleavings of the sequences of several threads: each step takes
    the next element of one thread. *)
Inductive interleaving {A : Type} : list (list A) -> list A -> Prop :=
| interleaving_done threads :
    Forall (fun t => t = []) threads -> interleaving threads []
| interleaving_step before x t after trace :
    interleaving (before ++ t :: after) trace ->
    interleaving (before ++ (x :: t) :: after) (x :: trace).


(** ** The drag handler and the inputs of one round of the main loop *)

Definition MIN_MOVEMENT : Q := 2.0.
Definition DRAG_SENSITIVITY : Q := 1.0.

(** [deltaLength >= MIN_MOVEMENT], where [deltaLength] is the square root
    of [x * x + y * y]: the square root is increasing and [MIN_MOVEMENT] is
    not negative, so the test is the comparison of the squares. *)
Definition drag_moved (mouseDelta : Q * Q) : bool :=
  Qle_bool (MIN_MOVEMENT * MIN_MOVEMENT)
    (fst mouseDelta * fst mouseDelta + snd mouseDelta * snd mouseDelta).

(** The body of [if (isDragging && IsMouseButtonDown(MOUSE_BUTTON_LEFT))],
    as far as the viewport goes. *)
Definition pan (vp : Viewport) (currentWidth currentHeight : Z)
    (lastMousePos mousePos : Q * Q) : Viewport :=
  let mouseDelta :=
    ((fst mousePos - fst lastMousePos)%Q, (snd mousePos - snd lastMousePos)%Q) in
  if drag_moved mouseDelta then
    let realDelta :=
      (- fst mouseDelta * (Re_max vp - Re_min vp) / inject_Z currentWidth
       * DRAG_SENSITIVITY)%Q in
    let imagDelta :=
      (snd mouseDelta * (Im_max vp - Im_min vp) / inject_Z currentHeight
       * DRAG_SENSITIVITY)%Q in
    {| Re_min := Re_min vp + realDelta;
       Re_max := Re_max vp + realDelta;
       Im_min := Im_min vp + imagDelta;
       Im_max := Im_max vp + imagDelta |}
  else vp.

(** Two viewports with equal bounds. *)
Definition viewport_eq (vp vp' : Viewport) : Prop :=
  (Re_min vp == Re_min vp')%Q /\ (Re_max vp == Re_max vp')%Q /\
  (Im_min vp == Im_min vp')%Q /\ (Im_max vp == Im_max vp')%Q.

(** What raylib and the machine report during one round of the main loop:
    [GetFrameTime()], [IsKeyPressed] of the five keys, the mouse buttons,
    [GetScreenWidth()] and [GetScreenHeight()], [GetMousePosition()],
    [GetMouseWheelMove()] and [std::thread::hardware_concurrency()]. *)
Record Frame : Type := mkFrame
  { frameTime : Q;
    keyEnter : bool;
    keyR : bool;
    keyF : bool;
    keyM : bool;
    keyQ : bool;
    leftPressed : bool;
    rightPressed : bool;
    leftReleased : bool;
    leftDown : bool;
    screenWidth : Z;
    screenHeight : Z;
    mousePos : Q * Q;
    wheelMove : Q;
    hardwareConcurrency : Z }.

(** A frame in which nothing happens, and one in which ENTER is pressed,
    for closed examples. *)
Definition idle_frame (width height hc : Z) : Frame :=
  {| frameTime := 0.0; keyEnter := false; keyR := false; keyF := false;
     keyM := false; keyQ := false; leftPressed := false;
     rightPressed := false; leftReleased := false; leftDown := false;
     screenWidth := width; screenHeight := height;
     mousePos := (0%Q, 0%Q); wheelMove := 0; hardwareConcurrency := hc |}.

Definition enter_frame (width height hc : Z) : Frame :=
  {| frameTime := 0.0; keyEnter := true; keyR := false; keyF := false;
     keyM := false; keyQ := false; leftPressed := false;
     rightPressed := false; leftReleased := false; leftDown := false;
     screenWidth := width; screenHeight := height;
     mousePos := (0%Q, 0%Q); wheelMove := 0; hardwareConcurrency := hc |}.

(** A stand-in for raylib's [RAYWHITE] in closed examples. *)
Definition ray_white : Color := mkColor 245 245 245 255.

(** ** The program on [double]: IEEE 754 binary64

    The functions of the program that compute on [double], once more, on
    the binary64 numbers of the machine ([float], with the rounding,
    infinities and NaN of IEEE 754), operation by operation in the order
    in which C++ evaluates them, each operation rounded on its own (no
    multiplication and addition contracted into one fused operation, no
    intermediate result kept in a wider format).  Comparisons with a NaN
    are false, as in C++. *)

Module Binary64.

Local Open Scope float_scope.

(** [(double) i] for an [int] [i]: exact, an [int] has at most 31 bits. *)
Definition double_of_int (i : Z) : float :=
  if (i <? 0)%Z then - of_uint63 (Uint63.of_Z (- i))
  else of_uint63 (Uint63.of_Z i).

(** The number a [double] stands for, as a fraction in lowest terms; none
    for the infinities and NaN. *)
Definition value (d : float) : option Q :=
  match Prim2SF d with
  | S754_zero _ => Some 0%Q
  | S754_finite s m e =>
      let v := if (0 <=? e)%Z then inject_Z (Z.pos m * 2 ^ e)
               else (Z.pos m # Pos.pow 2 (Z.to_pos (- e)))%Q in
      Some (Qred (if s then (- v)%Q else v))
  | _ => None
  end.

(** [(int) d]: conversion to [int] drops the fractional part.  For an
    infinity or NaN (and for a value outside the range of [int]) the C++
    program has no defined behaviour. *)
Definition int_of_double (d : float) : option Z :=
  match value d with
  | Some q => Some (Z.quot (Qnum q) (Z.pos (Qden q)))
  | None => None
  end.

(** The [do { ... } while (zx2 + zy2 <= 4.0 && n < max_iter)] loop. *)
Equations? escape_loop (cx cy zx zy : float) (n max_iter : Z) : Z
  by wf (Z.to_nat (max_iter - n)) lt :=
  escape_loop cx cy zx zy n max_iter :=
    let zx2 := zx * zx in
    let zy2 := zy * zy in
    let zy' := 2 * zx * zy + cy in
    let zx' := zx2 - zy2 + cx in
    let n' := (n + 1)%Z in
    if zx2 + zy2 <=? 4.0 then
      match Z_lt_dec n' max_iter with
      | left _ => escape_loop cx cy zx' zy' n' max_iter
      | right _ => n'
      end
    else n'.
Proof. lia. Qed.

(** The three closed-form tests, in the order of the program. *)
Definition in_cardioid (cx cy : float) : bool :=
  let q := (cx - 0.25) * (cx - 0.25) + cy * cy in
  q * (q + (cx - 0.25)) <? 0.25 * cy * cy.

Definition in_bulb (cx cy : float) : bool :=
  (cx + 1) * (cx + 1) + cy * cy <? 0.0625.

(** [cx * cx + cy * cy > 4.0] *)
Definition outside (cx cy : float) : bool :=
  4.0 <? cx * cx + cy * cy.

Definition mandelbrotEscape (cx cy : float) (max_iter : Z) : Z :=
  if in_cardioid cx cy then max_iter
  else if in_bulb cx cy then max_iter
  else if outside cx cy then 0%Z
  else escape_loop cx cy 0 0 0 max_iter.

(** The orbit [z_0 = 0], [z_(k+1) = z_k^2 + c] as the loop body computes
    it, every operation rounded. *)
Definition orbit_step (cx cy : float) (z : float * float) : float * float :=
  (fst z * fst z - snd z * snd z + cx, 2 * fst z * snd z + cy).

Fixpoint orbit (cx cy : float) (k : nat) : float * float :=
  match k with
  | O => (0, 0)
  | S k' => orbit_step cx cy (orbit cx cy k')
  end.

(** The loop's test [zx2 + zy2 <= 4.0] fails at [z]: the sum of the
    rounded squares is above 4.0, or it is NaN. *)
Definition escaped (z : float * float) : bool :=
  negb (fst z * fst z + snd z * snd z <=? 4.0).

(** [k] is the first index of the computed orbit, from 1 on, at which the
    loop's test fails. *)
Definition first_escape (cx cy : float) (k : nat) : Prop :=
  (1 <= k)%nat /\ escaped (orbit cx cy k) = true /\
  forall j, (1 <= j < k)%nat -> escaped (orbit cx cy j) = false.

(** The point reaches the loop: none of the three tests fires. *)
Definition iterative_branch (cx cy : float) : Prop :=
  in_cardioid cx cy = false /\ in_bulb cx cy = false /\ outside cx cy = false.

(** The four bounds of [main]. *)
Record Viewport : Type := mkViewport
  { Re_min : float; Re_max : float; Im_min : float; Im_max : float }.

Definition default_viewport : Viewport :=
  {| Re_min := -2.0; Re_max := 1.5; Im_min := -1.5; Im_max := 1.5 |}.

(** The pixel-to-plane mapping, with [x] and [y] already converted to
    [double]. *)
Definition plane_real (vp : Viewport) (x : float) (width : Z) : float :=
  Re_min vp + (x / double_of_int width) * (Re_max vp - Re_min vp).

Definition plane_imag (vp : Viewport) (y : float) (height : Z) : float :=
  Im_max vp - (y / double_of_int height) * (Im_max vp - Im_min vp).

(** The window-size handler. *)
Definition resize (vp : Viewport) (currentWidth currentHeight : Z)
    (newWidth newHeight : Z) : Viewport :=
  if negb (newWidth =? currentWidth)%Z || negb (newHeight =? currentHeight)%Z
  then
    let widthScale := double_of_int newWidth / double_of_int currentWidth in
    let heightScale := double_of_int newHeight / double_of_int currentHeight in
    let currentRealRange := Re_max vp - Re_min vp in
    let currentImagRange := Im_max vp - Im_min vp in
    let centerReal := (Re_min vp + Re_max vp) / 2.0 in
    let centerImag := (Im_min vp + Im_max vp) / 2.0 in
    let newRealRange := currentRealRange * widthScale in
    let newImagRange := currentImagRange * heightScale in
    {| Re_min := centerReal - newRealRange / 2.0;
       Re_max := centerReal + newRealRange / 2.0;
       Im_min := centerImag - newImagRange / 2.0;
       Im_max := centerImag + newImagRange / 2.0 |}
  else vp.

(** The wheel handler.  [mouseX], [mouseY] and [wheel] are the [float]
    values raylib reports, converted to [double] (exactly) where the
    program computes with them; the constant [0.8] is the [double] nearest
    to it, [0x1.999999999999ap-1]. *)
Definition zoom (vp : Viewport) (currentWidth currentHeight : Z)
    (mouseX mouseY wheel : float) : Viewport :=
  if negb (wheel =? 0) then
    let mouseRe := plane_real vp mouseX currentWidth in
    let mouseIm := plane_imag vp mouseY currentHeight in
    let zoomFactor := if 0 <? wheel then 0x1.999999999999ap-1 else 1.25 in
    let newWidth := (Re_max vp - Re_min vp) * zoomFactor in
    let newHeight := (Im_max vp - Im_min vp) * zoomFactor in
    {| Re_min := mouseRe - newWidth / 2.0;
       Re_max := mouseRe + newWidth / 2.0;
       Im_min := mouseIm - newHeight / 2.0;
       Im_max := mouseIm + newHeight / 2.0 |}
  else vp.


(** The body of the inner loop of [RenderTile].  [ColorFromHSV] receives
    the [float] values of [hue], [0.5f] and [1.2f]; the binary32 number
    nearest to 1.2 is 5033165 / 4194304. *)
Definition pixel_color (ColorFromHSV : Q -> Q -> Q -> Color)
    (x y width height : Z) (vp : Viewport) : option Color :=
  let real := plane_real vp (double_of_int x) width in
  let imag := plane_imag vp (double_of_int y) height in
  let n := mandelbrotEscape real imag MAX_ITER in
  if (n =? MAX_ITER)%Z then Some BLACK
  else
    match int_of_double (255.0 * double_of_int n / double_of_int MAX_ITER) with
    | Some hue => Some (ColorFromHSV (inject_Z hue) 0.5%Q (5033165 # 4194304)%Q)
    | None => None
    end.

End Binary64.

(** ** The values of binary64 arithmetic

    What the operations of [Binary64] compute, read on the numbers.  The
    primitive operations on [float] are specified by the Standard Library
    ([Prim2SF], [SFmul], [SFadd], [SFsub], [SFltb]: an operation rounds the
    exact result to nearest, ties to even, and overflows to an infinity);
    the definitions below state what is used of that here: the value of a
    float, and relations that bound the result of an operation by the
    exact result. *)

(** Powers of two as rationals, and the two constants of the format: the
    relative error bound of a rounding, and the least positive number. *)
Definition pow2 (e : Z) : Q := (2 ^ e)%Q.
Definition eps : Q := pow2 (-52).
Definition eta : Q := pow2 (-1074).

(** Half of the overflow threshold [2^1024]. *)
Definition big : Q := pow2 1023.

(** [rounds s v r]: the float [r], of sign [s], is a rounding of the
    magnitude [v]: zero only if [v <= eta], a finite number within
    [eps * v + eta] of [v], or an infinity only if [v >= 2^1023]. *)
Definition rounds (s : bool) (v : Q) (r : spec_float) : Prop :=
  match r with
  | S754_zero s' => s' = s /\ (v <= eta)%Q
  | S754_finite s' m' e' =>
      s' = s /\ valid_binary (S754_finite s' m' e') = true /\
      (v - (eps * v + eta) <= inject_Z (Z.pos m') * pow2 e')%Q /\
      (inject_Z (Z.pos m') * pow2 e' <= v + (eps * v + eta))%Q
  | S754_infinity s' => s' = s /\ (pow2 1023 <= v)%Q
  | S754_nan => False
  end.

(** The number a finite float stands for. *)
Definition SFval (x : spec_float) : Q :=
  match x with
  | S754_finite s m e =>
      if s then (- (inject_Z (Z.pos m) * pow2 e))%Q
      else (inject_Z (Z.pos m) * pow2 e)%Q
  | _ => 0%Q
  end.

(** A float is NaN, an infinity with its sign ([true]: negative), or a
    number (the sign of zero is left out). *)
Inductive xval : Type :=
  | XNaN : xval
  | XInf : bool -> xval
  | XFin : Q -> xval.

Definition SFview (x : spec_float) : xval :=
  match x with
  | S754_nan => XNaN
  | S754_infinity s => XInf s
  | _ => XFin (SFval x)
  end.

Definition float_view (f : float) : xval := SFview (Prim2SF f).

(** [near v r]: the finite number [r] is a rounding of [v]: of the same
    sign, within a thousandth of it relatively and absolutely (a coarse
    bound: the format gives [eps] and [eta]), and below the overflow
    threshold. *)
Definition near (v r : Q) : Prop :=
  ((0 <= v -> 0 <= r /\ (999 # 1000) * v - (1 # 1000) <= r /\
                r <= (1001 # 1000) * v + (1 # 1000)) /\
   (v <= 0 -> r <= 0 /\ (1001 # 1000) * v - (1 # 1000) <= r /\
                r <= (999 # 1000) * v + (1 # 1000)) /\
   - (2 * big) < r /\ r < 2 * big)%Q.

(** [xrounds v r]: [r] is a rounding of the exact result [v]; an infinity
    only if [v] is at least [2^1023] in magnitude, never NaN. *)
Definition xrounds (v : Q) (r : xval) : Prop :=
  match r with
  | XNaN => False
  | XInf s => if s then (v <= - big)%Q else (big <= v)%Q
  | XFin r => near v r
  end.

(** What [a * b], [a + b] and [a - b] are, from what [a] and [b] are. *)
Definition mul_rel (a b r : xval) : Prop :=
  match a, b with
  | XNaN, _ | _, XNaN => r = XNaN
  | XInf s, XInf s' => r = XInf (xorb s s')
  | XInf s, XFin q | XFin q, XInf s =>
      ((q == 0)%Q -> r = XNaN) /\ ((0 < q)%Q -> r = XInf s) /\
      ((q < 0)%Q -> r = XInf (negb s))
  | XFin p, XFin q => xrounds (p * q) r
  end.

Definition add_rel (a b r : xval) : Prop :=
  match a, b with
  | XNaN, _ | _, XNaN => r = XNaN
  | XInf s, XInf s' => r = if Bool.eqb s s' then XInf s else XNaN
  | XInf s, XFin _ | XFin _, XInf s => r = XInf s
  | XFin p, XFin q => xrounds (p + q) r
  end.

Definition sub_rel (a b r : xval) : Prop :=
  match a, b with
  | XNaN, _ | _, XNaN => r = XNaN
  | XInf s, XInf s' => r = if Bool.eqb s (negb s') then XInf s else XNaN
  | XInf s, XFin _ => r = XInf s
  | XFin _, XInf s => r = XInf (negb s)
  | XFin p, XFin q => xrounds (p - q) r
  end.

(** What [a < b] being true says of [a] and [b]. *)
Definition lt_rel (a b : xval) : Prop :=
  match a, b with
  | XFin p, XFin q => (p < q)%Q
  | XInf true, XFin _ | XFin _, XInf false | XInf true, XInf false => True
  | _, _ => False
  end.

(** The point is outside the circle of radius 2, with a margin for the
    rounding of the exterior test; a NaN coordinate is not outside. *)
Definition exterior (vx vy : xval) : Prop :=
  match vx, vy with
  | XNaN, _ | _, XNaN => False
  | XFin x, XFin y => (398 # 100 <= x * x + y * y)%Q
  | _, _ => True
  end.
(** ** Rendering: [RenderTile] and the render block of [main] *)

Section Render.

(** raylib's [ColorFromHSV(hue, saturation, value)], whose code is not part
    of this repository. *)
Variable ColorFromHSV : Q -> Q -> Q -> Color.

(** The body of the inner loop of [RenderTile]: the colour of pixel
    [(x, y)].  [ColorFromHSV] receives the [float] values of [hue], [0.5f]
    and [1.2f]; the binary32 number nearest to 1.2 is 5033165 / 4194304. *)
Definition pixel_color (x y width height : Z) (vp : Viewport) : Color :=
  let real := plane_real vp (inject_Z x) width in
  let imag := plane_imag vp (inject_Z y) height in
  let n := mandelbrotEscape real imag MAX_ITER in
  if n =? MAX_ITER then BLACK
  else
    let hue := int_of_double (255.0 * inject_Z n / inject_Z MAX_ITER) in
    ColorFromHSV (inject_Z hue) 0.5 (5033165 # 4194304).

Definition RenderTile (tileX tileY width height : Z) (vp : Viewport)
    (pixelBuffer : list Color) : option (list Color) :=
  let startX := tileX * TILE_SIZE in
  let endX := Z.min (startX + TILE_SIZE) width in
  let startY := tileY * TILE_SIZE in
  let endY := Z.min (startY + TILE_SIZE) height in
  for_range startY endY (fun y buf =>
    for_range startX endX (fun x buf =>
      store buf (y * width + x) (pixel_color x y width height vp)) buf)
    pixelBuffer.

(** The stores of one call of [RenderTile], in program order. *)
Definition tile_stores (tileX tileY width height : Z) (vp : Viewport)
    : list (Z * Color) :=
  let startX := tileX * TILE_SIZE in
  let endX := Z.min (startX + TILE_SIZE) width in
  let startY := tileY * TILE_SIZE in
  let endY := Z.min (startY + TILE_SIZE) height in
  seqZ startY (endY - startY) ≫= fun y =>
    seqZ startX (endX - startX) ≫= fun x =>
      [(y * width + x, pixel_color x y width height vp)].

(** The stores of worker [t], in program order: the thread's lambda calls
    [RenderTile] on each of its tiles. *)
Definition worker_stores (t numThreads totalTiles tilesX width height : Z)
    (vp : Viewport) : option (list (Z * Color)) :=
  match worker_tiles (Z.to_nat totalTiles) t numThreads totalTiles with
  | Some tiles =>
      Some (tiles ≫= fun tileIdx =>
              let tileX := Z.rem tileIdx tilesX in
              let tileY := Z.quot tileIdx tilesX in
              tile_stores tileX tileY width height vp)
  | None => None
  end.

(** The threads started by the render block, one per [t] with
    [0 <= t < numThreads]. *)
Definition render_threads (numThreads width height : Z) (vp : Viewport)
    : option (list (list (Z * Color))) :=
  let tilesX := tiles_along width in
  let tilesY := tiles_along height in
  let totalTiles := tilesX * tilesY in
  mapM (fun t => worker_stores t numThreads totalTiles tilesX width height vp)
    (seqZ 0 numThreads).

(** One render pass: the threads run interleaved in some order, and the
    pass ends when all have finished (the joins). *)
Definition render_pass (numThreads width height : Z) (vp : Viewport)
    (pixelBuffer pixelBuffer' : list Color) : Prop :=
  exists threads trace,
    render_threads numThreads width height vp = Some threads /\
    interleaving threads trace /\
    run_stores trace pixelBuffer = Some pixelBuffer'.

(** The render block with [numThreads] read from
    [std::thread::hardware_concurrency()]. *)
Definition render_block (hardware_concurrency width height : Z)
    (vp : Viewport) (pixelBuffer pixelBuffer' : list Color) : Prop :=
  render_pass (int_of_unsigned hardware_concurrency) width height vp
    pixelBuffer pixelBuffer'.

(** The picture of a viewport on a raster: every pixel with its colour,
    row by row. *)
Definition render_image (width height : Z) (vp : Viewport) : list Color :=
  (fun i => pixel_color (i mod width) (i / width) width height vp)
    <$> seqZ 0 (width * height).

(** What a pass leaves in the buffer of [main]: the picture, or with no
    worker the value-initialised buffer. *)
Definition completed_frame (numThreads width height : Z) (vp : Viewport)
    : list Color :=
  if 1 <=? numThreads then render_image width height vp
  else replicate (Z.to_nat (width * height)) blank.

(** The part of the state of [main] that rendering depends on. *)
Record State : Type := mkState
  { view : Viewport;
    currentWidth : Z;
    currentHeight : Z;
    pixelBuffer : list Color }.

Definition initial_state : State :=
  {| view := default_viewport;
     currentWidth := WIDTH;
     currentHeight := HEIGHT;
     pixelBuffer := replicate (Z.to_nat (WIDTH * HEIGHT)) blank |}.

(** What one round of the main loop can do to that state, on a machine
    that reports [numThreads] hardware threads: the window is resized, the
    view is changed (pan, zoom, reset), a pass is rendered. *)
Inductive main_step (numThreads : Z) : State -> State -> Prop :=
| step_resize s newWidth newHeight :
    0 < newWidth -> 0 < newHeight ->
    newWidth <> currentWidth s \/ newHeight <> currentHeight s ->
    main_step numThreads s
      {| view := resize (view s) (currentWidth s) (currentHeight s)
                   newWidth newHeight;
         currentWidth := newWidth;
         currentHeight := newHeight;
         pixelBuffer := vector_resize (pixelBuffer s) (newWidth * newHeight) |}
| step_view s vp :
    main_step numThreads s
      {| view := vp;
         currentWidth := currentWidth s;
         currentHeight := currentHeight s;
         pixelBuffer := pixelBuffer s |}
| step_render s pixelBuffer' :
    render_pass numThreads (currentWidth s) (currentHeight s) (view s)
      (pixelBuffer s) pixelBuffer' ->
    main_step numThreads s
      {| view := view s;
         currentWidth := currentWidth s;
         currentHeight := currentHeight s;
         pixelBuffer := pixelBuffer' |}.

Definition reachable (numThreads : Z) (s : State) : Prop :=
  rtc (main_step numThreads) initial_state s.


(** ** The main loop *)

(** raylib's [RAYWHITE], the colour of a freshly created image. *)
Variable RAYWHITE : Color.

(** The state of [main]: the variables rendering depends on, the contents
    of [texture], the file-level variables and the two flags of [main]. *)
Record Main : Type := mkMain
  { core : State;
    texture : list Color;
    splashTime : Q;
    showSplashScreen : bool;
    needsRedraw : bool;
    hasRenderedOnce : bool;
    isCurrentlyRendering : bool;
    isDragging : bool;
    lastMousePos : Q * Q;
    isFullscreen : bool }.

Definition initial_main : Main :=
  {| core := initial_state;
     texture := replicate (Z.to_nat (WIDTH * HEIGHT)) RAYWHITE;
     splashTime := 0.0;
     showSplashScreen := true;
     needsRedraw := true;
     hasRenderedOnce := false;
     isCurrentlyRendering := false;
     isDragging := false;
     lastMousePos := (0%Q, 0%Q);
     isFullscreen := false |}.

(** [splashTime += GetFrameTime()] *)
Definition tick (f : Frame) (s : Main) : Main :=
  {| core := core s;
     texture := texture s;
     splashTime := splashTime s + frameTime f;
     showSplashScreen := showSplashScreen s;
     needsRedraw := needsRedraw s;
     hasRenderedOnce := hasRenderedOnce s;
     isCurrentlyRendering := isCurrentlyRendering s;
     isDragging := isDragging s;
     lastMousePos := lastMousePos s;
     isFullscreen := isFullscreen s |}.

(** The branch [if (showSplashScreen) { ... continue; }]. *)
Definition splash_round (f : Frame) (s : Main) : Main :=
  if keyEnter f || leftPressed f || rightPressed f then
    {| core := core s;
       texture := texture s;
       splashTime := splashTime s;
       showSplashScreen := false;
       needsRedraw := true;
       hasRenderedOnce := hasRenderedOnce s;
       isCurrentlyRendering := isCurrentlyRendering s;
       isDragging := isDragging s;
       lastMousePos := lastMousePos s;
       isFullscreen := isFullscreen s |}
  else s.

(** The handlers between the splash branch and the [Q] key, in the order
    of the program: window size, mouse buttons, drag, wheel, [R], [F]
    ([M] only minimises the window). *)
Definition handle_events (f : Frame) (s : Main) : Main :=
  let newWidth := screenWidth f in
  let newHeight := screenHeight f in
  let resized :=
    negb (newWidth =? currentWidth (core s))
    || negb (newHeight =? currentHeight (core s)) in
  let view1 :=
    resize (view (core s)) (currentWidth (core s)) (currentHeight (core s))
      newWidth newHeight in
  let currentWidth1 := if resized then newWidth else currentWidth (core s) in
  let currentHeight1 := if resized then newHeight else currentHeight (core s) in
  let texture1 :=
    if resized then replicate (Z.to_nat (currentWidth1 * currentHeight1)) RAYWHITE
    else texture s in
  let pixelBuffer1 :=
    if resized
    then vector_resize (pixelBuffer (core s)) (currentWidth1 * currentHeight1)
    else pixelBuffer (core s) in
  let needsRedraw1 := if resized then true else needsRedraw s in
  let hasRenderedOnce1 := if resized then false else hasRenderedOnce s in
  let isDragging1 :=
    if leftPressed f then true
    else if leftReleased f then false else isDragging s in
  let lastMousePos1 := if leftPressed f then mousePos f else lastMousePos s in
  let dragging := isDragging1 && leftDown f in
  let mouseDelta :=
    ((fst (mousePos f) - fst lastMousePos1)%Q,
     (snd (mousePos f) - snd lastMousePos1)%Q) in
  let moved := dragging && drag_moved mouseDelta in
  let view2 :=
    if dragging
    then pan view1 currentWidth1 currentHeight1 lastMousePos1 (mousePos f)
    else view1 in
  let lastMousePos2 := if moved then mousePos f else lastMousePos1 in
  let needsRedraw2 := if moved then true else needsRedraw1 in
  let wheel := wheelMove f in
  let view3 :=
    zoom view2 currentWidth1 currentHeight1
      (fst (mousePos f)) (snd (mousePos f)) wheel in
  let needsRedraw3 := if negb (Qeq_bool wheel 0) then true else needsRedraw2 in
  let view4 := if keyR f then default_viewport else view3 in
  let needsRedraw4 := if keyR f then true else needsRedraw3 in
  let isFullscreen1 :=
    if keyF f then (if isFullscreen s then false else true)
    else isFullscreen s in
  let needsRedraw5 := if keyF f then true else needsRedraw4 in
  {| core := {| view := view4;
                currentWidth := currentWidth1;
                currentHeight := currentHeight1;
                pixelBuffer := pixelBuffer1 |};
     texture := texture1;
     splashTime := splashTime s;
     showSplashScreen := showSplashScreen s;
     needsRedraw := needsRedraw5;
     hasRenderedOnce := hasRenderedOnce1;
     isCurrentlyRendering := isCurrentlyRendering s;
     isDragging := isDragging1;
     lastMousePos := lastMousePos2;
     isFullscreen := isFullscreen1 |}.

(** The render block: [if ((needsRedraw || !hasRenderedOnce) &&
    !isCurrentlyRendering) { ... }], with [UpdateTexture] copying the
    buffer to the texture. *)
Definition render_round (f : Frame) (s s' : Main) : Prop :=
  if (needsRedraw s || negb (hasRenderedOnce s)) && negb (isCurrentlyRendering s)
  then
    exists pixelBuffer',
      render_block (hardwareConcurrency f)
        (currentWidth (core s)) (currentHeight (core s)) (view (core s))
        (pixelBuffer (core s)) pixelBuffer' /\
      s' = {| core := {| view := view (core s);
                         currentWidth := currentWidth (core s);
                         currentHeight := currentHeight (core s);
                         pixelBuffer := pixelBuffer' |};
              texture := pixelBuffer';
              splashTime := splashTime s;
              showSplashScreen := showSplashScreen s;
              needsRedraw := false;
              hasRenderedOnce := true;
              isCurrentlyRendering := false;
              isDragging := isDragging s;
              lastMousePos := lastMousePos s;
              isFullscreen := isFullscreen s |}
  else s' = s.

(** How one round of the [while] loop ends: with [continue] or at the end
    of the body, showing the texture when [hasRenderedOnce] holds, or with
    [break]. *)
Inductive Outcome : Type :=
| Continue (s : Main) (shown : option (list Color))
| Break (s : Main).

Definition outcome_state (o : Outcome) : Main :=
  match o with Continue s _ => s | Break s => s end.

Definition loop_round (f : Frame) (s : Main) (o : Outcome) : Prop :=
  let s0 := tick f s in
  if showSplashScreen s0 then o = Continue (splash_round f s0) None
  else
    let s1 := handle_events f s0 in
    if keyQ f then o = Break s1
    else
      exists s2,
        render_round f s1 s2 /\
        o = Continue s2 (if hasRenderedOnce s2 then Some (texture s2) else None).

(** A frame of a window with a positive size, on a machine that reports
    [hc] hardware threads. *)
Definition frame_ok (hc : Z) (f : Frame) : Prop :=
  0 < screenWidth f /\ 0 < screenHeight f /\ hardwareConcurrency f = hc.

(** The states of [main] at the head of the loop. *)
Definition loop_step (hc : Z) (s s' : Main) : Prop :=
  exists f shown, frame_ok hc f /\ loop_round f s (Continue s' shown).

Definition main_reachable (hc : Z) (s : Main) : Prop :=
  rtc (loop_step hc) initial_main s.
(** * Properties *)

(** ** Comparisons *)

Lemma Qltb_lt a b : Qltb a b = true <-> (a < b)%Q.
Proof.
  unfold Qltb. rewrite negb_true_iff, <- not_true_iff_false, Qle_bool_iff.
  split; [apply Qnot_le_lt | apply Qlt_not_le].
Qed.

Lemma Qltb_ge a b : Qltb a b = false <-> (b <= a)%Q.
Proof. unfold Qltb. rewrite negb_false_iff. apply Qle_bool_iff. Qed.


(** ** The escape-time evaluator *)

(** *** The loop, one round at a time *)

Lemma escape_loop_round cx cy zx zy n max_iter :
  escape_loop cx cy zx zy n max_iter =
  if Qle_bool (zx * zx + zy * zy) 4.0 && (n + 1 <? max_iter)
  then escape_loop cx cy (zx * zx - zy * zy + cx) (2 * zx * zy + cy)
         (n + 1) max_iter
  else n + 1.
Proof.
  rewrite escape_loop_equation_1. cbv zeta.
  destruct (Qle_bool _ _); simpl; [|reflexivity].
  destruct (Z_lt_dec _ _) as [H|H].
  - apply Z.ltb_lt in H. now rewrite H.
  - apply Z.ltb_nlt in H. now rewrite H.
Qed.

(** Induction on the number of rounds still allowed: to prove [P] of a
    loop state, assume it of the next state whenever the loop goes on. *)
Lemma escape_loop_rounds_ind (cx cy : Q) (max_iter : Z)
    (P : Q -> Q -> Z -> Prop) :
  (forall zx zy n,
     (Qle_bool (zx * zx + zy * zy) 4.0 = true -> n + 1 < max_iter ->
      P (zx * zx - zy * zy + cx)%Q (2 * zx * zy + cy)%Q (n + 1)) ->
     P zx zy n) ->
  forall zx zy n, P zx zy n.
Proof.
  intros step zx zy n.
  remember (Z.to_nat (max_iter - n)) as k eqn:Hk.
  revert zx zy n Hk.
  induction k as [k IH] using lt_wf_ind.
  intros zx zy n Hk. apply step. intros _ Hlt.
  apply (IH (Z.to_nat (max_iter - (n + 1)))); [lia | reflexivity].
Qed.

Lemma escape_loop_bounds cx cy zx zy n max_iter :
  n + 1 <= escape_loop cx cy zx zy n max_iter <= Z.max (n + 1) max_iter.
Proof.
  revert zx zy n.
  apply (escape_loop_rounds_ind cx cy max_iter
           (fun zx zy n =>
              n + 1 <= escape_loop cx cy zx zy n max_iter
                    <= Z.max (n + 1) max_iter)).
  intros zx zy n IH. rewrite escape_loop_round.
  destruct (Qle_bool _ _) eqn:Hle; simpl; [|lia].
  destruct (n + 1 <? max_iter) eqn:Hlt; [|lia].
  apply Z.ltb_lt in Hlt. specialize (IH eq_refl Hlt). lia.
Qed.

(** *** The closed-form tests lie inside the disc of radius 2 *)

Lemma cardioid_in_disc cx cy :
  in_cardioid cx cy = true -> (cx * cx + cy * cy <= 4.0)%Q.
Proof.
  unfold in_cardioid. cbv zeta. rewrite Qltb_lt. intros Hc.
  apply Qnot_lt_le. intros Hout.
  set (u := (cx - 0.25)%Q) in *.
  set (q := (u * u + cy * cy)%Q) in *.
  assert (Hq : (cy * cy <= q)%Q) by (unfold q; nra).
  assert (Hy : (0 <= cy * cy)%Q) by nra.
  assert (Hqu : (0.25 <= q + u)%Q).
  { unfold q, u. destruct (Qlt_le_dec cx (-7)); nra. }
  nra.
Qed.

Lemma bulb_in_disc cx cy :
  in_bulb cx cy = true -> (cx * cx + cy * cy <= 4.0)%Q.
Proof.
  unfold in_bulb. rewrite Qltb_lt. intros Hb. nra.
Qed.

(** *** Symmetry about the real axis *)






(** ** Rounding: where the exterior test fires, the shortcuts do not

    The three closed-form tests of [mandelbrotEscape] are evaluated in
    [double].  From the specification of the primitive operations (each
    rounds the exact result to nearest) a rounded result is within
    [eps * |v| + eta] of the exact result [v], or an infinity when [v] is
    beyond [2^1023]; with these bounds the tests are followed operation
    by operation. *)

(** *** Rounding in binary64: one rounding

    The number of binary digits of a mantissa. *)
Lemma digits2_pos_size (p : positive) : digits2_pos p = Pos.size p.
Proof. induction p as [p IH|p IH|]; simpl; congruence. Qed.

Lemma digits2_bounds (m : positive) :
  2 ^ (Z.pos (digits2_pos m) - 1) <= Z.pos m < 2 ^ Z.pos (digits2_pos m).
Proof.
  rewrite digits2_pos_size.
  pose proof (Pos.size_gt m) as Hgt. pose proof (Pos.size_le m) as Hle.
  assert (Hp : Z.pos (2 ^ Pos.size m) = 2 ^ Z.pos (Pos.size m))
    by (now rewrite Pos2Z.inj_pow).
  split.
  - assert (2 * 2 ^ (Z.pos (Pos.size m) - 1) = 2 ^ Z.pos (Pos.size m)).
    { rewrite <- Z.pow_succ_r by lia. f_equal. lia. }
    lia.
  - lia.
Qed.

Lemma digits2_unique (m : positive) (d : Z) :
  2 ^ (d - 1) <= Z.pos m < 2 ^ d -> Z.pos (digits2_pos m) = d.
Proof.
  intros [Hlo Hhi]. pose proof (digits2_bounds m) as [Hlo' Hhi'].
  set (d' := Z.pos (digits2_pos m)) in *.
  assert (0 < d).
  { destruct (Z_lt_dec 0 d); [assumption|].
    rewrite (Z.pow_neg_r 2 (d - 1)) in Hlo by lia.
    destruct (Z.eq_dec d 0) as [->|]; [simpl in Hhi; lia|].
    rewrite Z.pow_neg_r in Hhi by lia. lia. }
  destruct (Z.lt_trichotomy d d') as [Hlt|[Heq|Hgt]]; [|symmetry; assumption|].
  - assert (2 ^ d <= 2 ^ (d' - 1)) by (apply Z.pow_le_mono_r; lia). lia.
  - assert (2 ^ d' <= 2 ^ (d - 1)) by (apply Z.pow_le_mono_r; lia). lia.
Qed.

(** The right shift of [binary_round_aux]: [k] shifts divide the mantissa
    by [2^k] and record whether the remainder is zero. *)
Lemma iter_pos_nat {A : Type} (f : A -> A) (p : positive) (x : A) :
  SpecFloat.iter_pos f p x = Nat.iter (Pos.to_nat p) f x.
Proof.
  revert x. induction p as [p IH|p IH|]; intros x; cbn [SpecFloat.iter_pos].
  - rewrite !IH. rewrite Pos2Nat.inj_xI.
    replace (S (2 * Pos.to_nat p)) with (Pos.to_nat p + (Pos.to_nat p + 1))%nat by lia.
    rewrite !Nat.iter_add. reflexivity.
  - rewrite !IH. rewrite Pos2Nat.inj_xO.
    replace (2 * Pos.to_nat p)%nat with (Pos.to_nat p + Pos.to_nat p)%nat by lia.
    rewrite Nat.iter_add. reflexivity.
  - reflexivity.
Qed.

Lemma shr_1_spec (m : Z) (r s : bool) :
  0 <= m ->
  shr_1 {| shr_m := m; shr_r := r; shr_s := s |}
  = {| shr_m := m / 2; shr_r := Z.odd m; shr_s := r || s |}.
Proof.
  intros Hm. destruct m as [|p|p]; [reflexivity| |lia].
  destruct p as [p|p|]; unfold shr_1.
  - f_equal. rewrite Pos2Z.inj_xI. 
    apply (Z.div_unique_pos _ _ _ 1); lia.
  - f_equal. rewrite Pos2Z.inj_xO.
    apply (Z.div_unique_pos _ _ _ 0); lia.
  - reflexivity.
Qed.

Lemma shr_iter (m : Z) (j : nat) :
  0 <= m ->
  let rec := Nat.iter j shr_1 {| shr_m := m; shr_r := false; shr_s := false |} in
  shr_m rec = m / 2 ^ Z.of_nat j /\
  (m mod 2 ^ Z.of_nat j = 0 -> shr_r rec = false /\ shr_s rec = false).
Proof.
  intros Hm. induction j as [|j IH]; cbv zeta.
  - simpl. rewrite Z.div_1_r. auto.
  - cbv zeta in IH. rewrite Nat.iter_succ.
    destruct (Nat.iter j shr_1 _) as [mj rj sj] eqn:Hrec.
    simpl in IH. destruct IH as [IHm IHz].
    assert (Hmj : 0 <= mj) by (subst mj; apply Z.div_pos; lia).
    rewrite shr_1_spec by exact Hmj. simpl shr_m. simpl shr_r. simpl shr_s.
    rewrite Nat2Z.inj_succ, Z.pow_succ_r by lia.
    split.
    + subst mj. rewrite Z.div_div by lia. f_equal. lia.
    + intros Hz.
      assert (Hdiv : m mod 2 ^ Z.of_nat j = 0).
      { apply Z.mod_divide in Hz; [|lia]. apply Z.mod_divide; [lia|].
        destruct Hz as [c Hc]. exists (c * 2). lia. }
      destruct (IHz Hdiv) as [-> ->]. split; [|reflexivity].
      subst mj. apply Z.mod_divide in Hz; [|lia]. destruct Hz as [c Hc].
      rewrite Hc. replace (c * (2 * 2 ^ Z.of_nat j)) with ((c * 2) * 2 ^ Z.of_nat j) by lia.
      rewrite Z.div_mul by lia. rewrite Z.odd_mul. simpl. apply andb_false_r.
Qed.

(** [shr] by [k] digits: the quotient by [2^k], exact when the remainder
    is zero. *)
Lemma shr_spec (m e k : Z) :
  0 <= m -> 0 <= k ->
  let '(rec, e') := shr {| shr_m := m; shr_r := false; shr_s := false |} e k in
  e' = e + k /\ shr_m rec = m / 2 ^ k /\
  (m mod 2 ^ k = 0 -> shr_r rec = false /\ shr_s rec = false).
Proof.
  intros Hm Hk. unfold shr. destruct k as [|p|p]; [| |lia].
  - simpl. rewrite Z.div_1_r. split; [lia|]. auto.
  - rewrite iter_pos_nat.
    pose proof (shr_iter m (Pos.to_nat p) Hm) as H. cbv zeta in H.
    rewrite positive_nat_Z in H. split; [reflexivity | exact H].
Qed.

Lemma fexp_eq (x : Z) : fexp prec emax x = Z.max (x - 53) (-1074).
Proof. reflexivity. Qed.

Lemma round_nearest_even_range (n : Z) (l : location) :
  n <= round_nearest_even n l <= n + 1.
Proof.
  unfold round_nearest_even. destruct l as [|[| |]]; try lia.
  destruct (Z.even n); lia.
Qed.

Lemma Zdigits2_pos (n : Z) (d : Z) :
  0 < n -> n < 2 ^ d -> 0 <= d -> Zdigits2 n <= d.
Proof.
  intros Hn Hd H0. destruct n as [|p|p]; try lia. simpl.
  pose proof (digits2_bounds p) as [Hlo _].
  destruct (Z_le_dec (Z.pos (digits2_pos p)) d) as [?|Hgt]; [assumption|].
  assert (2 ^ d <= 2 ^ (Z.pos (digits2_pos p) - 1)) by (apply Z.pow_le_mono_r; lia).
  lia.
Qed.

(** The rounded mantissa and exponent of [binary_round_aux] on an exact
    positive input whose exponent is at most the canonical one. *)
Lemma bra_spec (s : bool) (m : positive) (e : Z) :
  let E := fexp prec emax (Z.pos (digits2_pos m) + e) in
  let n := Z.pos m / 2 ^ (E - e) in
  e <= E ->
  exists n',
    n <= n' <= n + 1 /\ (Z.pos m mod 2 ^ (E - e) = 0 -> n' = n) /\
    n < 2 ^ 53 /\ (-1074 < E -> 2 ^ 52 <= n) /\
    binary_round_aux prec emax s (Z.pos m) e loc_Exact =
      if n' =? 0 then S754_zero s
      else if n' <? 2 ^ 53
           then (if E <=? 971 then S754_finite s (Z.to_pos n') E
                 else S754_infinity s)
           else (if E + 1 <=? 971 then S754_finite s (Z.to_pos (2 ^ 52)) (E + 1)
                 else S754_infinity s).
Proof.
  intros E n HE.
  pose proof (digits2_bounds m) as [Hlo Hhi].
  set (d := Z.pos (digits2_pos m)) in *.
  assert (HEeq : E = Z.max (d + e - 53) (-1074)) by reflexivity.
  assert (Hk : 0 <= E - e) by lia.
  assert (Hp : 0 < 2 ^ (E - e)) by (apply Z.pow_pos_nonneg; lia).
  assert (Hn0 : 0 <= n) by (apply Z.div_pos; lia).
  assert (Hn53 : n < 2 ^ 53).
  { apply Z.div_lt_upper_bound; [exact Hp|].
    rewrite <- Z.pow_add_r by lia.
    assert (2 ^ d <= 2 ^ (E - e + 53)) by (apply Z.pow_le_mono_r; lia). lia. }
  assert (Hn52 : -1074 < E -> 2 ^ 52 <= n).
  { intros HEn. assert (HEd : E = d + e - 53) by lia.
    apply Z.div_le_lower_bound; [exact Hp|].
    rewrite <- Z.pow_add_r by lia.
    replace (E - e + 52) with (d - 1) by lia. exact Hlo. }
  unfold binary_round_aux, shr_fexp.
  change (Zdigits2 (Z.pos m)) with d.
  change (fexp prec emax (d + e)) with E.
  change (shr_record_of_loc (Z.pos m) loc_Exact)
    with {| shr_m := Z.pos m; shr_r := false; shr_s := false |}.
  pose proof (shr_spec (Z.pos m) e (E - e) ltac:(lia) Hk) as Hshr.
  destruct (shr _ e (E - e)) as [mrs' e'].
  destruct Hshr as (He' & Hm' & Hexact).
  fold n in Hm'.
  set (n' := round_nearest_even (shr_m mrs') (loc_of_shr_record mrs')).
  assert (Hn' : n <= n' <= n + 1).
  { unfold n'. rewrite Hm'. apply round_nearest_even_range. }
  assert (Hex' : Z.pos m mod 2 ^ (E - e) = 0 -> n' = n).
  { intros Hz. destruct (Hexact Hz) as [Hr Hs]. unfold n'.
    destruct mrs' as [mm rr ss]. simpl in *. subst rr ss mm. reflexivity. }
  exists n'. split; [exact Hn'|]. split; [exact Hex'|].
  split; [exact Hn53|]. split; [exact Hn52|].
  replace e' with E by lia.
  change (shr_record_of_loc n' loc_Exact)
    with {| shr_m := n'; shr_r := false; shr_s := false |}.
  rewrite fexp_eq.
  destruct (Z.eq_dec n' 0) as [Hz|Hnz].
  - rewrite Hz. simpl Zdigits2.
    replace (n' =? 0) with true by (symmetry; apply Z.eqb_eq; exact Hz).
    unfold shr.
    destruct (Z.max (0 + E - 53) (-1074) - E) eqn:Hs; try lia; reflexivity.
  - replace (n' =? 0) with false by (symmetry; apply Z.eqb_neq; exact Hnz).
    assert (Hn'pos : 0 < n') by lia.
    destruct (Z_lt_dec n' (2 ^ 53)) as [Hlt|Hge].
    + replace (n' <? 2 ^ 53) with true by (symmetry; apply Z.ltb_lt; exact Hlt).
      pose proof (Zdigits2_pos n' 53 Hn'pos Hlt ltac:(lia)) as Hd'.
      assert (Hshift : Z.max (Zdigits2 n' + E - 53) (-1074) - E <= 0) by lia.
      unfold shr.
      destruct (Z.max (Zdigits2 n' + E - 53) (-1074) - E) eqn:Hs; try lia;
        simpl shr_m; destruct n' as [|q|q]; try lia; simpl Z.to_pos;
        reflexivity.
    + replace (n' <? 2 ^ 53) with false by (symmetry; apply Z.ltb_ge; lia).
      assert (Hn'eq : n' = 2 ^ 53) by lia.
      rewrite Hn'eq.
      change (Zdigits2 (2 ^ 53)) with 54.
      replace (Z.max (54 + E - 53) (-1074) - E) with 1 by lia.
      unfold shr. simpl SpecFloat.iter_pos. 
      change (shr_m (shr_1 {| shr_m := 2 ^ 53; shr_r := false; shr_s := false |}))
        with (2 ^ 52).
      change (2 ^ 52) with (Z.pos (Z.to_pos (2 ^ 52))) at 1.
      cbv iota. reflexivity.
Qed.

(** Powers of two as rationals. *)

Lemma pow2_pos e : (0 < pow2 e)%Q.
Proof. apply Qpower_0_lt. reflexivity. Qed.

Lemma pow2_add a b : (pow2 (a + b) == pow2 a * pow2 b)%Q.
Proof. apply Qpower_plus. discriminate. Qed.

Lemma pow2_Z k : 0 <= k -> (inject_Z (2 ^ k) == pow2 k)%Q.
Proof. intros Hk. unfold pow2. now rewrite Zpower_Qpower. Qed.

Lemma pow2_le a b : a <= b -> (pow2 a <= pow2 b)%Q.
Proof. intros H. apply Qpower_le_compat_l; [exact H | discriminate]. Qed.

Lemma inject_Z_nonneg (r : Z) : 0 <= r -> (0 <= inject_Z r)%Q.
Proof. intros H. change 0%Q with (inject_Z 0). now rewrite <- Zle_Qle. Qed.

Lemma inject_Z_le (a b : Z) : a <= b -> (inject_Z a <= inject_Z b)%Q.
Proof. intros H. now rewrite <- Zle_Qle. Qed.

Lemma inject_Z_lt (a b : Z) : a < b -> (inject_Z a < inject_Z b)%Q.
Proof. intros H. now rewrite <- Zlt_Qlt. Qed.

(** [m / 2^k] shifted back brackets [m]. *)
Lemma scaled_floor (m : Z) (e k : Z) :
  0 <= m -> 0 <= k ->
  (inject_Z (m / 2 ^ k) * pow2 (e + k) <= inject_Z m * pow2 e)%Q /\
  (inject_Z m * pow2 e < (inject_Z (m / 2 ^ k) + 1) * pow2 (e + k))%Q /\
  (m mod 2 ^ k = 0 ->
   (inject_Z m * pow2 e == inject_Z (m / 2 ^ k) * pow2 (e + k))%Q).
Proof.
  intros Hm Hk.
  assert (Hp : 0 < 2 ^ k) by (apply Z.pow_pos_nonneg; lia).
  pose proof (Z.div_mod m (2 ^ k) ltac:(lia)) as Hdm.
  pose proof (Z.mod_pos_bound m (2 ^ k) Hp) as Hr.
  set (n := m / 2 ^ k) in *. set (r := m mod 2 ^ k) in *.
  assert (Hmq : (inject_Z m == inject_Z n * pow2 k + inject_Z r)%Q).
  { rewrite <- pow2_Z by exact Hk. rewrite <- inject_Z_mult, <- inject_Z_plus.
    rewrite Hdm at 1. now rewrite Z.mul_comm. }
  assert (Hrq : (0 <= inject_Z r)%Q) by (apply inject_Z_nonneg; lia).
  assert (Hrq' : (inject_Z r < pow2 k)%Q).
  { rewrite <- pow2_Z by exact Hk. apply inject_Z_lt. lia. }
  pose proof (pow2_pos e) as He. pose proof (pow2_pos k) as Hkq.
  rewrite pow2_add, Hmq.
  set (N := inject_Z n) in *. set (R := inject_Z r) in *.
  set (pe := pow2 e) in *. set (pk := pow2 k) in *.
  split; [nra|]. split; [nra|].
  intros Hz. assert (HR : (R == 0)%Q) by (unfold R; now rewrite Hz).
  rewrite HR. ring.
Qed.

(** Valid finite floats: the exponent is the canonical one. *)

Lemma valid_finite (s : bool) (m : positive) (e : Z) :
  valid_binary (S754_finite s m e) = true <->
  Z.max (Z.pos (digits2_pos m) + e - 53) (-1074) = e /\ e <= 971.
Proof.
  unfold SpecFloat.valid_binary, SpecFloat.bounded, canonical_mantissa.
  rewrite andb_true_iff, Z.eqb_eq, Z.leb_le, fexp_eq. reflexivity.
Qed.

Lemma valid_finite_bounds (s : bool) (m : positive) (e : Z) :
  valid_binary (S754_finite s m e) = true ->
  -1074 <= e <= 971 /\ Z.pos m < 2 ^ 53 /\ (-1074 < e -> 2 ^ 52 <= Z.pos m).
Proof.
  intros H. apply valid_finite in H as [Hc He].
  pose proof (digits2_bounds m) as [Hlo Hhi].
  set (d := Z.pos (digits2_pos m)) in *.
  assert (Hd : d <= 53) by lia.
  split; [lia|]. split.
  - assert (2 ^ d <= 2 ^ 53) by (apply Z.pow_le_mono_r; lia). lia.
  - intros Hn. assert (d = 53) by lia. subst d.
    replace (2 ^ 52) with (2 ^ (Z.pos (digits2_pos m) - 1)); [exact Hlo|].
    f_equal. lia.
Qed.

Lemma valid_of_mantissa (s : bool) (n E : Z) :
  0 < n < 2 ^ 53 -> -1074 <= E <= 971 -> (-1074 < E -> 2 ^ 52 <= n) ->
  valid_binary (S754_finite s (Z.to_pos n) E) = true.
Proof.
  intros Hn HE Hnorm. apply valid_finite. split; [|lia].
  assert (Hpos : Z.pos (Z.to_pos n) = n) by (apply Z2Pos.id; lia).
  pose proof (digits2_bounds (Z.to_pos n)) as [Hlo Hhi]. rewrite Hpos in *.
  set (d := Z.pos (digits2_pos (Z.to_pos n))) in *.
  assert (Hd : d <= 53).
  { destruct (Z_le_dec d 53); [assumption|].
    assert (2 ^ 53 <= 2 ^ (d - 1)) by (apply Z.pow_le_mono_r; lia). lia. }
  destruct (Z.eq_dec E (-1074)) as [->|Hne]; [lia|].
  assert (2 ^ 52 <= n) by (apply Hnorm; lia).
  assert (d = 53).
  { destruct (Z_le_dec d 52); [|lia].
    assert (2 ^ d <= 2 ^ 52) by (apply Z.pow_le_mono_r; lia). lia. }
  lia.
Qed.

(** The rounding of an exact positive value, as an error model. *)

Lemma bra_model (s : bool) (m : positive) (e : Z) :
  e <= fexp prec emax (Z.pos (digits2_pos m) + e) ->
  let v := (inject_Z (Z.pos m) * pow2 e)%Q in
  match binary_round_aux prec emax s (Z.pos m) e loc_Exact with
  | S754_zero s' => s' = s /\ (v <= eta)%Q
  | S754_finite s' m' e' =>
      s' = s /\ valid_binary (S754_finite s' m' e') = true /\
      (v - (eps * v + eta) <= inject_Z (Z.pos m') * pow2 e')%Q /\
      (inject_Z (Z.pos m') * pow2 e' <= v + (eps * v + eta))%Q
  | S754_infinity s' => s' = s /\ (pow2 1023 <= v)%Q
  | S754_nan => False
  end.
Proof.
  intros HE v.
  destruct (bra_spec s m e HE) as (n' & Hn' & Hexact & Hn53 & Hn52 & ->).
  set (E := fexp prec emax (Z.pos (digits2_pos m) + e)) in *.
  set (n := Z.pos m / 2 ^ (E - e)) in *.
  assert (HEmin : -1074 <= E) by (unfold E; rewrite fexp_eq; lia).
  destruct (scaled_floor (Z.pos m) e (E - e) ltac:(lia) ltac:(lia))
    as (Hlo & Hhi & _).
  fold n in Hlo, Hhi. replace (e + (E - e)) with E in Hlo, Hhi by lia.
  fold v in Hlo, Hhi.
  assert (Hn0 : 0 <= n) by (apply Z.div_pos; [lia | apply Z.pow_pos_nonneg; lia]).
  pose proof (pow2_pos E) as HpE.
  (* the size of one unit in the last place *)
  assert (Hulp : (pow2 E <= eps * v + eta)%Q).
  { assert (Hv0 : (0 <= v)%Q).
    { unfold v. apply Qmult_le_0_compat; [apply inject_Z_nonneg; lia|].
      apply Qlt_le_weak, pow2_pos. }
    pose proof (pow2_pos (-52)) as Heps. fold eps in Heps.
    destruct (Z.eq_dec E (-1074)) as [HEq|HNe].
    - rewrite HEq. fold eta. nra.
    - assert (H52 : 2 ^ 52 <= n) by (apply Hn52; lia).
      assert (Hq : (pow2 52 <= inject_Z n)%Q).
      { rewrite <- pow2_Z by lia. now apply inject_Z_le. }
      assert (Hone : (eps * pow2 52 == 1)%Q).
      { unfold eps. rewrite <- pow2_add. reflexivity. }
      pose proof (pow2_pos (-1074)) as Heta. fold eta in Heta.
      set (N := inject_Z n) in *. set (p52 := pow2 52) in *.
      set (pE := pow2 E) in *.
      assert (pE == eps * p52 * pE)%Q by (rewrite Hone; ring).
      assert (eps * (p52 * pE) <= eps * (N * pE))%Q.
      { apply Qmult_le_l; [exact Heps|]. apply Qmult_le_r; assumption. }
      nra. }
  assert (Hval : (inject_Z n' * pow2 E <= v + (eps * v + eta))%Q /\
                 (v - (eps * v + eta) <= inject_Z n' * pow2 E)%Q).
  { assert (Hq1 : (inject_Z n <= inject_Z n')%Q) by (apply inject_Z_le; lia).
    assert (Hq2 : (inject_Z n' <= inject_Z n + 1)%Q).
    { change 1%Q with (inject_Z 1). rewrite <- inject_Z_plus.
      apply inject_Z_le. lia. }
    set (N := inject_Z n) in *. set (N' := inject_Z n') in *.
    set (pE := pow2 E) in *. split; nra. }
  destruct (n' =? 0) eqn:Hz.
  { apply Z.eqb_eq in Hz. split; [reflexivity|].
    assert (n = 0) by lia.
    assert (HEq : E = -1074).
    { destruct (Z.eq_dec E (-1074)); [assumption|].
      assert (2 ^ 52 <= n) by (apply Hn52; lia). lia. }
    rewrite H in Hhi. change (inject_Z 0) with 0%Q in Hhi.
    rewrite HEq in Hhi. fold eta in Hhi. lra. }
  apply Z.eqb_neq in Hz.
  destruct (n' <? 2 ^ 53) eqn:Hlt.
  - apply Z.ltb_lt in Hlt.
    destruct (E <=? 971) eqn:HE971.
    + apply Z.leb_le in HE971. split; [reflexivity|].
      split.
      { apply valid_of_mantissa; [lia | lia |].
        intros Hnorm. pose proof (Hn52 Hnorm). lia. }
      rewrite Z2Pos.id by lia. destruct Hval. split; assumption.
    + apply Z.leb_gt in HE971. split; [reflexivity|].
      assert (H52 : 2 ^ 52 <= n) by (apply Hn52; lia).
      assert (Hq : (pow2 52 <= inject_Z n)%Q).
      { rewrite <- pow2_Z by lia. now apply inject_Z_le. }
      assert (HpE' : (pow2 971 <= pow2 E)%Q) by (apply pow2_le; lia).
      assert (H1023 : (pow2 1023 == pow2 52 * pow2 971)%Q)
        by (rewrite <- pow2_add; reflexivity).
      rewrite H1023.
      pose proof (pow2_pos 52). pose proof (pow2_pos 971).
      set (N := inject_Z n) in *. 
      apply Qle_trans with (N * pow2 E)%Q; [|exact Hlo].
      apply Qle_trans with (pow2 52 * pow2 E)%Q.
      * apply Qmult_le_l; assumption.
      * apply Qmult_le_r; assumption.
  - apply Z.ltb_ge in Hlt. assert (Hn'eq : n' = 2 ^ 53) by lia.
    assert (Hsame : (inject_Z (Z.pos (Z.to_pos (2 ^ 52))) * pow2 (E + 1)
                     == inject_Z n' * pow2 E)%Q).
    { rewrite Hn'eq. rewrite pow2_add.
      change (inject_Z (Z.pos (Z.to_pos (2 ^ 52)))) with (inject_Z (2 ^ 52)).
      rewrite !pow2_Z by lia.
      assert (pow2 53 == pow2 52 * pow2 1)%Q by (rewrite <- pow2_add; reflexivity).
      rewrite H. ring. }
    destruct (E + 1 <=? 971) eqn:HE971.
    + apply Z.leb_le in HE971. split; [reflexivity|].
      split.
      { apply valid_of_mantissa; [split; reflexivity | lia |].
        intros _. reflexivity. }
      rewrite Hsame. destruct Hval. split; assumption.
    + apply Z.leb_gt in HE971. split; [reflexivity|].
      assert (H52 : 2 ^ 52 <= n) by lia.
      assert (Hq : (pow2 52 <= inject_Z n)%Q).
      { rewrite <- pow2_Z by lia. now apply inject_Z_le. }
      assert (HpE' : (pow2 971 <= pow2 E)%Q) by (apply pow2_le; lia).
      assert (H1023 : (pow2 1023 == pow2 52 * pow2 971)%Q)
        by (rewrite <- pow2_add; reflexivity).
      rewrite H1023.
      pose proof (pow2_pos 52). pose proof (pow2_pos 971).
      set (N := inject_Z n) in *.
      apply Qle_trans with (N * pow2 E)%Q; [|exact Hlo].
      apply Qle_trans with (pow2 52 * pow2 E)%Q.
      * apply Qmult_le_l; assumption.
      * apply Qmult_le_r; assumption.
Qed.

(** Alignment of mantissas: the value is unchanged. *)

Lemma iter_xO_value (m d : positive) :
  Z.pos (Pos.iter xO m d) = Z.pos m * 2 ^ Z.pos d.
Proof.
  induction d as [|d IH] using Pos.peano_ind.
  - simpl. lia.
  - rewrite Pos.iter_succ, Pos2Z.inj_succ, Z.pow_succ_r by lia.
    rewrite Pos2Z.inj_xO, IH. lia.
Qed.

Lemma shl_align_spec (m : positive) (e e' : Z) :
  exists m', shl_align m e e' = (m', Z.min e e') /\
             Z.pos m' = Z.pos m * 2 ^ (e - Z.min e e').
Proof.
  unfold shl_align. destruct (e' - e) as [|d|d] eqn:Hd.
  - exists m. replace (Z.min e e') with e by lia.
    rewrite Z.sub_diag. split; [reflexivity | simpl; lia].
  - exists m. replace (Z.min e e') with e by lia.
    rewrite Z.sub_diag. split; [reflexivity | simpl; lia].
  - exists (Pos.iter xO m d). replace (Z.min e e') with e' by lia.
    split; [reflexivity|]. rewrite iter_xO_value. f_equal. f_equal. lia.
Qed.

Lemma digits2_shift (m m' : positive) (k : Z) :
  0 <= k -> Z.pos m' = Z.pos m * 2 ^ k ->
  Z.pos (digits2_pos m') = Z.pos (digits2_pos m) + k.
Proof.
  intros Hk Hm. apply digits2_unique. rewrite Hm.
  pose proof (digits2_bounds m) as [Hlo Hhi].
  set (d := Z.pos (digits2_pos m)) in *.
  assert (Hd : 1 <= d) by (unfold d; lia).
  assert (Hp : 0 < 2 ^ k) by (apply Z.pow_pos_nonneg; lia).
  replace (d + k - 1) with ((d - 1) + k) by lia.
  rewrite !Z.pow_add_r by lia. split; nia.
Qed.

Lemma shifted_value (m m' : positive) (e e' : Z) :
  e' <= e -> Z.pos m' = Z.pos m * 2 ^ (e - e') ->
  (inject_Z (Z.pos m') * pow2 e' == inject_Z (Z.pos m) * pow2 e)%Q.
Proof.
  intros He Hm. rewrite Hm, inject_Z_mult, pow2_Z by lia.
  replace e with ((e - e') + e') at 2 by lia. rewrite pow2_add. ring.
Qed.

Lemma rounds_ext (s : bool) (v v' : Q) (r : spec_float) :
  (v == v')%Q -> rounds s v r -> rounds s v' r.
Proof.
  intros Hv. destruct r as [s'|s'| |s' m' e']; cbn [rounds].
  - intros [H1 H2]. split; [exact H1|]. rewrite <- Hv. exact H2.
  - intros [H1 H2]. split; [exact H1|]. rewrite <- Hv. exact H2.
  - intros H. exact H.
  - intros (H1 & H2 & H3 & H4). split; [exact H1|]. split; [exact H2|].
    split; rewrite <- Hv; assumption.
Qed.

(** [binary_round], which the sum and the difference go through: a
    rounding of the exact value, whatever the exponent. *)
Lemma binary_round_model (s : bool) (m : positive) (e : Z) :
  rounds s (inject_Z (Z.pos m) * pow2 e) (binary_round prec emax s m e).
Proof.
  unfold binary_round.
  set (E := fexp prec emax (Z.pos (digits2_pos m) + e)).
  destruct (shl_align_spec m e E) as (m' & -> & Hm').
  assert (Hk : 0 <= e - Z.min e E) by lia.
  pose proof (digits2_shift m m' _ Hk Hm') as Hd.
  apply rounds_ext with (inject_Z (Z.pos m') * pow2 (Z.min e E))%Q.
  { apply shifted_value; [lia | exact Hm']. }
  apply (bra_model s m' (Z.min e E)).
  replace (Z.pos (digits2_pos m') + Z.min e E)
    with (Z.pos (digits2_pos m) + e) by lia.
  fold E. lia.
Qed.

(** *** The coarse bounds *)

Lemma near_ext (v v' r : Q) : (v == v')%Q -> near v r -> near v' r.
Proof. unfold near. intros Hv H. rewrite <- Hv. exact H. Qed.

Lemma xrounds_ext (v v' : Q) (r : xval) :
  (v == v')%Q -> xrounds v r -> xrounds v' r.
Proof.
  intros Hv. destruct r as [|[|]|r]; cbn [xrounds].
  - intros H. exact H.
  - intros H. rewrite <- Hv. exact H.
  - intros H. rewrite <- Hv. exact H.
  - now apply near_ext.
Qed.

Lemma eps_small : (0 < eps /\ eps <= 1 # 1000)%Q.
Proof.
  split; [apply pow2_pos|]. unfold eps, pow2, Qle. vm_compute. discriminate.
Qed.

Lemma eta_small : (0 < eta /\ eta <= 1 # 1000)%Q.
Proof.
  split; [apply pow2_pos|]. unfold eta, pow2, Qle. vm_compute. discriminate.
Qed.

Lemma big_large : (1000 <= big)%Q.
Proof. unfold big, pow2, Qle. vm_compute. discriminate. Qed.

(** A valid finite float is positive in magnitude and below [2^1024]. *)
Lemma valid_below_overflow (s : bool) (m : positive) (e : Z) :
  valid_binary (S754_finite s m e) = true ->
  (0 < inject_Z (Z.pos m) * pow2 e /\ inject_Z (Z.pos m) * pow2 e < 2 * big)%Q.
Proof.
  intros Hv. apply valid_finite_bounds in Hv as (He & Hm & _).
  pose proof (pow2_pos e) as Hpe.
  assert (H1 : (0 < inject_Z (Z.pos m))%Q).
  { change 0%Q with (inject_Z 0). apply inject_Z_lt. lia. }
  assert (H2 : (inject_Z (Z.pos m) < pow2 53)%Q).
  { rewrite <- pow2_Z by lia. now apply inject_Z_lt. }
  assert (H3 : (pow2 e <= pow2 971)%Q) by (apply pow2_le; lia).
  assert (H4 : (pow2 53 * pow2 971 == 2 * big)%Q).
  { unfold big. rewrite <- pow2_add. unfold pow2.
    change (53 + 971) with (1 + 1023). rewrite Qpower_plus by discriminate.
    reflexivity. }
  pose proof (pow2_pos 53) as H53. pose proof (pow2_pos 971) as H971.
  split; [apply Qmult_lt_0_compat; assumption|].
  rewrite <- H4.
  apply Qlt_le_trans with (pow2 53 * pow2 e)%Q.
  - apply Qmult_lt_r; assumption.
  - apply Qmult_le_l; assumption.
Qed.

Lemma SFval_bounds (x : spec_float) :
  valid_binary x = true -> (- (2 * big) < SFval x /\ SFval x < 2 * big)%Q.
Proof.
  pose proof big_large as Hb.
  destruct x as [s|s| |s m e]; cbn [SFval]; intros Hv; try (split; lra).
  apply valid_below_overflow in Hv as [H0 H1].
  destruct s; split; lra.
Qed.

Lemma SFval_sign (s : bool) (m : positive) (e : Z) :
  (if s then SFval (S754_finite s m e) < 0
   else 0 < SFval (S754_finite s m e))%Q.
Proof.
  pose proof (pow2_pos e) as Hpe.
  assert (H1 : (0 < inject_Z (Z.pos m))%Q).
  { change 0%Q with (inject_Z 0). apply inject_Z_lt. lia. }
  assert (0 < inject_Z (Z.pos m) * pow2 e)%Q
    by (apply Qmult_lt_0_compat; assumption).
  destruct s; cbn [SFval]; lra.
Qed.

Lemma near_exact (q : Q) : (- (2 * big) < q /\ q < 2 * big)%Q -> near q q.
Proof. unfold near. intros [H1 H2]. repeat split; try assumption; lra. Qed.

(** A rounding of a positive magnitude, read on the signed values. *)
Lemma rounds_view (s : bool) (v : Q) (r : spec_float) :
  (0 < v)%Q -> rounds s v r ->
  xrounds (if s then - v else v)%Q (SFview r).
Proof.
  intros Hv Hr. pose proof eps_small as [He0 He]. pose proof eta_small as [Ht0 Ht].
  pose proof big_large as Hb.
  destruct r as [s'|s'| |s' m' e']; cbn [rounds SFview xrounds SFval] in *.
  - destruct Hr as [_ Hr]. unfold near. destruct s; repeat split; intros; lra.
  - destruct Hr as [-> Hr]. fold big in Hr. destruct s; lra.
  - exact Hr.
  - destruct Hr as (-> & Hval & Hlo & Hhi).
    apply valid_below_overflow in Hval as [HM0 HM].
    set (M := (inject_Z (Z.pos m') * pow2 e')%Q) in *.
    assert (Hev : (0 <= eps * v /\ eps * v <= (1 # 1000) * v)%Q).
    { split; [apply Qmult_le_0_compat; lra|].
      apply Qmult_le_r; [exact Hv | exact He]. }
    destruct Hev as [Hev0 Hev1]. set (ev := (eps * v)%Q) in *.
    unfold near. destruct s; repeat split; intros; lra.
Qed.

(** *** The operations of the format, on values *)

(** The product of two valid mantissas has its exponent at most the
    canonical one, as [binary_round_aux] expects. *)
Lemma mul_precond (sx sy : bool) (mx my : positive) (ex ey : Z) :
  valid_binary (S754_finite sx mx ex) = true ->
  valid_binary (S754_finite sy my ey) = true ->
  ex + ey <= fexp prec emax (Z.pos (digits2_pos (mx * my)) + (ex + ey)).
Proof.
  intros Hx Hy. apply valid_finite in Hx as [Hx _]. apply valid_finite in Hy as [Hy _].
  rewrite fexp_eq.
  pose proof (digits2_bounds mx) as [Hxl Hxh].
  pose proof (digits2_bounds my) as [Hyl Hyh].
  pose proof (digits2_bounds (mx * my)) as [Hl Hh].
  set (dx := Z.pos (digits2_pos mx)) in *. set (dy := Z.pos (digits2_pos my)) in *.
  set (d := Z.pos (digits2_pos (mx * my))) in *.
  assert (Hdx : 1 <= dx) by (unfold dx; lia).
  assert (Hdy : 1 <= dy) by (unfold dy; lia).
  assert (Hd : dx + dy - 1 <= d).
  { destruct (Z_le_dec (dx + dy - 1) d) as [?|Hn]; [assumption|].
    assert (Hp : 2 ^ d <= 2 ^ (dx + dy - 2)) by (apply Z.pow_le_mono_r; lia).
    replace (dx + dy - 2) with ((dx - 1) + (dy - 1)) in Hp by lia.
    rewrite Z.pow_add_r in Hp by lia.
    rewrite Pos2Z.inj_mul in Hh.
    assert (0 < 2 ^ (dx - 1)) by (apply Z.pow_pos_nonneg; lia).
    assert (0 < 2 ^ (dy - 1)) by (apply Z.pow_pos_nonneg; lia).
    nia. }
  lia.
Qed.

(** The product of the format, on values. *)
Lemma SFmul_model (x y : spec_float) :
  valid_binary x = true -> valid_binary y = true ->
  mul_rel (SFview x) (SFview y) (SFview (SFmul prec emax x y)).
Proof.
  intros Hx Hy. pose proof big_large as Hb.
  destruct x as [sx|sx| |sx mx ex], y as [sy|sy| |sy my ey];
    cbn [SFmul SFview mul_rel SFval]; try reflexivity.
  - apply near_ext with 0%Q; [ring | apply near_exact; lra].
  - repeat split; intros; try lra; reflexivity.
  - apply near_ext with 0%Q; [ring | apply near_exact; lra].
  - repeat split; intros; try lra; reflexivity.
  - pose proof (SFval_sign sy my ey) as Hs. cbn [SFval] in Hs.
    destruct sy; repeat split; intros; try lra; destruct sx; reflexivity.
  - apply near_ext with 0%Q; [ring | apply near_exact; lra].
  - pose proof (SFval_sign sx mx ex) as Hs. cbn [SFval] in Hs.
    destruct sx; repeat split; intros; try lra; destruct sy; reflexivity.
  - pose proof (bra_model (xorb sx sy) (mx * my) (ex + ey)
                  (mul_precond sx sy mx my ex ey Hx Hy)) as Hr.
    cbv zeta in Hr.
    apply valid_below_overflow in Hx as [Hx0 _].
    apply valid_below_overflow in Hy as [Hy0 _].
    assert (Hv : (inject_Z (Z.pos (mx * my)) * pow2 (ex + ey) ==
                  (inject_Z (Z.pos mx) * pow2 ex) * (inject_Z (Z.pos my) * pow2 ey))%Q).
    { rewrite Pos2Z.inj_mul, inject_Z_mult, pow2_add. ring. }
    change (rounds (xorb sx sy) (inject_Z (Z.pos (mx * my)) * pow2 (ex + ey))
              (binary_round_aux prec emax (xorb sx sy) (Z.pos (mx * my))
                 (ex + ey) loc_Exact)) in Hr.
    apply rounds_view in Hr.
    2:{ rewrite Hv. apply Qmult_lt_0_compat; assumption. }
    eapply xrounds_ext; [|exact Hr].
    destruct sx, sy; cbn [xorb]; rewrite Hv; ring.
Qed.

Lemma binary_normalize_model (z e : Z) (sz : bool) :
  xrounds (inject_Z z * pow2 e) (SFview (binary_normalize prec emax z e sz)).
Proof.
  pose proof big_large as Hb. pose proof (pow2_pos e) as Hpe.
  destruct z as [|p|p]; cbn [binary_normalize].
  - cbn [SFview SFval xrounds].
    apply near_ext with 0%Q; [|apply near_exact; lra].
    change (inject_Z 0) with 0%Q. ring.
  - apply (rounds_view false); [|apply binary_round_model].
    apply Qmult_lt_0_compat; [|exact Hpe].
    change 0%Q with (inject_Z 0). apply inject_Z_lt. lia.
  - apply xrounds_ext with (- (inject_Z (Z.pos p) * pow2 e))%Q.
    { change (Z.neg p) with (- Z.pos p). rewrite inject_Z_opp. ring. }
    apply (rounds_view true); [|apply binary_round_model].
    apply Qmult_lt_0_compat; [|exact Hpe].
    change 0%Q with (inject_Z 0). apply inject_Z_lt. lia.
Qed.

Lemma aligned_value (s : bool) (m : positive) (e ez : Z) :
  ez <= e ->
  (inject_Z (cond_Zopp s (Z.pos (fst (shl_align m e ez)))) * pow2 ez ==
   SFval (S754_finite s m e))%Q.
Proof.
  intros He. destruct (shl_align_spec m e ez) as (m' & Heq & Hm').
  rewrite Heq. cbn [fst SFval]. replace (Z.min e ez) with ez in Hm' by lia.
  pose proof (shifted_value m m' e ez He Hm') as Hv.
  destruct s; cbn [cond_Zopp].
  - rewrite inject_Z_opp, <- Hv. ring.
  - exact Hv.
Qed.

(** The sum of the format, on values. *)
Lemma SFadd_model (x y : spec_float) :
  valid_binary x = true -> valid_binary y = true ->
  add_rel (SFview x) (SFview y) (SFview (SFadd prec emax x y)).
Proof.
  intros Hx Hy. pose proof big_large as Hb.
  pose proof (SFval_bounds x Hx) as Hbx. pose proof (SFval_bounds y Hy) as Hby.
  destruct x as [sx|sx| |sx mx ex], y as [sy|sy| |sy my ey];
    cbn [SFadd SFview add_rel]; try reflexivity.
  - destruct sx, sy; cbn [SFview SFval xrounds];
      (apply near_ext with 0%Q; [ring | apply near_exact; lra]).
  - cbn [xrounds]. eapply near_ext; [|apply near_exact; exact Hby].
    cbn [SFval]. ring.
  - destruct sx, sy; reflexivity.
  - cbn [xrounds]. eapply near_ext; [|apply near_exact; exact Hbx].
    cbn [SFval]. ring.
  - eapply xrounds_ext; [|apply binary_normalize_model].
    rewrite inject_Z_plus, Qmult_plus_distr_l.
    rewrite !aligned_value by lia. reflexivity.
Qed.

(** The difference of the format, on values. *)
Lemma SFsub_model (x y : spec_float) :
  valid_binary x = true -> valid_binary y = true ->
  sub_rel (SFview x) (SFview y) (SFview (SFsub prec emax x y)).
Proof.
  intros Hx Hy. pose proof big_large as Hb.
  pose proof (SFval_bounds x Hx) as Hbx. pose proof (SFval_bounds y Hy) as Hby.
  destruct x as [sx|sx| |sx mx ex], y as [sy|sy| |sy my ey];
    cbn [SFsub SFview sub_rel]; try reflexivity.
  - destruct sx, sy; cbn [SFview SFval xrounds];
      (apply near_ext with 0%Q; [ring | apply near_exact; lra]).
  - cbn [xrounds]. cbn [SFval] in *.
    destruct sy; cbn [negb].
    + eapply near_ext; [|apply near_exact]; [ring | lra].
    + eapply near_ext; [|apply near_exact]; [|lra]. ring.
  - destruct sx, sy; reflexivity.
  - cbn [xrounds]. eapply near_ext; [|apply near_exact; exact Hbx].
    cbn [SFval]. ring.
  - eapply xrounds_ext; [|apply binary_normalize_model].
    unfold Z.sub. rewrite inject_Z_plus, inject_Z_opp.
    unfold Qminus. rewrite Qmult_plus_distr_l.
    rewrite <- (aligned_value sx mx ex (Z.min ex ey)) by lia.
    rewrite <- (aligned_value sy my ey (Z.min ex ey)) by lia.
    ring.
Qed.

(** *** Comparison *)

(** Valid floats of the same sign are ordered as their exponents, then
    as their mantissas. *)
Lemma valid_order (s1 s2 : bool) (m1 m2 : positive) (e1 e2 : Z) :
  valid_binary (S754_finite s1 m1 e1) = true ->
  valid_binary (S754_finite s2 m2 e2) = true ->
  e1 < e2 ->
  (inject_Z (Z.pos m1) * pow2 e1 < inject_Z (Z.pos m2) * pow2 e2)%Q.
Proof.
  intros H1 H2 He.
  apply valid_finite_bounds in H1 as (He1 & Hm1 & _).
  apply valid_finite_bounds in H2 as (He2 & _ & Hm2).
  assert (H52 : 2 ^ 52 <= Z.pos m2) by (apply Hm2; lia).
  pose proof (pow2_pos e1) as Hp1. pose proof (pow2_pos e2) as Hp2.
  assert (Hq1 : (inject_Z (Z.pos m1) < pow2 53)%Q).
  { rewrite <- pow2_Z by lia. now apply inject_Z_lt. }
  assert (Hq2 : (pow2 52 <= inject_Z (Z.pos m2))%Q).
  { rewrite <- pow2_Z by lia. now apply inject_Z_le. }
  assert (Hq3 : (pow2 53 * pow2 e1 <= pow2 52 * pow2 e2)%Q).
  { rewrite <- !pow2_add. apply pow2_le. lia. }
  apply Qlt_le_trans with (pow2 53 * pow2 e1)%Q.
  - apply Qmult_lt_r; assumption.
  - apply Qle_trans with (pow2 52 * pow2 e2)%Q; [exact Hq3|].
    apply Qmult_le_r; assumption.
Qed.

Lemma same_exponent_order (m1 m2 : positive) (e : Z) :
  (m1 < m2)%positive ->
  (inject_Z (Z.pos m1) * pow2 e < inject_Z (Z.pos m2) * pow2 e)%Q.
Proof.
  intros Hm. apply Qmult_lt_r; [apply pow2_pos|]. apply inject_Z_lt. lia.
Qed.

(** A comparison that is true, on values. *)
Lemma SFltb_model (x y : spec_float) :
  valid_binary x = true -> valid_binary y = true ->
  SFltb x y = true -> lt_rel (SFview x) (SFview y).
Proof.
  intros Hx Hy. unfold SFltb.
  destruct x as [sx|sx| |sx mx ex], y as [sy|sy| |sy my ey];
    cbn [SFcompare SFview lt_rel];
    try (pose proof (SFval_sign sx mx ex) as Hsx);
    try (pose proof (SFval_sign sy my ey) as Hsy);
    try destruct sx; try destruct sy; try discriminate;
    try (intros _; exact I); cbn [SFval] in *; try (intros _; lra).
  - destruct (Z.compare_spec ex ey) as [He|He|He]; try discriminate.
    + subst ey. change (PosDef.Pos.compare_cont Eq mx my) with (Pos.compare mx my).
      destruct (Pos.compare_spec mx my) as [Hm|Hm|Hm]; try discriminate.
      intros _. pose proof (same_exponent_order my mx ex Hm). lra.
    + intros _. pose proof (valid_order _ _ _ _ _ _ Hy Hx He). lra.
  - destruct (Z.compare_spec ex ey) as [He|He|He]; try discriminate.
    + subst ey. change (PosDef.Pos.compare_cont Eq mx my) with (Pos.compare mx my).
      destruct (Pos.compare_spec mx my) as [Hm|Hm|Hm]; try discriminate.
      intros _. exact (same_exponent_order mx my ex Hm).
    + intros _. exact (valid_order _ _ _ _ _ _ Hx Hy He).
Qed.

Section RoundedTests.

Local Open Scope Q_scope.

(** *** The three tests

    What the coarse bounds give for a square, for a non-negative value
    and in general. *)
Lemma near_square (p r : Q) :
  near (p * p) r ->
  0 <= r /\ (999 # 1000) * (p * p) - (1 # 1000) <= r /\
  r <= (1001 # 1000) * (p * p) + (1 # 1000) /\ r < 2 * big.
Proof.
  intros (H1 & _ & _ & H3). assert (H0 : 0 <= p * p) by nra.
  destruct (H1 H0) as (Ha & Hb & Hc). repeat split; assumption.
Qed.

Lemma near_nonneg (v r : Q) :
  0 <= v -> near v r ->
  0 <= r /\ (999 # 1000) * v - (1 # 1000) <= r /\
  r <= (1001 # 1000) * v + (1 # 1000) /\ r < 2 * big.
Proof.
  intros H0 (H1 & _ & _ & H3).
  destruct (H1 H0) as (Ha & Hb & Hc). repeat split; assumption.
Qed.

Lemma near_abs (v r : Q) :
  near v r ->
  (0 <= v /\ 0 <= r /\ (999 # 1000) * v - (1 # 1000) <= r /\
     r <= (1001 # 1000) * v + (1 # 1000)) \/
  (v <= 0 /\ r <= 0 /\ (1001 # 1000) * v - (1 # 1000) <= r /\
     r <= (999 # 1000) * v + (1 # 1000)).
Proof.
  intros (H1 & H2 & _). destruct (Qlt_le_dec v 0) as [Hv|Hv].
  - right. assert (Hv' : v <= 0) by lra. destruct (H2 Hv') as (Ha & Hb & Hc).
    repeat split; assumption.
  - left. destruct (H1 Hv) as (Ha & Hb & Hc). repeat split; assumption.
Qed.

(** The bound [c * y] rounded, times [y]. *)
Lemma near_quarter_prod (c y h : Q) :
  c == 1 # 4 -> near (c * y) h ->
  0 <= h * y /\ h * y <= (252 # 1000) * (y * y) + (1 # 1000).
Proof.
  intros Hc H.
  apply (near_ext _ ((1 # 4) * y)) in H; [|rewrite Hc; reflexivity].
  apply near_abs in H.
  destruct H as [(Hv & Hh & Hlo & Hhi)|(Hv & Hh & Hlo & Hhi)].
  - assert (Hy : 0 <= y) by lra. split; [nra|].
    assert (h <= (251 # 1000) * y + (1 # 1000)) by lra.
    assert (h * y <= ((251 # 1000) * y + (1 # 1000)) * y) by nra.
    nra.
  - assert (Hy : y <= 0) by lra. split; [nra|].
    assert ((251 # 1000) * y - (1 # 1000) <= h) by lra.
    assert (h * y <= ((251 # 1000) * y - (1 # 1000)) * y) by nra.
    nra.
Qed.

(** A comparison with NaN, or with an infinity on the wrong side, is
    false. *)
Lemma lt_rel_nan_l (b : xval) : lt_rel XNaN b -> False.
Proof. destruct b as [|[|]|]; exact (fun H => H). Qed.

Lemma lt_rel_pinf_l (b : xval) : lt_rel (XInf false) b -> False.
Proof. destruct b as [|[|]|]; exact (fun H => H). Qed.

Lemma lt_rel_nan_r (a : xval) : lt_rel a XNaN -> False.
Proof. destruct a as [|[|]|]; exact (fun H => H). Qed.

Lemma lt_rel_ninf_r (a : xval) : lt_rel a (XInf true) -> False.
Proof. destruct a as [|[|]|]; exact (fun H => H). Qed.

(** One operation of a test: the result [r] of the relation [H] is
    determined (an infinity or NaN), or a case is made of what it is. *)
Ltac xstep H r n :=
  cbn [mul_rel add_rel sub_rel xorb negb Bool.eqb] in H;
  first [ subst r
        | destruct r as [|[|]|n]; cbn [xrounds] in H; try contradiction ].

Ltac xdone :=
  cbn [lt_rel] in *;
  try contradiction;
  try (exfalso; eauto using lt_rel_nan_l, lt_rel_pinf_l, lt_rel_nan_r, lt_rel_ninf_r; fail).

Ltac sq H := apply near_square in H; destruct H as (? & ? & ? & ?).

(** Where the exterior test [4.0 < cx * cx + cy * cy] is true, the point
    is outside the circle, up to the margin. *)
Lemma outside_xval (vx vy vX vY vS : xval) (c4 : Q) :
  c4 == 4 ->
  mul_rel vx vx vX -> mul_rel vy vy vY -> add_rel vX vY vS ->
  lt_rel (XFin c4) vS -> exterior vx vy.
Proof.
  intros H4 HX HY HS Hout. pose proof big_large as Hbig.
  destruct vx as [|[|]|x], vy as [|[|]|y]; cbn [exterior]; try exact I;
    xstep HX vX qX; xstep HY vY qY; try (sq HX); try (sq HY);
    xstep HS vS qS; xdone; try lra.
  apply near_nonneg in HS; [|lra]. lra.
Qed.

(** Outside the circle, the sum of the bulb test, as rounded, is at least
    a tenth. *)
Lemma bulb_core (x y qY qb qB2 c1 : Q) :
  c1 == 1 -> 398 # 100 <= x * x + y * y ->
  near (y * y) qY -> near (x + c1) qb -> near (qb * qb) qB2 ->
  1 # 10 <= qB2 + qY.
Proof.
  intros H1 Hext HY Hb HB2. sq HY. sq HB2.
  apply (near_ext _ (x + 1)) in Hb; [|rewrite H1; reflexivity].
  destruct (Qlt_le_dec (qB2 + qY) (1 # 10)) as [Hlt|Hge]; [exfalso|exact Hge].
  assert (Hb2 : qb * qb <= 102 # 1000) by lra.
  assert (Hy2 : y * y <= 102 # 1000) by lra.
  assert (Hbb : - (32 # 100) <= qb /\ qb <= 32 # 100) by (split; nra).
  apply near_abs in Hb.
  assert (Hx : - (133 # 100) <= x /\ x <= - (67 # 100))
    by (destruct Hb as [Hb|Hb]; split; lra).
  assert (Hx2 : x * x <= 18 # 10) by nra.
  lra.
Qed.

(** Outside the circle the bulb test
    [(cx + 1) * (cx + 1) + cy * cy < 0.0625] is not true. *)
Lemma bulb_xval (vx vy vY vb vB2 vB : xval) (c1 c16 : Q) :
  c1 == 1 -> c16 == 1 # 16 ->
  exterior vx vy -> mul_rel vy vy vY ->
  add_rel vx (XFin c1) vb -> mul_rel vb vb vB2 -> add_rel vB2 vY vB ->
  lt_rel vB (XFin c16) -> False.
Proof.
  intros H1 H16 Hext HY Hb HB2 HB Hin. pose proof big_large as Hbig.
  destruct vx as [|[|]|x], vy as [|[|]|y]; cbn [exterior] in Hext;
    try contradiction;
    xstep HY vY qY; xstep Hb vb qb; xstep HB2 vB2 qB2;
    xstep HB vB qB; xdone;
    try (pose proof (bulb_core _ _ _ _ _ _ H1 Hext HY Hb HB2) as Hcore);
    try (sq HB2); try (sq HY); try (exfalso; nra);
    try (apply near_nonneg in HB; [|lra]); try (exfalso; lra).
Qed.

(** Outside the circle, the [q] of the cardioid test and [q + (cx - 0.25)],
    as rounded. *)
Lemma cardioid_core (x y a qA2 qY q c : Q) :
  c == 1 # 4 -> 398 # 100 <= x * x + y * y ->
  near (x - c) a -> near (a * a) qA2 -> near (y * y) qY ->
  near (qA2 + qY) q ->
  1 <= q /\ 6 # 5 <= q + a /\ (99 # 100) * (y * y) - (1 # 100) <= q.
Proof.
  intros Hc Hext Ha HA2 HY Hq. sq HA2. sq HY.
  apply near_nonneg in Hq; [|lra]. destruct Hq as (Hq0 & Hq1 & Hq2 & Hq3).
  apply (near_ext _ (x - (1 # 4))) in Ha; [|rewrite Hc; reflexivity].
  assert (Hqq : (998 # 1000) * (a * a + y * y) - (3 # 1000) <= q) by lra.
  assert (Ha2 : 0 <= a * a) by nra. assert (Hy2 : 0 <= y * y) by nra.
  assert (Hthird : (99 # 100) * (y * y) - (1 # 100) <= q) by lra.
  apply near_abs in Ha.
  destruct Ha as [(Hu & Ha0 & Hlo & Hhi)|(Hu & Ha0 & Hlo & Hhi)].
  - destruct (Qlt_le_dec (14 # 10) x) as [Hx|Hx].
    + assert (114 # 100 <= a) by lra.
      assert (129 # 100 <= a * a) by nra.
      repeat split; lra.
    + assert (x * x <= 196 # 100) by nra.
      repeat split; lra.
  - destruct (Qlt_le_dec x (- 2)) as [Hx|Hx].
    + assert (a <= - (224 # 100)) by lra.
      assert (0 <= a * (a + (224 # 100))) by nra.
      assert (6 # 5 <= q + a) by lra.
      repeat split; lra.
    + assert (Hd : - (4 # 1000) <= a - (x - (1 # 4)) /\
                   a - (x - (1 # 4)) <= 4 # 1000) by (split; lra).
      assert (Hs : - (46 # 10) <= a + (x - (1 # 4)) /\
                   a + (x - (1 # 4)) <= 0) by (split; lra).
      assert (Hp : - (2 # 100) <= (a - (x - (1 # 4))) * (a + (x - (1 # 4))))
        by nra.
      assert (6 # 5 <= q + a) by nra.
      repeat split; lra.
Qed.

Ltac xmulinf H r :=
  lazymatch type of H with
  | _ /\ _ /\ _ =>
      let H1 := fresh in let H2 := fresh in let H3 := fresh in
      destruct H as (H1 & H2 & H3);
      first [ specialize (H2 ltac:(lra)); subst r
            | specialize (H3 ltac:(lra)); subst r
            | specialize (H1 ltac:(lra)); subst r ]
  end.

Ltac xstep' H r n :=
  cbn [mul_rel add_rel sub_rel xorb negb Bool.eqb] in H;
  first [ subst r
        | xmulinf H r
        | destruct r as [|[|]|n]; cbn [xrounds] in H; try contradiction ].

(** Outside the circle the cardioid test
    [q * (q + (cx - 0.25)) < 0.25 * cy * cy] is not true: the left side
    is at least [1.19 * q], an infinity or NaN, the right side about
    [0.25 * cy^2 <= 0.26 * q], and if the right side overflows so does the
    left. *)
Lemma cardioid_xval (vx vy vY va vA2 vq vt vL vh vR : xval) (c : Q) :
  c == 1 # 4 ->
  exterior vx vy -> mul_rel vy vy vY ->
  sub_rel vx (XFin c) va -> mul_rel va va vA2 -> add_rel vA2 vY vq ->
  add_rel vq va vt -> mul_rel vq vt vL ->
  mul_rel (XFin c) vy vh -> mul_rel vh vy vR ->
  lt_rel vL vR -> False.
Proof.
  intros Hc Hext HY Ha HA2 Hq Ht HL Hh HR Hin. pose proof big_large as Hbig.
  destruct vx as [|[|]|x], vy as [|[|]|y]; cbn [exterior] in Hext;
    try contradiction;
    xstep HY vY qY; xstep Ha va qa; xstep HA2 vA2 qA2;
    xstep Hq vq qq;
    try (pose proof (cardioid_core _ _ _ _ _ _ _ Hc Hext Ha HA2 HY Hq)
           as (Hq1 & Hqa & Hqy));
    xstep Ht vt qt; try (exfalso; lra);
    try (apply near_nonneg in Ht; [|lra]; destruct Ht as (Ht0 & Ht1 & Ht2 & Ht3));
    xstep' HL vL qL; xdone; try (exfalso; nra).
  (* all the numbers are finite *)
  assert (HqL : (119 # 100) * qq <= qq * qt) by nra.
  apply near_nonneg in HL; [|lra]. destruct HL as (HL0 & HL1 & HL2 & HL3).
  sq HY. assert (Hy2 : 0 <= y * y) by nra.
  xstep Hh vh qh.
  - rewrite Hc in Hh. exfalso.
    assert (Hy : y <= - (4 * big)) by lra.
    assert (4000 * (4 * big) <= y * y) by nra.
    lra.
  - rewrite Hc in Hh. exfalso.
    assert (Hy : 4 * big <= y) by lra.
    assert (4000 * (4 * big) <= y * y) by nra.
    lra.
  - apply (near_quarter_prod c y qh Hc) in Hh. destruct Hh as [Hw0 Hw1].
    xstep HR vR qR; cbn [lt_rel] in Hin; try contradiction; try lra.
    apply near_nonneg in HR; [|exact Hw0]. lra.
Qed.

(** The operations of [Binary64], on values. *)
Lemma fmul_model (a b : float) :
  mul_rel (float_view a) (float_view b) (float_view (a * b)).
Proof.
  unfold float_view. rewrite FloatAxioms.mul_spec. apply SFmul_model; apply Prim2SF_valid.
Qed.

Lemma fadd_model (a b : float) :
  add_rel (float_view a) (float_view b) (float_view (a + b)).
Proof.
  unfold float_view. rewrite FloatAxioms.add_spec. apply SFadd_model; apply Prim2SF_valid.
Qed.

Lemma fsub_model (a b : float) :
  sub_rel (float_view a) (float_view b) (float_view (a - b)).
Proof.
  unfold float_view. rewrite FloatAxioms.sub_spec. apply SFsub_model; apply Prim2SF_valid.
Qed.

Lemma fltb_model (a b : float) :
  (a <? b)%float = true -> lt_rel (float_view a) (float_view b).
Proof.
  unfold float_view. rewrite FloatAxioms.ltb_spec. apply SFltb_model; apply Prim2SF_valid.
Qed.

(** The constants of the three tests. *)
Lemma float_view_4 : exists c, float_view 4.0 = XFin c /\ (c == 4)%Q.
Proof. eexists. split; [reflexivity | vm_compute; reflexivity]. Qed.

Lemma float_view_1 : exists c, float_view 1 = XFin c /\ (c == 1)%Q.
Proof. eexists. split; [reflexivity | vm_compute; reflexivity]. Qed.

Lemma float_view_quarter : exists c, float_view 0.25 = XFin c /\ (c == 1 # 4)%Q.
Proof. eexists. split; [reflexivity | vm_compute; reflexivity]. Qed.

Lemma float_view_sixteenth : exists c, float_view 0.0625 = XFin c /\ (c == 1 # 16)%Q.
Proof. eexists. split; [reflexivity | vm_compute; reflexivity]. Qed.

(** For all doubles, infinities and NaN included: where the exterior
    test of [mandelbrotEscape] fires, the cardioid test and the bulb test
    evaluated before it do not. *)
Lemma outside_not_captured (cx cy : float) :
  Binary64.outside cx cy = true ->
  Binary64.in_cardioid cx cy = false /\ Binary64.in_bulb cx cy = false.
Proof.
  intros Hout. unfold Binary64.outside in Hout. apply fltb_model in Hout.
  destruct float_view_4 as (c4 & E4 & H4). rewrite E4 in Hout.
  pose proof (outside_xval _ _ _ _ _ c4 H4 (fmul_model cx cx)
                (fmul_model cy cy) (fadd_model _ _) Hout) as Hext.
  split.
  - destruct (Binary64.in_cardioid cx cy) eqn:Hin; [exfalso|reflexivity].
    unfold Binary64.in_cardioid in Hin. cbv zeta in Hin.
    apply fltb_model in Hin.
    destruct float_view_quarter as (c & Ec & Hc).
    pose proof (fsub_model cx 0.25) as Ha. rewrite Ec in Ha.
    pose proof (fmul_model 0.25 cy) as Hh. rewrite Ec in Hh.
    exact (cardioid_xval _ _ _ _ _ _ _ _ _ _ c Hc Hext (fmul_model cy cy) Ha
             (fmul_model _ _) (fadd_model _ _) (fadd_model _ _)
             (fmul_model _ _) Hh (fmul_model _ _) Hin).
  - destruct (Binary64.in_bulb cx cy) eqn:Hin; [exfalso|reflexivity].
    unfold Binary64.in_bulb in Hin. apply fltb_model in Hin.
    destruct float_view_1 as (c1 & E1 & H1).
    destruct float_view_sixteenth as (c16 & E16 & H16). rewrite E16 in Hin.
    pose proof (fadd_model cx 1) as Hb. rewrite E1 in Hb.
    exact (bulb_xval _ _ _ _ _ _ c1 c16 H1 H16 Hext (fmul_model cy cy) Hb
             (fmul_model _ _) (fadd_model _ _) Hin).
Qed.

End RoundedTests.

(** ** The escape-time evaluator on binary64 *)

(** *** The loop, one round at a time *)

Lemma double_escape_loop_round cx cy zx zy n max_iter :
  Binary64.escape_loop cx cy zx zy n max_iter =
  if PrimFloat.leb (zx * zx + zy * zy) 4.0 && (n + 1 <? max_iter)
  then Binary64.escape_loop cx cy (zx * zx - zy * zy + cx) (2 * zx * zy + cy)
         (n + 1) max_iter
  else n + 1.
Proof.
  rewrite Binary64.escape_loop_equation_1. cbv zeta.
  destruct (PrimFloat.leb _ _); simpl; [|reflexivity].
  destruct (Z_lt_dec _ _) as [H|H].
  - apply Z.ltb_lt in H. now rewrite H.
  - apply Z.ltb_nlt in H. now rewrite H.
Qed.

Lemma double_escape_loop_rounds_ind (cx cy : float) (max_iter : Z)
    (P : float -> float -> Z -> Prop) :
  (forall zx zy n,
     (PrimFloat.leb (zx * zx + zy * zy) 4.0 = true -> n + 1 < max_iter ->
      P (zx * zx - zy * zy + cx)%float (2 * zx * zy + cy)%float (n + 1)) ->
     P zx zy n) ->
  forall zx zy n, P zx zy n.
Proof.
  intros step zx zy n.
  remember (Z.to_nat (max_iter - n)) as k eqn:Hk.
  revert zx zy n Hk.
  induction k as [k IH] using lt_wf_ind.
  intros zx zy n Hk. apply step. intros _ Hlt.
  apply (IH (Z.to_nat (max_iter - (n + 1)))); [lia | reflexivity].
Qed.

Lemma double_escape_loop_bounds cx cy zx zy n max_iter :
  n + 1 <= Binary64.escape_loop cx cy zx zy n max_iter <= Z.max (n + 1) max_iter.
Proof.
  revert zx zy n.
  apply (double_escape_loop_rounds_ind cx cy max_iter
           (fun zx zy n =>
              n + 1 <= Binary64.escape_loop cx cy zx zy n max_iter
                    <= Z.max (n + 1) max_iter)).
  intros zx zy n IH. rewrite double_escape_loop_round.
  destruct (PrimFloat.leb _ _) eqn:Hle; simpl; [|lia].
  destruct (n + 1 <? max_iter) eqn:Hlt; [|lia].
  apply Z.ltb_lt in Hlt. specialize (IH eq_refl Hlt). lia.
Qed.

(** *** The loop and the computed orbit *)

Lemma double_escaped_false z :
  Binary64.escaped z = false <->
  PrimFloat.leb (fst z * fst z + snd z * snd z) 4.0 = true.
Proof. unfold Binary64.escaped. apply negb_false_iff. Qed.

Lemma double_escaped_true z :
  Binary64.escaped z = true <->
  PrimFloat.leb (fst z * fst z + snd z * snd z) 4.0 = false.
Proof. unfold Binary64.escaped. apply negb_true_iff. Qed.

(** From [z_k] with [n = k], the loop runs on through every index whose
    iterate passes the test, as long as the cap allows. *)
Lemma double_escape_loop_advance cx cy max_iter (d k : nat) :
  (forall j, (k <= j < k + d)%nat ->
     Binary64.escaped (Binary64.orbit cx cy j) = false) ->
  Z.of_nat (k + d) < max_iter ->
  Binary64.escape_loop cx cy
    (fst (Binary64.orbit cx cy k)) (snd (Binary64.orbit cx cy k))
    (Z.of_nat k) max_iter =
  Binary64.escape_loop cx cy
    (fst (Binary64.orbit cx cy (k + d))) (snd (Binary64.orbit cx cy (k + d)))
    (Z.of_nat (k + d)) max_iter.
Proof.
  revert k. induction d as [|d IH]; intros k Hin Hlt.
  - now rewrite Nat.add_0_r.
  - rewrite double_escape_loop_round.
    assert (Hk : Binary64.escaped (Binary64.orbit cx cy k) = false)
      by (apply Hin; lia).
    apply double_escaped_false in Hk. rewrite Hk.
    assert (Hn : (Z.of_nat k + 1 <? max_iter) = true) by (apply Z.ltb_lt; lia).
    rewrite Hn. simpl andb. cbv iota.
    replace (Z.of_nat k + 1) with (Z.of_nat (S k)) by lia.
    replace (k + S d)%nat with (S k + d)%nat by lia.
    rewrite <- (IH (S k)); [reflexivity | intros j Hj; apply Hin; lia | lia].
Qed.

(** At [z_k] with [n = k], the loop returns [k + 1] when the test fails at
    [z_k] or the cap is reached. *)
Lemma double_escape_loop_stop cx cy max_iter (k : nat) :
  Binary64.escaped (Binary64.orbit cx cy k) = true \/
    max_iter <= Z.of_nat k + 1 ->
  Binary64.escape_loop cx cy
    (fst (Binary64.orbit cx cy k)) (snd (Binary64.orbit cx cy k))
    (Z.of_nat k) max_iter = Z.of_nat k + 1.
Proof.
  intros H. rewrite double_escape_loop_round.
  destruct H as [H|H].
  - apply double_escaped_true in H. now rewrite H.
  - assert (Hn : (Z.of_nat k + 1 <? max_iter) = false) by (apply Z.ltb_ge; lia).
    rewrite Hn, andb_false_r. reflexivity.
Qed.

Lemma double_escape_loop_orbit cx cy max_iter (e : nat) :
  1 <= max_iter ->
  (forall j, (j < e)%nat -> Binary64.escaped (Binary64.orbit cx cy j) = false) ->
  Binary64.escaped (Binary64.orbit cx cy e) = true \/
    max_iter <= Z.of_nat e + 1 ->
  Z.of_nat e < max_iter ->
  Binary64.escape_loop cx cy 0 0 0 max_iter = Z.of_nat e + 1.
Proof.
  intros Hm Hbefore Hstop Hlt.
  change (Binary64.escape_loop cx cy 0 0 0 max_iter) with
    (Binary64.escape_loop cx cy
       (fst (Binary64.orbit cx cy 0)) (snd (Binary64.orbit cx cy 0))
       (Z.of_nat 0) max_iter).
  rewrite (double_escape_loop_advance cx cy max_iter e 0);
    [| intros j Hj; apply Hbefore; lia | simpl; lia].
  simpl Nat.add. now apply double_escape_loop_stop.
Qed.

Lemma double_escaped_orbit_0 cx cy :
  Binary64.escaped (Binary64.orbit cx cy 0) = false.
Proof. reflexivity. Qed.

(** C2, as the program has it.  On the iterative branch, with a cap of at
    least 1, the loop tests the squares it took before the latest update of
    [z]: when [k] is the first index, from 1 on, at which the computed
    iterate [z_k] fails the test [zx2 + zy2 <= 4.0], the result is
    [min (k + 1) max_iter], and when no computed iterate below the cap
    fails it the result is the cap. *)
Theorem mandelbrotEscape_double_iterative (cx cy : float) (max_iter : Z) :
  1 <= max_iter ->
  Binary64.iterative_branch cx cy ->
  (forall k, Binary64.first_escape cx cy k ->
     Binary64.mandelbrotEscape cx cy max_iter
     = Z.min (Z.of_nat k + 1) max_iter) /\
  ((forall j, Z.of_nat j < max_iter ->
      Binary64.escaped (Binary64.orbit cx cy j) = false) ->
     Binary64.mandelbrotEscape cx cy max_iter = max_iter).
Proof.
  intros Hm (Hc & Hb & Ho). unfold Binary64.mandelbrotEscape.
  rewrite Hc, Hb, Ho. split.
  - intros k (Hk1 & Hesc & Hfirst).
    assert (Hbefore : forall j, (j < k)%nat ->
              Binary64.escaped (Binary64.orbit cx cy j) = false).
    { intros [|j] Hj; [apply double_escaped_orbit_0 | apply Hfirst; lia]. }
    destruct (Z_lt_dec (Z.of_nat k) max_iter) as [Hlt|Hge].
    + rewrite (double_escape_loop_orbit cx cy max_iter k); auto. lia.
    + rewrite (double_escape_loop_orbit cx cy max_iter
                 (Z.to_nat (max_iter - 1)));
        [lia | lia | | right; lia | lia].
      intros j Hj. apply Hbefore. lia.
  - intros Hnone.
    rewrite (double_escape_loop_orbit cx cy max_iter (Z.to_nat (max_iter - 1)));
      [lia | lia | | right; lia | lia].
    intros j Hj. apply Hnone. lia.
Qed.

(** C2 as stated fails at [c = 1 + i], where every operation of the loop is
    exact in binary64: [z_1 = 1 + i], [z_2 = 1 + 3i] is the first iterate
    with [|z|^2 > 4.0], and the program returns 3, not 2. *)
Lemma mandelbrotEscape_double_not_first_escape :
  Binary64.iterative_branch 1 1 /\ Binary64.first_escape 1 1 2 /\
  Binary64.orbit 1 1 1 = (1, 1)%float /\
  Binary64.orbit 1 1 2 = (1, 3)%float /\
  Binary64.mandelbrotEscape 1 1 100 = 3 /\
  Binary64.mandelbrotEscape 1 1 100 <> Z.min (Z.of_nat 2) 100.
Proof.
  split; [repeat split; vm_compute; reflexivity|].
  split.
  { split; [lia|]. split; [vm_compute; reflexivity|].
    intros j Hj. assert (j = 1%nat) as -> by lia. vm_compute. reflexivity. }
  split; [vm_compute; reflexivity|].
  split; [vm_compute; reflexivity|].
  split; [vm_compute; reflexivity | vm_compute; discriminate].
Qed.

(** With rounding the first failing index is that of the computed orbit:
    at [c = 1 + 2^-30 i] the exact [z_2 = 1 + (2^-29 + 2^-30) i] has
    [|z_2|^2 > 4], but the rounded squares add up to 4.0, the test passes
    at [z_2] and fails at [z_3], and the program returns 4. *)
Lemma mandelbrotEscape_double_rounded_orbit :
  Binary64.iterative_branch 1 0x1p-30 /\
  Binary64.escaped (Binary64.orbit 1 0x1p-30 2) = false /\
  Binary64.first_escape 1 0x1p-30 3 /\
  Binary64.mandelbrotEscape 1 0x1p-30 100 = 4.
Proof.
  split; [repeat split; vm_compute; reflexivity|].
  split; [vm_compute; reflexivity|].
  split; [|vm_compute; reflexivity].
  split; [lia|]. split; [vm_compute; reflexivity|].
  intros j Hj.
  assert (j = 1%nat \/ j = 2%nat) as [-> | ->] by lia; vm_compute; reflexivity.
Qed.

(** C3, as the program has it.  With an iteration cap of at least 1, the
    result lies between 0 and the cap, and it is 0 exactly when the
    exterior test [cx * cx + cy * cy > 4.0], on the rounded sum of the
    rounded squares, fires: where it fires, the cardioid test and the bulb
    test before it, as rounded, do not (for all doubles, the infinities
    and NaN included), and where it does not, the shortcuts return the cap
    and the loop returns at least 1.  In exact arithmetic as well the
    cardioid and the bulb test fire only inside the disc
    [cx^2 + cy^2 <= 4]. *)
Theorem mandelbrotEscape_double_range (cx cy : float) (max_iter : Z) :
  1 <= max_iter ->
  0 <= Binary64.mandelbrotEscape cx cy max_iter <= max_iter /\
  (Binary64.mandelbrotEscape cx cy max_iter = 0 <->
   Binary64.outside cx cy = true) /\
  (Binary64.outside cx cy = true ->
   Binary64.in_cardioid cx cy = false /\ Binary64.in_bulb cx cy = false) /\
  (Binary64.iterative_branch cx cy ->
   1 <= Binary64.mandelbrotEscape cx cy max_iter) /\
  (forall qx qy : Q, (4.0 < qx * qx + qy * qy)%Q ->
     in_cardioid qx qy = false /\ in_bulb qx qy = false).
Proof.
  intros Hm.
  pose proof (double_escape_loop_bounds cx cy 0 0 0 max_iter) as Hl.
  pose proof (outside_not_captured cx cy) as Hnc.
  assert (Hexact : forall qx qy : Q, (4.0 < qx * qx + qy * qy)%Q ->
            in_cardioid qx qy = false /\ in_bulb qx qy = false).
  { intros qx qy Hout. split.
    - destruct (in_cardioid qx qy) eqn:Hc; [|reflexivity].
      apply cardioid_in_disc in Hc. exfalso; lra.
    - destruct (in_bulb qx qy) eqn:Hb; [|reflexivity].
      apply bulb_in_disc in Hb. exfalso; lra. }
  unfold Binary64.mandelbrotEscape, Binary64.iterative_branch.
  destruct (Binary64.outside cx cy) eqn:Hout.
  - destruct (Hnc eq_refl) as [-> ->].
    split; [lia|]. split; [split; reflexivity|].
    split; [intros _; split; reflexivity|].
    split; [intros (_ & _ & H); discriminate | exact Hexact].
  - clear Hnc.
    destruct (Binary64.in_cardioid cx cy).
    { split; [lia|]. split; [split; [lia | discriminate]|].
      split; [discriminate|].
      split; [intros (H & _); discriminate | exact Hexact]. }
    destruct (Binary64.in_bulb cx cy).
    { split; [lia|]. split; [split; [lia | discriminate]|].
      split; [discriminate|].
      split; [intros (_ & H & _); discriminate | exact Hexact]. }
    split; [lia|]. split; [split; [lia | discriminate]|].
    split; [discriminate|].
    split; [intros _; lia | exact Hexact].
Qed.

(** C3 as stated fails at [(2, 2^-30)]: [cx^2 + cy^2 = 4 + 2^-60 > 4], but
    the sum is rounded to 4.0, the exterior test does not fire, and the
    loop returns 3. *)
Lemma mandelbrotEscape_double_exterior_rounded :
  Binary64.value 2 = Some 2%Q /\
  Binary64.value 0x1p-30 = Some (1 # 1073741824)%Q /\
  (4.0 < 2 * 2 + (1 # 1073741824) * (1 # 1073741824))%Q /\
  (2 * 2 + 0x1p-30 * 0x1p-30 = 4)%float /\
  Binary64.outside 2 0x1p-30 = false /\
  Binary64.mandelbrotEscape 2 0x1p-30 100 = 3 /\
  Binary64.mandelbrotEscape 2 0x1p-30 100 <> 0.
Proof.
  split; [vm_compute; reflexivity|]. split; [vm_compute; reflexivity|].
  split; [reflexivity|]. split; [vm_compute; reflexivity|].
  split; [vm_compute; reflexivity|].
  split; [vm_compute; reflexivity | vm_compute; discriminate].
Qed.

(** The loop from the computed [z_k] with [n = k]: every iterate it went
    past passed the test, and a result below the cap comes from an iterate
    that failed it. *)
Lemma double_escape_loop_certificate cx cy max_iter zx zy n :
  forall k : nat,
    n = Z.of_nat k ->
    zx = fst (Binary64.orbit cx cy k) -> zy = snd (Binary64.orbit cx cy k) ->
    (forall j : nat, (k <= j)%nat ->
       Z.of_nat j < Binary64.escape_loop cx cy zx zy n max_iter - 1 ->
       Binary64.escaped (Binary64.orbit cx cy j) = false) /\
    (Binary64.escape_loop cx cy zx zy n max_iter < max_iter ->
     Binary64.escaped
       (Binary64.orbit cx cy
          (Z.to_nat (Binary64.escape_loop cx cy zx zy n max_iter - 1)))
     = true).
Proof.
  revert zx zy n.
  apply (double_escape_loop_rounds_ind cx cy max_iter
    (fun zx zy n => forall k : nat,
      n = Z.of_nat k ->
      zx = fst (Binary64.orbit cx cy k) -> zy = snd (Binary64.orbit cx cy k) ->
      (forall j : nat, (k <= j)%nat ->
         Z.of_nat j < Binary64.escape_loop cx cy zx zy n max_iter - 1 ->
         Binary64.escaped (Binary64.orbit cx cy j) = false) /\
      (Binary64.escape_loop cx cy zx zy n max_iter < max_iter ->
       Binary64.escaped
         (Binary64.orbit cx cy
            (Z.to_nat (Binary64.escape_loop cx cy zx zy n max_iter - 1)))
       = true))).
  intros zx zy n IH k Hn Hzx Hzy. rewrite double_escape_loop_round.
  destruct (PrimFloat.leb (zx * zx + zy * zy) 4.0) eqn:Hle; simpl.
  - destruct (n + 1 <? max_iter) eqn:Hlt.
    + apply Z.ltb_lt in Hlt.
      destruct (IH eq_refl Hlt (S k)) as [Hpast Hout].
      * lia.
      * simpl. now rewrite Hzx, Hzy.
      * simpl. now rewrite Hzx, Hzy.
      * split; [|exact Hout]. intros j Hj Hjr.
        destruct (decide (j = k)) as [->|Hne].
        -- apply double_escaped_false. now rewrite <- Hzx, <- Hzy.
        -- apply Hpast; [lia | exact Hjr].
    + apply Z.ltb_ge in Hlt. split; [intros j Hj Hjr; lia | lia].
  - split; [intros j Hj Hjr; lia|]. intros _.
    replace (Z.to_nat (n + 1 - 1)) with k by lia.
    apply double_escaped_true. now rewrite <- Hzx, <- Hzy.
Qed.

(** A count strictly between 0 and the cap is a certificate of escape of
    the computed orbit: the point reached the loop, the computed
    [z_(n-1)] failed the test [zx2 + zy2 <= 4.0] and the computed iterates
    before it passed it. *)
Theorem mandelbrotEscape_double_certificate (cx cy : float) (max_iter : Z) :
  0 < Binary64.mandelbrotEscape cx cy max_iter < max_iter ->
  Binary64.iterative_branch cx cy /\
  Binary64.escaped
    (Binary64.orbit cx cy
       (Z.to_nat (Binary64.mandelbrotEscape cx cy max_iter - 1))) = true /\
  forall j : nat,
    Z.of_nat j < Binary64.mandelbrotEscape cx cy max_iter - 1 ->
    Binary64.escaped (Binary64.orbit cx cy j) = false.
Proof.
  unfold Binary64.mandelbrotEscape, Binary64.iterative_branch.
  destruct (Binary64.in_cardioid cx cy); [lia|].
  destruct (Binary64.in_bulb cx cy); [lia|].
  destruct (Binary64.outside cx cy); [lia|].
  intros Hr.
  destruct (double_escape_loop_certificate cx cy max_iter 0 0 0 0%nat
              eq_refl eq_refl eq_refl) as [Hpast Hout].
  split; [auto|]. split; [apply Hout; lia|].
  intros j Hj. apply Hpast; [lia | exact Hj].
Qed.

(** *** NaN coordinates and the counts 1 and 2 *)

Lemma is_nan_view (f : float) :
  PrimFloat.is_nan f = true <-> float_view f = XNaN.
Proof.
  unfold float_view, Prim2SF. destruct (PrimFloat.is_nan f).
  - split; reflexivity.
  - split; [discriminate|].
    destruct (PrimFloat.is_zero f); [discriminate|].
    destruct (PrimFloat.is_infinity f); [discriminate|].
    destruct (FloatOps.Z.frexp f) as [r e].
    destruct (shr_fexp _ _ _ _ _) as [m e'].
    destruct (shr_m m); discriminate.
Qed.

Lemma SFview_nan (x : spec_float) : SFview x = XNaN -> x = S754_nan.
Proof. destruct x; try discriminate. reflexivity. Qed.

(** NaN goes through every operation, and a comparison with NaN is
    false. *)
Lemma fmul_nan (a b : float) :
  float_view a = XNaN \/ float_view b = XNaN -> float_view (a * b) = XNaN.
Proof.
  pose proof (fmul_model a b) as H. intros [Hn|Hn]; rewrite Hn in H.
  - exact H.
  - destruct (float_view a); exact H.
Qed.

Lemma fadd_nan (a b : float) :
  float_view a = XNaN \/ float_view b = XNaN -> float_view (a + b) = XNaN.
Proof.
  pose proof (fadd_model a b) as H. intros [Hn|Hn]; rewrite Hn in H.
  - exact H.
  - destruct (float_view a); exact H.
Qed.

Lemma fsub_nan (a b : float) :
  float_view a = XNaN \/ float_view b = XNaN -> float_view (a - b) = XNaN.
Proof.
  pose proof (fsub_model a b) as H. intros [Hn|Hn]; rewrite Hn in H.
  - exact H.
  - destruct (float_view a); exact H.
Qed.

Lemma fltb_nan (a b : float) :
  float_view a = XNaN \/ float_view b = XNaN -> (a <? b)%float = false.
Proof.
  intros Hn. destruct (a <? b)%float eqn:Hlt; [exfalso|reflexivity].
  apply fltb_model in Hlt. destruct Hn as [Hn|Hn]; rewrite Hn in Hlt.
  - exact Hlt.
  - destruct (float_view a) as [|[|]|]; exact Hlt.
Qed.

Lemma fleb_nan (a b : float) :
  float_view a = XNaN \/ float_view b = XNaN -> (a <=? b)%float = false.
Proof.
  unfold float_view. rewrite FloatAxioms.leb_spec. unfold SFleb.
  intros [Hn|Hn]; apply SFview_nan in Hn; rewrite Hn.
  - reflexivity.
  - destruct (Prim2SF a); reflexivity.
Qed.

(** The two orders of a comparison. *)
Lemma SFcompare_antisym (x y : spec_float) :
  SFcompare y x = option_map CompOpp (SFcompare x y).
Proof.
  destruct x as [sx|sx| |sx mx ex], y as [sy|sy| |sy my ey];
    cbn [SFcompare option_map]; try reflexivity;
    try (destruct sx; reflexivity); try (destruct sy; reflexivity);
    try (destruct sx, sy; reflexivity).
  destruct sx, sy; try reflexivity.
  - rewrite (Z.compare_antisym ex ey).
    destruct (ex ?= ey) eqn:He; cbn [CompOpp]; try reflexivity.
    change (PosDef.Pos.compare_cont Eq my mx) with (Pos.compare my mx).
    change (PosDef.Pos.compare_cont Eq mx my) with (Pos.compare mx my).
    rewrite (Pos.compare_antisym mx my). reflexivity.
  - rewrite (Z.compare_antisym ex ey).
    destruct (ex ?= ey) eqn:He; cbn [CompOpp]; try reflexivity.
    change (PosDef.Pos.compare_cont Eq my mx) with (Pos.compare my mx).
    change (PosDef.Pos.compare_cont Eq mx my) with (Pos.compare mx my).
    rewrite (Pos.compare_antisym mx my). reflexivity.
Qed.

(** Of two numbers, none of them NaN, one is above the other or at most
    the other. *)
Lemma fleb_of_not_fltb (a b : float) :
  float_view a <> XNaN -> float_view b <> XNaN ->
  (b <? a)%float = false -> (a <=? b)%float = true.
Proof.
  unfold float_view.
  rewrite FloatAxioms.ltb_spec, FloatAxioms.leb_spec. unfold SFltb, SFleb.
  rewrite (SFcompare_antisym (Prim2SF a) (Prim2SF b)).
  intros Ha Hb.
  destruct (SFcompare (Prim2SF a) (Prim2SF b)) as [[| |]|] eqn:Hc;
    cbn [option_map CompOpp]; try reflexivity; try discriminate.
  exfalso. destruct (Prim2SF a) as [sa|sa| |sa ma ea];
    [| |apply Ha; reflexivity|];
    (destruct (Prim2SF b) as [sb|sb| |sb mb eb];
       [| |apply Hb; reflexivity|]); cbn [SFcompare] in Hc; discriminate.
Qed.

(** The sum of the squares is NaN exactly on a NaN coordinate. *)
Lemma sum_squares_xval (vx vy vX vY vS : xval) :
  mul_rel vx vx vX -> mul_rel vy vy vY -> add_rel vX vY vS ->
  vS = XNaN -> vx = XNaN \/ vy = XNaN.
Proof.
  intros HX HY HS Hn. pose proof big_large as Hbig.
  destruct vx as [|[|]|x], vy as [|[|]|y]; auto;
    cbn [mul_rel xorb] in HX, HY; subst;
    try (destruct vX as [|[|]|qX]; cbn [xrounds] in HX; try contradiction);
    try (destruct vY as [|[|]|qY]; cbn [xrounds] in HY; try contradiction);
    cbn [add_rel Bool.eqb] in HS; try discriminate;
    try (exfalso; nra); try contradiction.
Qed.

Lemma sum_squares_nan (cx cy : float) :
  float_view (cx * cx + cy * cy) = XNaN <->
  float_view cx = XNaN \/ float_view cy = XNaN.
Proof.
  split.
  - apply (sum_squares_xval _ _ _ _ _ (fmul_model cx cx) (fmul_model cy cy)
             (fadd_model _ _)).
  - intros [H|H]; apply fadd_nan; [left|right]; apply fmul_nan; auto.
Qed.

(** After the first round of the loop, from [z = 0], the squares are those
    of the coordinates. *)
Lemma zero_plus_square (c : float) : ((0 + c) * (0 + c) = c * c)%float.
Proof.
  apply Prim2SF_inj.
  rewrite !FloatAxioms.mul_spec, !FloatAxioms.add_spec.
  change (Prim2SF 0) with (S754_zero false).
  destruct (Prim2SF c) as [[|]|[|]| |[|] m e]; reflexivity.
Qed.

Lemma first_round_squares (c : float) :
  ((0 * 0 - 0 * 0 + c) * (0 * 0 - 0 * 0 + c) = c * c)%float /\
  ((2 * 0 * 0 + c) * (2 * 0 * 0 + c) = c * c)%float.
Proof.
  change (0 * 0 - 0 * 0)%float with 0%float.
  change (2 * 0 * 0)%float with 0%float.
  split; apply zero_plus_square.
Qed.

(** The first two rounds of the loop: the second tests the sum of the
    squares of the coordinates, which the exterior test has read. *)
Lemma double_escape_loop_two_rounds (cx cy : float) (max_iter : Z) :
  3 <= max_iter ->
  Binary64.escape_loop cx cy 0 0 0 max_iter =
  if PrimFloat.leb (cx * cx + cy * cy) 4.0
  then Binary64.escape_loop cx cy
         ((0 * 0 - 0 * 0 + cx) * (0 * 0 - 0 * 0 + cx)
          - (2 * 0 * 0 + cy) * (2 * 0 * 0 + cy) + cx)%float
         (2 * (0 * 0 - 0 * 0 + cx) * (2 * 0 * 0 + cy) + cy)%float
         2 max_iter
  else 2.
Proof.
  intros Hm. rewrite double_escape_loop_round.
  change (PrimFloat.leb (0 * 0 + 0 * 0) 4.0) with true.
  assert (H1 : (0 + 1 <? max_iter) = true) by (apply Z.ltb_lt; lia).
  rewrite H1. cbn [andb]. rewrite double_escape_loop_round.
  destruct (first_round_squares cx) as [-> _].
  destruct (first_round_squares cy) as [_ ->].
  assert (H2 : (0 + 1 + 1 <? max_iter) = true) by (apply Z.ltb_lt; lia).
  rewrite H2, andb_true_r. reflexivity.
Qed.

Lemma mandelbrotEscape_double_bounds (cx cy : float) (max_iter : Z) :
  1 <= max_iter ->
  0 <= Binary64.mandelbrotEscape cx cy max_iter <= max_iter.
Proof.
  intros Hm.
  pose proof (double_escape_loop_bounds cx cy 0 0 0 max_iter) as Hl.
  unfold Binary64.mandelbrotEscape.
  destruct (Binary64.in_cardioid cx cy); [lia|].
  destruct (Binary64.in_bulb cx cy); [lia|].
  destruct (Binary64.outside cx cy); lia.
Qed.

(** On a NaN coordinate the three tests are false and the second round of
    the loop stops: the count is 2. *)
Lemma mandelbrotEscape_double_nan (cx cy : float) (max_iter : Z) :
  3 <= max_iter ->
  float_view cx = XNaN \/ float_view cy = XNaN ->
  Binary64.mandelbrotEscape cx cy max_iter = 2.
Proof.
  intros Hm Hn.
  assert (Hs : float_view (cx * cx + cy * cy) = XNaN)
    by (apply sum_squares_nan; exact Hn).
  assert (Hyy : float_view cx = XNaN \/ float_view (cy * cy) = XNaN).
  { destruct Hn as [H|H]; [left; exact H|right; apply fmul_nan; auto]. }
  unfold Binary64.mandelbrotEscape, Binary64.in_cardioid, Binary64.in_bulb,
    Binary64.outside. cbv zeta.
  rewrite fltb_nan.
  2:{ left. apply fmul_nan. left. apply fadd_nan.
      destruct Hyy as [H|H]; [left|right; exact H].
      apply fmul_nan. left. apply fsub_nan. left. exact H. }
  rewrite fltb_nan.
  2:{ left. apply fadd_nan.
      destruct Hyy as [H|H]; [left|right; exact H].
      apply fmul_nan. left. apply fadd_nan. left. exact H. }
  rewrite fltb_nan by (right; exact Hs).
  rewrite double_escape_loop_two_rounds by exact Hm.
  rewrite fleb_nan by (left; exact Hs). reflexivity.
Qed.

(** With a cap of at least 3: the count is 0, or 2, or between 3 and the
    cap, and it is 2 exactly on a NaN coordinate. *)
Lemma mandelbrotEscape_double_counts (cx cy : float) (max_iter : Z) :
  3 <= max_iter ->
  (Binary64.mandelbrotEscape cx cy max_iter = 0 \/
   Binary64.mandelbrotEscape cx cy max_iter = 2 \/
   3 <= Binary64.mandelbrotEscape cx cy max_iter <= max_iter) /\
  (Binary64.mandelbrotEscape cx cy max_iter = 2 <->
   PrimFloat.is_nan cx = true \/ PrimFloat.is_nan cy = true).
Proof.
  intros Hm. rewrite !is_nan_view.
  destruct (PrimFloat.is_nan cx) eqn:Hx.
  { apply is_nan_view in Hx.
    rewrite (mandelbrotEscape_double_nan cx cy max_iter Hm (or_introl Hx)).
    split; [right; left; reflexivity | split; auto]. }
  destruct (PrimFloat.is_nan cy) eqn:Hy.
  { apply is_nan_view in Hy.
    rewrite (mandelbrotEscape_double_nan cx cy max_iter Hm (or_intror Hy)).
    split; [right; left; reflexivity | split; auto]. }
  assert (Hx' : float_view cx <> XNaN).
  { intros H. apply is_nan_view in H. congruence. }
  assert (Hy' : float_view cy <> XNaN).
  { intros H. apply is_nan_view in H. congruence. }
  assert (Hs : float_view (cx * cx + cy * cy) <> XNaN).
  { intros H. apply sum_squares_nan in H. tauto. }
  assert (Hcases : Binary64.mandelbrotEscape cx cy max_iter = 0 \/
                   3 <= Binary64.mandelbrotEscape cx cy max_iter <= max_iter).
  { unfold Binary64.mandelbrotEscape.
    destruct (Binary64.in_cardioid cx cy); [right; lia|].
    destruct (Binary64.in_bulb cx cy); [right; lia|].
    destruct (Binary64.outside cx cy) eqn:Hout; [left; reflexivity|].
    right. rewrite double_escape_loop_two_rounds by exact Hm.
    unfold Binary64.outside in Hout.
    rewrite (fleb_of_not_fltb (cx * cx + cy * cy) 4.0 Hs); [|discriminate|exact Hout].
    match goal with |- _ <= Binary64.escape_loop ?a ?b ?c ?d ?e ?f <= _ =>
      pose proof (double_escape_loop_bounds a b c d e f) end.
    lia. }
  split; [destruct Hcases as [H|H]; [left; exact H | right; right; exact H]|].
  split; [intros H2; exfalso; lia | intros [H|H]; contradiction].
Qed.

(** X2: with a cap of at least 3 the program never returns 1, and it
    returns 2 exactly on a NaN coordinate: the result is 0, or 2, or
    between 3 and the cap.  The second round of the loop tests the sum of
    squares that the exterior test has read, so it fails only if that sum
    is NaN. *)
Theorem mandelbrotEscape_double_values (cx cy : float) (max_iter : Z) :
  3 <= max_iter ->
  (Binary64.mandelbrotEscape cx cy max_iter = 0 \/
   Binary64.mandelbrotEscape cx cy max_iter = 2 \/
   3 <= Binary64.mandelbrotEscape cx cy max_iter <= max_iter) /\
  Binary64.mandelbrotEscape cx cy max_iter <> 1 /\
  (Binary64.mandelbrotEscape cx cy max_iter = 2 <->
   PrimFloat.is_nan cx = true \/ PrimFloat.is_nan cy = true).
Proof.
  intros Hm.
  destruct (mandelbrotEscape_double_counts cx cy max_iter Hm) as [Hc Hn].
  split; [exact Hc|]. split; [lia | exact Hn].
Qed.

(** *** The colour of a pixel *)

(** [(int)(255.0 * n / MAX_ITER)] in [double], for every count below the
    cap: the quotient [255 * n / 100] of the integers. *)
Lemma hue_table (n : Z) :
  0 <= n < MAX_ITER ->
  Binary64.int_of_double
    (255.0 * Binary64.double_of_int n / Binary64.double_of_int MAX_ITER) =
  Some (255 * n / 100).
Proof.
  intros Hn.
  assert (H : forallb
                (fun k : Z =>
                   match Binary64.int_of_double
                           (255.0 * Binary64.double_of_int k
                            / Binary64.double_of_int MAX_ITER) with
                   | Some h => h =? 255 * k / 100
                   | None => false
                   end)
                (map Z.of_nat (seq 0 100)) = true)
    by (vm_compute; reflexivity).
  rewrite forallb_forall in H. specialize (H n).
  assert (Hin : In n (map Z.of_nat (seq 0 100))).
  { apply in_map_iff. exists (Z.to_nat n). unfold MAX_ITER in Hn.
    split; [lia | apply in_seq; lia]. }
  specialize (H Hin).
  destruct (Binary64.int_of_double _) as [h|]; [|discriminate].
  apply Z.eqb_eq in H. now subst h.
Qed.

(** X8: the colour the loop body of [RenderTile] computes, in [double], for
    every pixel and every viewport (bounds of any kind, infinite and NaN
    included): the count is between 0 and [MAX_ITER] and is not 1; the
    colour is [BLACK] when the count is [MAX_ITER], and otherwise
    [ColorFromHSV(hue, 0.5f, 1.2f)] with [hue = 255 * n / 100] truncated,
    between 0 and 252: the conversion [(int)] is always of a number in
    the range of [int]. *)
Theorem pixel_color_double_cases (x y width height : Z)
    (vp : Binary64.Viewport) :
  let n := Binary64.mandelbrotEscape
             (Binary64.plane_real vp (Binary64.double_of_int x) width)
             (Binary64.plane_imag vp (Binary64.double_of_int y) height)
             MAX_ITER in
  0 <= n <= MAX_ITER /\ n <> 1 /\
  0 <= 255 * n / 100 <= 255 /\
  (n < MAX_ITER -> 255 * n / 100 <= 252) /\
  Binary64.pixel_color ColorFromHSV x y width height vp =
    Some (if n =? MAX_ITER then BLACK
          else ColorFromHSV (inject_Z (255 * n / 100)) 0.5
                 (5033165 # 4194304)).
Proof.
  intros n.
  assert (Hr : 0 <= n <= MAX_ITER)
    by (apply mandelbrotEscape_double_bounds; unfold MAX_ITER; lia).
  assert (Hn1 : n <> 1).
  { destruct (mandelbrotEscape_double_counts
                (Binary64.plane_real vp (Binary64.double_of_int x) width)
                (Binary64.plane_imag vp (Binary64.double_of_int y) height)
                MAX_ITER) as [Hc _]; [unfold MAX_ITER; lia|].
    fold n in Hc. lia. }
  unfold MAX_ITER in Hr.
  split; [exact Hr|]. split; [exact Hn1|].
  split.
  { split; [apply Z.div_pos; lia|].
    apply Z.div_le_upper_bound; lia. }
  split.
  { intros Hlt. unfold MAX_ITER in Hlt.
    assert (255 * n / 100 < 253); [|lia].
    apply Z.div_lt_upper_bound; lia. }
  unfold Binary64.pixel_color. cbv zeta. fold n.
  destruct (n =? MAX_ITER) eqn:Hcap; [reflexivity|].
  apply Z.eqb_neq in Hcap. unfold MAX_ITER in Hcap.
  rewrite hue_table by (unfold MAX_ITER; lia). reflexivity.
Qed.

(** ** Viewport operations *)

Lemma inject_Z_nonzero (n : Z) : 0 < n -> ~ (inject_Z n == 0)%Q.
Proof.
  intros Hn H. assert (Hlt : (inject_Z 0 < inject_Z n)%Q) by
    (rewrite <- Zlt_Qlt; exact Hn).
  rewrite H in Hlt. now apply Qlt_irrefl in Hlt.
Qed.



(** The bounds after a zoom, around the point under the cursor. *)
Lemma zoom_bounds (vp : Viewport) (w h : Z) (mx my wheel : Q) :
  ~ (wheel == 0)%Q ->
  let f := if Qgtb wheel 0 then 0.8%Q else 1.25%Q in
  (Re_min (zoom vp w h mx my wheel)
     == plane_real vp mx w - real_range vp * f / 2.0)%Q /\
  (Re_max (zoom vp w h mx my wheel)
     == plane_real vp mx w + real_range vp * f / 2.0)%Q /\
  (Im_min (zoom vp w h mx my wheel)
     == plane_imag vp my h - imag_range vp * f / 2.0)%Q /\
  (Im_max (zoom vp w h mx my wheel)
     == plane_imag vp my h + imag_range vp * f / 2.0)%Q.
Proof.
  intros Hwheel f. unfold zoom.
  destruct (Qeq_bool wheel 0) eqn:He.
  { apply Qeq_bool_iff in He. contradiction. }
  simpl. unfold plane_real, plane_imag, real_range, imag_range, f.
  repeat split; reflexivity.
Qed.

(** C1, as the program has it.  A zoom puts the centre of the viewport at
    the point that was under the cursor; the point under the cursor itself
    is kept when the cursor is at the centre of the raster. *)
Theorem zoom_centers_on_cursor (vp : Viewport) (w h : Z) (mx my wheel : Q) :
  0 < w -> 0 < h -> ~ (wheel == 0)%Q ->
  let vp' := zoom vp w h mx my wheel in
  (center_real vp' == plane_real vp mx w)%Q /\
  (center_imag vp' == plane_imag vp my h)%Q /\
  ((mx == inject_Z w / 2)%Q -> (plane_real vp' mx w == plane_real vp mx w)%Q) /\
  ((my == inject_Z h / 2)%Q -> (plane_imag vp' my h == plane_imag vp my h)%Q).
Proof.
  intros Hw Hh Hwheel vp'.
  pose proof (inject_Z_nonzero w Hw) as Hw0.
  pose proof (inject_Z_nonzero h Hh) as Hh0.
  destruct (zoom_bounds vp w h mx my wheel Hwheel) as (H1 & H2 & H3 & H4).
  fold vp' in H1, H2, H3, H4.
  repeat split.
  - unfold center_real. rewrite H1, H2. field.
  - unfold center_imag. rewrite H3, H4. field.
  - intros Hmx. unfold plane_real in *. unfold real_range in *.
    rewrite H1, H2, Hmx. field. assumption.
  - intros Hmy. unfold plane_imag in *. unfold imag_range in *.
    rewrite H3, H4, Hmy. field. assumption.
Qed.

(** C1 as stated fails: on the default viewport and a 900 x 900 raster,
    with the cursor at pixel (0, 0) and the wheel turned backwards, the
    cursor maps to (-2, 1.5) before the zoom and to (-4.1875, 3.375) after. *)
Lemma zoom_moves_cursor_point :
  (plane_real default_viewport 0 900 == -2)%Q /\
  (plane_imag default_viewport 0 900 == 1.5)%Q /\
  (plane_real (zoom default_viewport 900 900 0 0 (-1)) 0 900 == -4.1875)%Q /\
  (plane_imag (zoom default_viewport 900 900 0 0 (-1)) 0 900 == 3.375)%Q /\
  ~ (plane_real (zoom default_viewport 900 900 0 0 (-1)) 0 900
       == plane_real default_viewport 0 900)%Q /\
  ~ (plane_imag (zoom default_viewport 900 900 0 0 (-1)) 0 900
       == plane_imag default_viewport 0 900)%Q.
Proof.
  repeat split; vm_compute; congruence.
Qed.

(** ** Stores into the pixel buffer *)

Lemma store_Some buf i c buf' :
  store buf i c = Some buf' <->
  0 <= i < Z.of_nat (length buf) /\ buf' = <[Z.to_nat i := c]> buf.
Proof.
  unfold store.
  destruct (0 <=? i) eqn:H0; destruct (i <? Z.of_nat (length buf)) eqn:H1;
    simpl; split; try discriminate;
    try (intros [[? ?] _]; apply Z.leb_gt in H0 || apply Z.ltb_ge in H1; lia).
  - intros [= <-]. apply Z.leb_le in H0. apply Z.ltb_lt in H1. auto.
  - intros [_ ->]. reflexivity.
Qed.

Lemma run_stores_cons i c l buf :
  run_stores ((i, c) :: l) buf =
  match store buf i c with Some buf1 => run_stores l buf1 | None => None end.
Proof. reflexivity. Qed.

Lemma run_stores_app l1 l2 buf :
  run_stores (l1 ++ l2) buf =
  match run_stores l1 buf with Some buf1 => run_stores l2 buf1 | None => None end.
Proof.
  revert buf. induction l1 as [|[i c] l1 IH]; intros buf; [reflexivity|].
  simpl. destruct (store buf i c); [apply IH | reflexivity].
Qed.

Lemma run_stores_length l buf buf' :
  run_stores l buf = Some buf' -> length buf' = length buf.
Proof.
  revert buf. induction l as [|[i c] l IH]; intros buf; simpl.
  - now intros [= <-].
  - destruct (store buf i c) as [buf1|] eqn:Hs; [|discriminate].
    apply store_Some in Hs as [_ ->]. intros H. apply IH in H.
    now rewrite length_insert in H.
Qed.

(** A sequence of stores runs through exactly when every index lies in the
    buffer. *)
Lemma run_stores_is_Some l buf :
  is_Some (run_stores l buf) <->
  forall i, i ∈ l.*1 -> 0 <= i < Z.of_nat (length buf).
Proof.
  revert buf. induction l as [|[i c] l IH]; intros buf; simpl.
  - split; [intros _ i Hi; inversion Hi | intros _; eauto].
  - split.
    + destruct (store buf i c) as [buf1|] eqn:Hs; [|intros [? [=]]].
      apply store_Some in Hs as [Hi ->]. intros Hrun j Hj.
      apply elem_of_cons in Hj as [->|Hj]; [exact Hi|].
      pose proof (proj1 (IH _) Hrun j Hj) as Hr.
      now rewrite length_insert in Hr.
    + intros Hall.
      assert (Hi : 0 <= i < Z.of_nat (length buf))
        by (apply Hall; apply list_elem_of_here).
      destruct (store buf i c) as [buf1|] eqn:Hs.
      * apply store_Some in Hs as [_ ->]. apply IH. intros j Hj.
        rewrite length_insert. apply Hall. now apply list_elem_of_further.
      * exfalso. unfold store in Hs.
        destruct (0 <=? i) eqn:H0; destruct (i <? Z.of_nat (length buf)) eqn:H1;
          simpl in Hs; try discriminate;
          apply Z.leb_gt in H0 || apply Z.ltb_ge in H1; lia.
Qed.

(** Entries whose index is not stored to are unchanged. *)
Lemma run_stores_lookup_other l buf buf' (j : nat) :
  run_stores l buf = Some buf' ->
  Z.of_nat j ∉ l.*1 ->
  buf' !! j = buf !! j.
Proof.
  revert buf. induction l as [|[i c] l IH]; intros buf; simpl.
  - now intros [= <-].
  - destruct (store buf i c) as [buf1|] eqn:Hs; [|discriminate].
    apply store_Some in Hs as [Hi ->]. intros Hrun Hj.
    apply not_elem_of_cons in Hj as [Hne Hj].
    rewrite (IH _ Hrun Hj). apply list_lookup_insert_ne. lia.
Qed.

(** When the colour stored at an index is a function [f] of the index, the
    entry of every index stored to ends as [f] of it, in whatever order the
    stores run. *)
Lemma run_stores_lookup_stored (f : Z -> Color) l buf buf' i :
  (forall j c, (j, c) ∈ l -> c = f j) ->
  run_stores l buf = Some buf' ->
  i ∈ l.*1 ->
  buf' !! Z.to_nat i = Some (f i).
Proof.
  revert buf. induction l as [|[j c] l IH]; intros buf Hf; simpl.
  - intros _ Hi. inversion Hi.
  - destruct (store buf j c) as [buf1|] eqn:Hs; [|discriminate].
    apply store_Some in Hs as [Hj ->]. intros Hrun Hi.
    assert (Hf' : forall j c, (j, c) ∈ l -> c = f j)
      by (intros ? ? ?; apply Hf; now apply list_elem_of_further).
    destruct (decide (i ∈ l.*1)) as [Hin|Hnot].
    + now apply (IH _ Hf' Hrun).
    + apply elem_of_cons in Hi as [->|Hi]; [|contradiction].
      assert (Hnot' : Z.of_nat (Z.to_nat j) ∉ l.*1)
        by (rewrite Z2Nat.id by lia; exact Hnot).
      rewrite (run_stores_lookup_other _ _ _ _ Hrun Hnot').
      rewrite list_lookup_insert_eq by lia.
      f_equal. apply Hf. apply list_elem_of_here.
Qed.

(** ** Loops as sequences of stores *)

Lemma for_count_ext {S : Type} (body body' : Z -> S -> option S) count i s :
  (forall j t, body j t = body' j t) ->
  for_count count i body s = for_count count i body' s.
Proof.
  intros Hext. revert i s. induction count as [|count IH]; intros i s; simpl.
  - reflexivity.
  - rewrite Hext. destruct (body' i s); [apply IH | reflexivity].
Qed.

Lemma for_count_stores (g : Z -> list (Z * Color)) count lo buf :
  for_count count lo (fun x s => run_stores (g x) s) buf =
  run_stores (seqZ lo (Z.of_nat count) ≫= g) buf.
Proof.
  revert lo buf. induction count as [|count IH]; intros lo buf.
  - reflexivity.
  - rewrite seqZ_cons by lia. rewrite bind_cons, run_stores_app. simpl for_count.
    destruct (run_stores (g lo) buf) as [buf1|]; [|reflexivity].
    rewrite IH. do 3 f_equal; lia.
Qed.

Lemma for_range_stores (g : Z -> list (Z * Color)) lo hi buf :
  for_range lo hi (fun x s => run_stores (g x) s) buf =
  run_stores (seqZ lo (hi - lo) ≫= g) buf.
Proof.
  unfold for_range. rewrite for_count_stores.
  destruct (Z_le_dec 0 (hi - lo)) as [H|H].
  - now rewrite Z2Nat.id.
  - replace (Z.to_nat (hi - lo)) with 0%nat by lia.
    unfold seqZ. replace (Z.to_nat (hi - lo)) with 0%nat by lia. reflexivity.
Qed.

(** [RenderTile] runs its stores row by row. *)
Lemma RenderTile_stores tileX tileY width height vp buf :
  RenderTile tileX tileY width height vp buf =
  run_stores (tile_stores tileX tileY width height vp) buf.
Proof.
  unfold RenderTile, tile_stores. cbv zeta.
  rewrite <- for_range_stores. unfold for_range at 1 3.
  apply for_count_ext. intros y s.
  rewrite <- for_range_stores. unfold for_range.
  apply for_count_ext. intros x t. simpl.
  destruct (store t _ _); reflexivity.
Qed.

(** ** Tiles *)

Lemma fmap_bind_list {A B C : Type} (g : B -> C) (f : A -> list B) (l : list A) :
  g <$> (l ≫= f) = l ≫= fun x => g <$> f x.
Proof.
  induction l as [|x l IH]; [reflexivity|].
  rewrite !bind_cons, fmap_app, IH. reflexivity.
Qed.

Lemma concat_fmap_bind {A B : Type} (f : A -> list B) (l : list A) :
  concat (f <$> l) = l ≫= f.
Proof.
  induction l as [|x l IH]; [reflexivity|].
  rewrite fmap_cons, bind_cons. simpl. now rewrite IH.
Qed.

Lemma elem_of_tile_stores tileX tileY width height vp i c :
  (i, c) ∈ tile_stores tileX tileY width height vp <->
  exists x y, in_tile tileX tileY width height x y /\
              i = y * width + x /\ c = pixel_color x y width height vp.
Proof.
  unfold tile_stores, in_tile. cbv zeta. rewrite list_elem_of_bind. split.
  - intros (y & Hin & Hy). apply list_elem_of_bind in Hin as (x & Hin & Hx).
    apply list_elem_of_singleton in Hin. injection Hin as -> ->.
    apply elem_of_seqZ in Hx, Hy. exists x, y. repeat split; lia.
  - intros (x & y & (Hx & Hy) & -> & ->). exists y. split.
    + apply list_elem_of_bind. exists x. split.
      * apply list_elem_of_singleton. reflexivity.
      * apply elem_of_seqZ. lia.
    + apply elem_of_seqZ. lia.
Qed.

Lemma elem_of_tile_indices tileX tileY width height vp i :
  i ∈ (tile_stores tileX tileY width height vp).*1 <->
  exists x y, in_tile tileX tileY width height x y /\ i = y * width + x.
Proof.
  rewrite list_elem_of_fmap. split.
  - intros ([j c] & -> & Hin). apply elem_of_tile_stores in Hin.
    destruct Hin as (x & y & Ht & -> & _). exists x, y. auto.
  - intros (x & y & Ht & ->).
    exists (y * width + x, pixel_color x y width height vp). split; [reflexivity|].
    apply elem_of_tile_stores. exists x, y. auto.
Qed.

(** A pixel and its index in the row-major buffer. *)
Lemma pixel_of_index width x y :
  0 <= x < width -> (y * width + x) mod width = x /\ (y * width + x) / width = y.
Proof.
  intros Hx. split.
  - rewrite Z.add_comm, Z.mod_add by lia. apply Z.mod_small. lia.
  - rewrite Z.add_comm, Z.div_add by lia. rewrite Z.div_small by lia. lia.
Qed.

Lemma index_in_raster width height x y :
  0 <= x < width -> 0 <= y < height -> 0 <= y * width + x < width * height.
Proof. intros Hx Hy. nia. Qed.

(** In the stores of a tile with a non-negative column, the colour stored
    at an index is the colour of the pixel with that index. *)
Lemma tile_stores_functional tileX tileY width height vp i c :
  0 <= tileX ->
  (i, c) ∈ tile_stores tileX tileY width height vp ->
  c = pixel_color (i mod width) (i / width) width height vp.
Proof.
  intros HX Hin. apply elem_of_tile_stores in Hin as (x & y & [Hx Hy] & -> & ->).
  unfold TILE_SIZE in Hx.
  destruct (pixel_of_index width x y ltac:(lia)) as [-> ->]. reflexivity.
Qed.

Lemma tiles_along_pos size : 0 < size -> tiles_along size = (size + 63) / 64.
Proof.
  intros H. unfold tiles_along, TILE_SIZE.
  replace (size + 64 - 1) with (size + 63) by lia.
  apply Z.quot_div_nonneg; lia.
Qed.

Section Tiling.

Variables width height : Z.
Hypothesis width_pos : 0 < width.
Hypothesis height_pos : 0 < height.

Local Abbreviation tilesX := (tiles_along width).
Local Abbreviation tilesY := (tiles_along height).
Local Abbreviation totalTiles := (tiles_along width * tiles_along height).

Lemma tilesX_pos : 0 < tilesX.
Proof.
  rewrite tiles_along_pos by exact width_pos.
  apply Z.div_str_pos. lia.
Qed.

Lemma tilesY_pos : 0 < tilesY.
Proof.
  rewrite tiles_along_pos by exact height_pos.
  apply Z.div_str_pos. lia.
Qed.

(** [tileIdx % tilesX] and [tileIdx / tilesX] of a tile index in range. *)
Lemma tile_coordinates tileIdx :
  0 <= tileIdx < totalTiles ->
  0 <= Z.rem tileIdx tilesX < tilesX /\
  0 <= Z.quot tileIdx tilesX < tilesY /\
  tileIdx = Z.quot tileIdx tilesX * tilesX + Z.rem tileIdx tilesX.
Proof.
  intros Hidx. pose proof tilesX_pos as HX.
  rewrite Z.rem_mod_nonneg, Z.quot_div_nonneg by lia.
  pose proof (Z.mod_pos_bound tileIdx tilesX HX) as Hm.
  pose proof (Z.div_mod tileIdx tilesX ltac:(lia)) as Hdm.
  assert (0 <= tileIdx / tilesX) by (apply Z.div_pos; lia).
  assert (tileIdx / tilesX < tilesY).
  { apply Z.div_lt_upper_bound; lia. }
  lia.
Qed.

(** A pixel of a tile with non-negative coordinates lies in the raster,
    and the tile is the one at [(x / 64, y / 64)]. *)
Lemma in_tile_inv tileX tileY x y :
  0 <= tileX -> 0 <= tileY ->
  in_tile tileX tileY width height x y ->
  0 <= x < width /\ 0 <= y < height /\ tileX = x / 64 /\ tileY = y / 64.
Proof.
  unfold in_tile, TILE_SIZE. intros HX HY [Hx Hy].
  repeat split; try lia.
  - apply (Z.div_unique x 64 tileX (x - tileX * 64)); lia.
  - apply (Z.div_unique y 64 tileY (y - tileY * 64)); lia.
Qed.

(** Every pixel of the raster lies in the tile at [(x / 64, y / 64)], which
    is one of the [tilesX] x [tilesY] tiles. *)
Lemma in_tile_of_pixel x y :
  0 <= x < width -> 0 <= y < height ->
  in_tile (x / 64) (y / 64) width height x y /\
  0 <= x / 64 < tilesX /\ 0 <= y / 64 < tilesY.
Proof.
  intros Hx Hy. unfold in_tile, TILE_SIZE.
  rewrite !tiles_along_pos by assumption.
  pose proof (Z.div_mod x 64 ltac:(lia)).
  pose proof (Z.mod_pos_bound x 64 ltac:(lia)).
  pose proof (Z.div_mod y 64 ltac:(lia)).
  pose proof (Z.mod_pos_bound y 64 ltac:(lia)).
  pose proof (Z.div_mod (width + 63) 64 ltac:(lia)).
  pose proof (Z.mod_pos_bound (width + 63) 64 ltac:(lia)).
  pose proof (Z.div_mod (height + 63) 64 ltac:(lia)).
  pose proof (Z.mod_pos_bound (height + 63) 64 ltac:(lia)).
  lia.
Qed.

Lemma tile_index_of_range x y :
  0 <= x < width -> 0 <= y < height ->
  0 <= tile_index_of width x y < totalTiles /\
  Z.rem (tile_index_of width x y) tilesX = x / 64 /\
  Z.quot (tile_index_of width x y) tilesX = y / 64.
Proof.
  intros Hx Hy. destruct (in_tile_of_pixel x y Hx Hy) as (_ & HX & HY).
  unfold tile_index_of, TILE_SIZE.
  assert (Hrange : 0 <= y / 64 * tilesX + x / 64 < tilesX * tilesY) by nia.
  split; [exact Hrange|].
  rewrite Z.rem_mod_nonneg, Z.quot_div_nonneg by lia.
  split.
  - rewrite Z.add_comm, Z.mod_add by lia. apply Z.mod_small. lia.
  - rewrite Z.add_comm, Z.div_add by lia. rewrite Z.div_small by lia. lia.
Qed.

(** The tile with index [tileIdx] holds pixel [(x, y)] exactly when it is
    the tile of that pixel. *)
Lemma tile_of_pixel_unique tileIdx x y :
  0 <= tileIdx < totalTiles ->
  in_tile (Z.rem tileIdx tilesX) (Z.quot tileIdx tilesX) width height x y ->
  0 <= x < width /\ 0 <= y < height /\ tileIdx = tile_index_of width x y.
Proof.
  intros Hidx Hin.
  destruct (tile_coordinates tileIdx Hidx) as (HX & HY & Heq).
  apply in_tile_inv in Hin as (Hx & Hy & HtX & HtY); [|lia|lia].
  repeat split; try lia.
  unfold tile_index_of, TILE_SIZE. rewrite <- HtX, <- HtY. exact Heq.
Qed.

Lemma NoDup_tile_indices tileX tileY vp :
  0 <= tileX -> NoDup (tile_stores tileX tileY width height vp).*1.
Proof.
  intros HX. unfold tile_stores. cbv zeta.
  rewrite fmap_bind_list. apply NoDup_bind; [| |apply NoDup_seqZ].
  - intros y1 y2 i Hy1 Hy2 H1 H2.
    rewrite fmap_bind_list in H1, H2.
    apply list_elem_of_bind in H1 as (x1 & H1 & Hx1).
    apply list_elem_of_bind in H2 as (x2 & H2 & Hx2).
    apply list_elem_of_singleton in H1, H2. simpl in H1, H2.
    apply elem_of_seqZ in Hx1, Hx2. unfold TILE_SIZE in *.
    destruct (pixel_of_index width x1 y1 ltac:(lia)) as [_ Hd1].
    destruct (pixel_of_index width x2 y2 ltac:(lia)) as [_ Hd2].
    congruence.
  - intros y _. rewrite fmap_bind_list.
    apply NoDup_bind; [| |apply NoDup_seqZ].
    + intros x1 x2 i _ _ H1 H2.
      apply list_elem_of_singleton in H1, H2. simpl in H1, H2. lia.
    + intros x _. apply NoDup_singleton.
Qed.

End Tiling.

(** ** The tiles of a worker *)

Lemma worker_tiles_spec fuel t numThreads totalTiles :
  0 < numThreads -> totalTiles - t <= Z.of_nat fuel ->
  exists tiles,
    worker_tiles fuel t numThreads totalTiles = Some tiles /\
    NoDup tiles /\
    forall i, i ∈ tiles <-> t <= i < totalTiles /\ (i - t) mod numThreads = 0.
Proof.
  intros HW. revert t. induction fuel as [|fuel IH]; intros t Hfuel.
  - exists []. simpl.
    assert (Hge : (t <? totalTiles) = false) by (apply Z.ltb_ge; lia).
    rewrite Hge. split; [reflexivity|]. split; [apply NoDup_nil_2|].
    intros i. rewrite elem_of_nil. lia.
  - simpl. destruct (t <? totalTiles) eqn:Hlt.
    + apply Z.ltb_lt in Hlt.
      destruct (IH (t + numThreads) ltac:(lia)) as (rest & -> & Hnd & Hin).
      exists (t :: rest). split; [reflexivity|]. split.
      * apply NoDup_cons. split; [|exact Hnd]. rewrite Hin. lia.
      * intros i. rewrite elem_of_cons, Hin.
        replace (i - t) with (i - (t + numThreads) + 1 * numThreads) by lia.
        rewrite Z.mod_add by lia. split.
        -- intros [->|[Hr Hm]]; [|lia].
           split; [lia|].
           replace (t - (t + numThreads)) with (0 + (-1) * numThreads) by lia.
           now rewrite Z.mod_add by lia.
        -- intros [Hr Hm]. destruct (decide (i = t)) as [->|Hne]; [now left|].
           right. split; [|exact Hm].
           destruct (Z_lt_dec i (t + numThreads)) as [Hsmall|?]; [|lia].
           exfalso.
           replace (i - (t + numThreads)) with (i - t + (-1) * numThreads) in Hm
             by lia.
           rewrite Z.mod_add, Z.mod_small in Hm by lia. lia.
    + apply Z.ltb_ge in Hlt. exists []. split; [reflexivity|].
      split; [apply NoDup_nil_2|]. intros i. rewrite elem_of_nil. lia.
Qed.

Lemma mapM_default {A B : Type} (d : B) (f : A -> option B) (l : list A) :
  (forall x, x ∈ l -> is_Some (f x)) ->
  mapM f l = Some ((fun x => default d (f x)) <$> l).
Proof.
  intros Hall. apply mapM_Some. induction l as [|x l IH]; [constructor|].
  rewrite fmap_cons. constructor.
  - destruct (Hall x (list_elem_of_here _ _)) as [y Hy]. now rewrite Hy.
  - apply IH. intros y Hy. apply Hall. now apply list_elem_of_further.
Qed.

(** ** The stores of a render pass *)

Section Pass.

Variables width height numThreads : Z.
Variable vp : Viewport.
Hypothesis width_pos : 0 < width.
Hypothesis height_pos : 0 < height.
Hypothesis threads_pos : 1 <= numThreads.

Local Abbreviation tilesX := (tiles_along width).
Local Abbreviation tilesY := (tiles_along height).
Local Abbreviation totalTiles := (tiles_along width * tiles_along height).
Local Abbreviation worker := (fun t : Z =>
  default [] (worker_stores t numThreads totalTiles tilesX width height vp)).

Lemma worker_stores_spec t :
  0 <= t ->
  exists tiles,
    worker_stores t numThreads totalTiles tilesX width height vp =
      Some (tiles ≫= fun tileIdx =>
              tile_stores (Z.rem tileIdx tilesX) (Z.quot tileIdx tilesX)
                width height vp) /\
    NoDup tiles /\
    forall i, i ∈ tiles <-> t <= i < totalTiles /\ (i - t) mod numThreads = 0.
Proof.
  intros Ht. unfold worker_stores.
  destruct (worker_tiles_spec (Z.to_nat totalTiles) t numThreads totalTiles)
    as (tiles & -> & Hnd & Hin); [lia | lia |].
  exists tiles. auto.
Qed.

(** Worker [t] stores to pixel [(x, y)] exactly when the tile of the pixel
    is one of [t], [t + numThreads], ... *)
Lemma elem_of_worker t i c :
  0 <= t < numThreads ->
  (i, c) ∈ worker t <->
  exists x y, 0 <= x < width /\ 0 <= y < height /\
    i = y * width + x /\ c = pixel_color x y width height vp /\
    (tile_index_of width x y - t) mod numThreads = 0.
Proof.
  intros Ht. destruct (worker_stores_spec t ltac:(lia)) as (tiles & -> & _ & Hin).
  simpl. rewrite list_elem_of_bind. split.
  - intros (idx & Hic & Hidx). apply Hin in Hidx as [Hr Hm].
    apply elem_of_tile_stores in Hic as (x & y & Ht' & -> & ->).
    apply tile_of_pixel_unique in Ht' as (Hx & Hy & ->); [|lia..].
    exists x, y. auto.
  - intros (x & y & Hx & Hy & -> & -> & Hm).
    destruct (tile_index_of_range width height width_pos height_pos x y Hx Hy)
      as (Hr & HX & HY).
    destruct (in_tile_of_pixel width height width_pos height_pos x y Hx Hy)
      as (Hin' & _).
    exists (tile_index_of width x y). split.
    + apply elem_of_tile_stores. exists x, y. rewrite HX, HY. auto.
    + apply Hin. split; [|exact Hm]. split; [|lia].
      destruct (Z_le_dec t (tile_index_of width x y)) as [?|Hgt]; [assumption|].
      exfalso. apply Z.mod_divide in Hm as [k Hk]; [|lia].
      assert (k < 0) by nia. assert (-1 < k) by nia. lia.
Qed.

Lemma elem_of_worker_indices t i :
  0 <= t < numThreads ->
  i ∈ (worker t).*1 <->
  exists x y, 0 <= x < width /\ 0 <= y < height /\ i = y * width + x /\
    (tile_index_of width x y - t) mod numThreads = 0.
Proof.
  intros Ht. rewrite list_elem_of_fmap. split.
  - intros ([j c] & -> & Hin). apply elem_of_worker in Hin; [|exact Ht].
    destruct Hin as (x & y & Hx & Hy & -> & _ & Hm). exists x, y. auto.
  - intros (x & y & Hx & Hy & -> & Hm).
    exists (y * width + x, pixel_color x y width height vp).
    split; [reflexivity|]. apply elem_of_worker; [exact Ht|].
    exists x, y. auto.
Qed.

Lemma NoDup_worker_indices t :
  0 <= t < numThreads -> NoDup (worker t).*1.
Proof.
  intros Ht. destruct (worker_stores_spec t ltac:(lia)) as (tiles & -> & Hnd & Hin).
  simpl. rewrite fmap_bind_list. apply NoDup_bind; [| |exact Hnd].
  - intros idx1 idx2 i H1 H2 Hi1 Hi2.
    apply Hin in H1 as [Hr1 _]. apply Hin in H2 as [Hr2 _].
    apply elem_of_tile_indices in Hi1 as (x1 & y1 & Ht1 & ->).
    apply elem_of_tile_indices in Hi2 as (x2 & y2 & Ht2 & Heq).
    apply tile_of_pixel_unique in Ht1 as (Hx1 & Hy1 & ->); [|lia..].
    apply tile_of_pixel_unique in Ht2 as (Hx2 & Hy2 & ->); [|lia..].
    destruct (pixel_of_index width x1 y1 Hx1) as [Hm1 Hd1].
    destruct (pixel_of_index width x2 y2 Hx2) as [Hm2 Hd2].
    rewrite Heq in Hm1, Hd1. congruence.
  - intros idx Hidx. apply Hin in Hidx as [Hr _].
    apply NoDup_tile_indices.
    apply (tile_coordinates width height); [exact width_pos | lia].
Qed.

(** The threads of the pass. *)
Lemma render_threads_workers :
  render_threads numThreads width height vp = Some (worker <$> seqZ 0 numThreads).
Proof.
  unfold render_threads. cbv zeta. apply mapM_default.
  intros t Ht. apply elem_of_seqZ in Ht.
  destruct (worker_stores_spec t ltac:(lia)) as (tiles & -> & _). eauto.
Qed.

Lemma elem_of_pass i c :
  (i, c) ∈ seqZ 0 numThreads ≫= worker ->
  0 <= i < width * height /\
  c = pixel_color (i mod width) (i / width) width height vp.
Proof.
  intros H. apply list_elem_of_bind in H as (t & Hin & Ht).
  apply elem_of_seqZ in Ht. apply elem_of_worker in Hin; [|lia].
  destruct Hin as (x & y & Hx & Hy & -> & -> & _).
  destruct (pixel_of_index width x y Hx) as [-> ->].
  split; [now apply index_in_raster | reflexivity].
Qed.

(** Every index of the buffer is stored to once in a pass. *)
Lemma pass_indices_once :
  (seqZ 0 numThreads ≫= worker).*1 ≡ₚ seqZ 0 (width * height).
Proof.
  apply NoDup_Permutation; [|apply NoDup_seqZ|].
  - rewrite fmap_bind_list. apply NoDup_bind; [| |apply NoDup_seqZ].
    + intros t1 t2 i Ht1 Ht2 H1 H2. apply elem_of_seqZ in Ht1, Ht2.
      apply elem_of_worker_indices in H1 as (x1 & y1 & Hx1 & Hy1 & -> & Hm1);
        [|lia].
      apply elem_of_worker_indices in H2 as (x2 & y2 & Hx2 & Hy2 & Heq & Hm2);
        [|lia].
      destruct (pixel_of_index width x1 y1 Hx1) as [Hmx1 Hdy1].
      destruct (pixel_of_index width x2 y2 Hx2) as [Hmx2 Hdy2].
      rewrite Heq in Hmx1, Hdy1.
      assert (x1 = x2) as -> by congruence.
      assert (y1 = y2) as -> by congruence.
      apply Z.mod_divide in Hm1 as [k1 Hk1]; [|lia].
      apply Z.mod_divide in Hm2 as [k2 Hk2]; [|lia].
      assert (Hd : t1 - t2 = (k2 - k1) * numThreads) by lia.
      assert (k2 - k1 = 0) by nia. lia.
    + intros t Ht. apply elem_of_seqZ in Ht. apply NoDup_worker_indices. lia.
  - intros i. rewrite elem_of_seqZ. split.
    + intros Hi. apply list_elem_of_fmap in Hi as ([j c] & -> & Hin).
      apply elem_of_pass in Hin as [Hr _]. simpl. lia.
    + intros Hi. rewrite fmap_bind_list. apply list_elem_of_bind.
      assert (Hx : 0 <= i mod width < width) by (apply Z.mod_pos_bound; lia).
      assert (Hy : 0 <= i / width < height).
      { split; [apply Z.div_pos; lia | apply Z.div_lt_upper_bound; lia]. }
      set (idx := tile_index_of width (i mod width) (i / width)).
      assert (Ht : 0 <= idx mod numThreads < numThreads)
        by (apply Z.mod_pos_bound; lia).
      exists (idx mod numThreads). split; [|apply elem_of_seqZ; lia].
      apply elem_of_worker_indices; [exact Ht|].
      exists (i mod width), (i / width). repeat split; try lia.
      * pose proof (Z.div_mod i width ltac:(lia)). lia.
      * fold idx. rewrite Zminus_mod_idemp_r, Z.sub_diag. apply Z.mod_0_l. lia.
Qed.

End Pass.

(** ** Interleavings *)

Lemma concat_all_nil {A : Type} (threads : list (list A)) :
  Forall (fun t => t = []) threads -> concat threads = [].
Proof.
  induction 1 as [|t threads -> _ IH]; [reflexivity | exact IH].
Qed.

(** An interleaving performs the steps of all threads, each once. *)
Lemma interleaving_Permutation {A : Type} (threads : list (list A)) trace :
  interleaving threads trace -> trace ≡ₚ concat threads.
Proof.
  induction 1 as [threads Hnil | before x t after trace _ IH].
  - now rewrite concat_all_nil.
  - rewrite concat_app in *. simpl in *. rewrite IH.
    apply Permutation_middle.
Qed.

(** Running the threads one after the other is an interleaving. *)
Lemma interleaving_sequential {A : Type} (finished threads : list (list A)) :
  Forall (fun t => t = []) finished ->
  interleaving (finished ++ threads) (concat threads).
Proof.
  revert finished. induction threads as [|t threads IH]; intros finished Hfin.
  - apply interleaving_done. now rewrite app_nil_r.
  - induction t as [|x t IHt].
    + simpl. replace (finished ++ [] :: threads)
        with ((finished ++ [[]]) ++ threads) by now rewrite <- app_assoc.
      apply IH. apply Forall_app. split; [exact Hfin | now constructor].
    + simpl. apply interleaving_step. exact IHt.
Qed.

Lemma interleaving_exists {A : Type} (threads : list (list A)) :
  interleaving threads (concat threads).
Proof. apply (interleaving_sequential [] threads). constructor. Qed.

(** ** Render passes *)

(** With no worker a pass stores nothing. *)
Lemma render_pass_no_worker numThreads width height vp buf buf' :
  numThreads <= 0 ->
  render_pass numThreads width height vp buf buf' <-> buf' = buf.
Proof.
  intros HW. unfold render_pass, render_threads. cbv zeta.
  assert (Hseq : seqZ 0 numThreads = []).
  { unfold seqZ. replace (Z.to_nat numThreads) with 0%nat by lia. reflexivity. }
  rewrite Hseq. simpl. split.
  - intros (threads & trace & [= <-] & Hint & Hrun).
    apply interleaving_Permutation in Hint. simpl in Hint.
    apply Permutation_nil_r in Hint. subst trace. simpl in Hrun. congruence.
  - intros ->. exists [], []. repeat split. apply interleaving_done. constructor.
Qed.

(** With at least one worker, a pass over a buffer of the size of the
    raster runs through, and leaves the picture of the viewport. *)
Lemma render_pass_image numThreads width height vp buf buf' :
  0 < width -> 0 < height -> 1 <= numThreads ->
  length buf = Z.to_nat (width * height) ->
  render_pass numThreads width height vp buf buf' ->
  buf' = render_image width height vp.
Proof.
  intros Hw Hh HW Hlen (threads & trace & Hthreads & Hint & Hrun).
  rewrite render_threads_workers in Hthreads by assumption.
  injection Hthreads as <-.
  apply interleaving_Permutation in Hint. rewrite concat_fmap_bind in Hint.
  set (f := fun i => pixel_color (i mod width) (i / width) width height vp).
  pose proof (run_stores_length _ _ _ Hrun) as Hlen'.
  assert (Hidx : trace.*1 ≡ₚ seqZ 0 (width * height)).
  { rewrite Hint. now apply pass_indices_once. }
  apply list_eq. intros j. unfold render_image.
  rewrite list_lookup_fmap.
  destruct (decide (Z.of_nat j < width * height)) as [Hj|Hj].
  - rewrite lookup_seqZ_lt by exact Hj. simpl.
    replace j with (Z.to_nat (Z.of_nat j)) at 1 by lia.
    apply (run_stores_lookup_stored f trace buf buf'); [|exact Hrun|].
    + intros i c Hic. rewrite Hint in Hic.
      apply elem_of_pass in Hic as [_ ->]; auto.
    + rewrite Hidx. apply elem_of_seqZ. lia.
  - rewrite lookup_seqZ_ge by lia. simpl.
    apply lookup_ge_None. lia.
Qed.

Lemma render_pass_total numThreads width height vp buf :
  0 < width -> 0 < height ->
  length buf = Z.to_nat (width * height) ->
  exists buf', render_pass numThreads width height vp buf buf'.
Proof.
  intros Hw Hh Hlen.
  destruct (Z_le_dec numThreads 0) as [HW|HW].
  { exists buf. now apply render_pass_no_worker. }
  unfold render_pass. rewrite render_threads_workers by lia.
  set (threads := _ <$> seqZ 0 numThreads).
  assert (Hsome : is_Some (run_stores (concat threads) buf)).
  { apply run_stores_is_Some. intros i Hi. unfold threads in Hi.
    rewrite concat_fmap_bind in Hi.
    apply list_elem_of_fmap in Hi as ([j c] & -> & Hin).
    apply elem_of_pass in Hin as [Hr _]; [|lia..]. simpl. lia. }
  destruct Hsome as [buf' Hrun].
  exists buf', threads, (concat threads).
  split; [reflexivity|]. split; [apply interleaving_exists | exact Hrun].
Qed.

Lemma length_render_image width height vp :
  length (render_image width height vp) = Z.to_nat (width * height).
Proof. unfold render_image. now rewrite length_fmap, length_seqZ. Qed.

(** C10.  Frame property of [RenderTile]: a call leaves the length of the
    buffer and every entry outside the pixel rectangle of its tile as they
    were; and for a tile with non-negative coordinates and a buffer of the
    size of the raster the call runs through. *)
Theorem RenderTile_frame (tileX tileY width height : Z) (vp : Viewport)
    (buf : list Color) :
  0 < width -> 0 < height ->
  (forall buf', RenderTile tileX tileY width height vp buf = Some buf' ->
     length buf' = length buf /\
     forall j : nat,
       ~ (exists x y, in_tile tileX tileY width height x y /\
                      Z.of_nat j = y * width + x) ->
       buf' !! j = buf !! j) /\
  (0 <= tileX -> 0 <= tileY -> length buf = Z.to_nat (width * height) ->
   is_Some (RenderTile tileX tileY width height vp buf)).
Proof.
  intros Hw Hh. rewrite RenderTile_stores. split.
  - intros buf' Hrun. split; [now apply run_stores_length in Hrun|].
    intros j Hout. apply (run_stores_lookup_other _ _ _ _ Hrun).
    now rewrite elem_of_tile_indices.
  - intros HX HY Hlen. apply run_stores_is_Some. intros i Hi.
    apply elem_of_tile_indices in Hi as (x & y & Hin & ->).
    apply in_tile_inv in Hin as (Hx & Hy & _); [|assumption..].
    pose proof (index_in_raster width height x y Hx Hy). lia.
Qed.

(** No [int] of the render block overflows: every integer the render
    block and [RenderTile] compute, intermediate results and loop counters
    included, is a value of a 32-bit [int], when the raster, with room for
    one more tile along each side and for the last stride of a worker, has
    fewer than [2^31] pixels. *)
Lemma render_block_int_range (numThreads width height : Z) :
  0 < width -> 0 < height -> 1 <= numThreads ->
  width * height + numThreads < 2 ^ 31 ->
  width + TILE_SIZE < 2 ^ 31 -> height + TILE_SIZE < 2 ^ 31 ->
  let tilesX := tiles_along width in
  let tilesY := tiles_along height in
  int_range (width + TILE_SIZE) /\ int_range (width + TILE_SIZE - 1) /\
  int_range (height + TILE_SIZE) /\ int_range (height + TILE_SIZE - 1) /\
  int_range tilesX /\ int_range tilesY /\ int_range (tilesX * tilesY) /\
  int_range (width * height) /\
  (forall t, 0 <= t < numThreads -> int_range (t + 1)) /\
  (forall tileIdx, 0 <= tileIdx < tilesX * tilesY ->
     int_range (tileIdx + numThreads) /\
     int_range (Z.rem tileIdx tilesX) /\ int_range (Z.quot tileIdx tilesX)) /\
  (forall tileX tileY, 0 <= tileX < tilesX -> 0 <= tileY < tilesY ->
     int_range (tileX * TILE_SIZE) /\
     int_range (tileX * TILE_SIZE + TILE_SIZE) /\
     int_range (tileY * TILE_SIZE) /\
     int_range (tileY * TILE_SIZE + TILE_SIZE) /\
     forall x y, in_tile tileX tileY width height x y ->
       int_range (y * width) /\ int_range (y * width + x) /\
       int_range (x + 1) /\ int_range (y + 1)).
Proof.
  intros Hw Hh HW Hsize Hwide Hhigh tilesX tilesY.
  assert (HtX : tilesX = (width + 63) / 64) by now apply tiles_along_pos.
  assert (HtY : tilesY = (height + 63) / 64) by now apply tiles_along_pos.
  pose proof (Z.div_mod (width + 63) 64 ltac:(lia)) as HdX.
  pose proof (Z.mod_pos_bound (width + 63) 64 ltac:(lia)) as HmX.
  pose proof (Z.div_mod (height + 63) 64 ltac:(lia)) as HdY.
  pose proof (Z.mod_pos_bound (height + 63) 64 ltac:(lia)) as HmY.
  rewrite <- HtX in HdX. rewrite <- HtY in HdY.
  assert (HX : 1 <= tilesX <= width) by lia.
  assert (HY : 1 <= tilesY <= height) by lia.
  assert (Htot : 1 <= tilesX * tilesY <= width * height) by nia.
  unfold int_range, TILE_SIZE in *.
  do 8 (split; [lia|]).
  split; [intros t Ht; lia|].
  split.
  { intros tileIdx Hidx. split; [lia|].
    rewrite Z.rem_mod_nonneg, Z.quot_div_nonneg by lia.
    pose proof (Z.mod_pos_bound tileIdx tilesX ltac:(lia)).
    pose proof (Z.div_pos tileIdx tilesX ltac:(lia) ltac:(lia)).
    pose proof (Z.div_le_upper_bound tileIdx tilesX tileIdx ltac:(lia)
                  ltac:(nia)).
    lia. }
  intros tileX tileY HtileX HtileY.
  do 4 (split; [lia|]).
  intros x y Hin. apply in_tile_inv in Hin as (Hx & Hy & _); [|lia..].
  pose proof (index_in_raster width height x y Hx Hy).
  assert (0 <= y * width) by nia. lia.
Qed.

(** C4.  On a raster with positive width and height, every pixel lies in
    exactly one of the [tilesX] x [tilesY] tiles and every tile lies in the
    raster; and with at least one worker, worker [t] takes the tile indices
    [t], [t + numThreads], ... and, whatever the interleaving of the
    workers, the stores of a render pass go to every index of the buffer
    exactly once. *)
Theorem tiles_cover_raster_once (numThreads width height : Z) (vp : Viewport) :
  0 < width -> 0 < height -> 1 <= numThreads ->
  let tilesX := tiles_along width in
  let tilesY := tiles_along height in
  tilesX = (width + 63) / 64 /\ tilesY = (height + 63) / 64 /\
  (forall x y, 0 <= x < width -> 0 <= y < height ->
     exists tileX tileY,
       (0 <= tileX < tilesX /\ 0 <= tileY < tilesY /\
        in_tile tileX tileY width height x y) /\
       forall tileX' tileY',
         0 <= tileX' < tilesX -> 0 <= tileY' < tilesY ->
         in_tile tileX' tileY' width height x y ->
         tileX' = tileX /\ tileY' = tileY) /\
  (forall tileX tileY x y,
     0 <= tileX < tilesX -> 0 <= tileY < tilesY ->
     in_tile tileX tileY width height x y ->
     0 <= x < width /\ 0 <= y < height) /\
  (forall t, 0 <= t < numThreads ->
     exists tiles,
       worker_tiles (Z.to_nat (tilesX * tilesY)) t numThreads (tilesX * tilesY)
         = Some tiles /\
       forall i, i ∈ tiles <->
         t <= i < tilesX * tilesY /\ (i - t) mod numThreads = 0) /\
  exists threads,
    render_threads numThreads width height vp = Some threads /\
    length threads = Z.to_nat numThreads /\
    forall trace, interleaving threads trace ->
      trace.*1 ≡ₚ seqZ 0 (width * height).
Proof.
  intros Hw Hh HW tilesX tilesY.
  split; [now apply tiles_along_pos|]. split; [now apply tiles_along_pos|].
  split; [|split; [|split]].
  - intros x y Hx Hy.
    destruct (in_tile_of_pixel width height Hw Hh x y Hx Hy) as (Hin & HX & HY).
    exists (x / 64), (y / 64). split; [auto|].
    intros tileX' tileY' HX' HY' Hin'.
    apply in_tile_inv in Hin' as (_ & _ & -> & ->); [auto | lia | lia].
  - intros tileX tileY x y HX HY Hin.
    apply in_tile_inv in Hin as (Hx & Hy & _); [auto | lia | lia].
  - intros t Ht.
    destruct (worker_tiles_spec (Z.to_nat (tilesX * tilesY)) t numThreads
                (tilesX * tilesY)) as (tiles & Htiles & _ & Hin); [lia | lia |].
    exists tiles. auto.
  - eexists. split; [now apply render_threads_workers|].
    split; [now rewrite length_fmap, length_seqZ|].
    intros trace Hint. apply interleaving_Permutation in Hint.
    rewrite Hint, concat_fmap_bind. now apply pass_indices_once.
Qed.

(** C5, at the input where the program fails it.  When
    [hardware_concurrency()] reports 0, [numThreads] is 0: the render block
    starts no thread, and the pass leaves the buffer as it was. *)
Theorem render_block_without_workers (width height : Z) (vp : Viewport)
    (buf buf' : list Color) :
  int_of_unsigned 0 = 0 /\
  render_threads (int_of_unsigned 0) width height vp = Some [] /\
  (render_block 0 width height vp buf buf' <-> buf' = buf).
Proof.
  split; [reflexivity|]. split; [reflexivity|].
  unfold render_block. apply render_pass_no_worker. reflexivity.
Qed.

(** On a machine that reports between 1 and [2^31 - 1] hardware threads the
    render block starts that many workers. *)
Lemma int_of_unsigned_small (u : Z) :
  0 <= u < 2 ^ 31 -> int_of_unsigned u = u.
Proof.
  intros Hu. unfold int_of_unsigned. cbv zeta.
  rewrite Z.mod_small by lia.
  destruct (u <? 2 ^ 31) eqn:H; [reflexivity | apply Z.ltb_ge in H; lia].
Qed.

(** ** The buffer of [main] *)

Lemma vector_resize_length buf n :
  length (vector_resize buf n) = Z.to_nat n.
Proof.
  unfold vector_resize. rewrite length_app, length_take, length_replicate. lia.
Qed.

Lemma vector_resize_blank m n :
  vector_resize (replicate m blank) n = replicate (Z.to_nat n) blank.
Proof.
  unfold vector_resize. rewrite take_replicate, length_replicate.
  rewrite <- replicate_add. f_equal. lia.
Qed.

(** In every state of [main] the buffer has the size of the raster; on a
    machine without workers it still holds its initial contents. *)
Lemma reachable_buffer numThreads s :
  reachable numThreads s ->
  0 < currentWidth s /\ 0 < currentHeight s /\
  length (pixelBuffer s) = Z.to_nat (currentWidth s * currentHeight s) /\
  (numThreads <= 0 ->
   pixelBuffer s = replicate (Z.to_nat (currentWidth s * currentHeight s)) blank).
Proof.
  unfold reachable. revert s. apply rtc_ind_r.
  - unfold initial_state. cbn [currentWidth currentHeight pixelBuffer].
    split; [reflexivity|]. split; [reflexivity|].
    split; [apply length_replicate | reflexivity].
  - intros s s' Hsteps Hstep (Hw & Hh & Hlen & Hblank).
    destruct Hstep as [s w' h' Hw' Hh' _ | s vp' | s buf' Hpass];
      cbn [currentWidth currentHeight pixelBuffer view].
    + repeat split; try assumption.
      * apply vector_resize_length.
      * intros HW. rewrite (Hblank HW). apply vector_resize_blank.
    + auto.
    + repeat split; try assumption.
      * destruct Hpass as (threads & trace & _ & _ & Hrun).
        apply run_stores_length in Hrun. congruence.
      * intros HW. apply render_pass_no_worker in Hpass; [|exact HW].
        subst buf'. auto.
Qed.

(** C7.  In every state of [main] and for every worker count, a render
    pass completes; whatever the interleaving of the workers, the buffer it
    leaves is determined by the viewport and the raster size (the picture
    of the viewport with at least one worker, the value-initialised buffer
    with none), and a second pass on the same viewport and raster leaves
    the same buffer. *)
Theorem render_pass_deterministic (numThreads : Z) (s : State) :
  reachable numThreads s ->
  (exists buf1,
     render_pass numThreads (currentWidth s) (currentHeight s) (view s)
       (pixelBuffer s) buf1) /\
  forall buf1 buf2,
    render_pass numThreads (currentWidth s) (currentHeight s) (view s)
      (pixelBuffer s) buf1 ->
    render_pass numThreads (currentWidth s) (currentHeight s) (view s)
      buf1 buf2 ->
    buf1 = completed_frame numThreads (currentWidth s) (currentHeight s) (view s)
    /\ buf2 = buf1.
Proof.
  intros Hreach.
  destruct (reachable_buffer numThreads s Hreach) as (Hw & Hh & Hlen & Hblank).
  split; [now apply render_pass_total|].
  intros buf1 buf2 H1 H2. unfold completed_frame.
  destruct (1 <=? numThreads) eqn:HW.
  - apply Z.leb_le in HW.
    apply render_pass_image in H1; [|assumption..].
    apply render_pass_image in H2; [split; congruence|assumption..|].
    subst buf1. apply length_render_image.
  - apply Z.leb_gt in HW.
    apply render_pass_no_worker in H1; [|lia].
    apply render_pass_no_worker in H2; [|lia].
    subst buf1 buf2. split; [apply Hblank; lia | reflexivity].
Qed.

(** C8.  On the default viewport and a 900 x 900 raster, pixel (450, 450)
    maps to the point (-0.25, 0), on [double] and over the reals alike; the
    point satisfies the cardioid test, so that [mandelbrotEscape] returns
    the cap 100 and the colour of the pixel is black.  The pixel lies in
    tile (7, 7): [RenderTile] on that tile runs through on a buffer of the
    size of the raster and leaves black at index [450 * 900 + 450], and so
    does every render pass with at least one worker (with none, a pass
    stores nothing). *)
Theorem center_pixel_is_black :
  Binary64.plane_real Binary64.default_viewport
    (Binary64.double_of_int 450) 900 = (-0.25)%float /\
  Binary64.plane_imag Binary64.default_viewport
    (Binary64.double_of_int 450) 900 = 0%float /\
  Binary64.in_cardioid (-0.25) 0 = true /\
  Binary64.mandelbrotEscape (-0.25) 0 100 = 100 /\
  Binary64.pixel_color ColorFromHSV 450 450 900 900 Binary64.default_viewport
  = Some BLACK /\
  (plane_real default_viewport (inject_Z 450) 900 == -0.25)%Q /\
  (plane_imag default_viewport (inject_Z 450) 900 == 0)%Q /\
  in_cardioid (plane_real default_viewport (inject_Z 450) 900)
    (plane_imag default_viewport (inject_Z 450) 900) = true /\
  mandelbrotEscape (plane_real default_viewport (inject_Z 450) 900)
    (plane_imag default_viewport (inject_Z 450) 900) 100 = 100 /\
  pixel_color 450 450 900 900 default_viewport = BLACK /\
  in_tile 7 7 900 900 450 450 /\
  (forall buf,
     length buf = Z.to_nat (900 * 900) ->
     is_Some (RenderTile 7 7 900 900 default_viewport buf)) /\
  (forall buf buf',
     RenderTile 7 7 900 900 default_viewport buf = Some buf' ->
     buf' !! Z.to_nat (450 * 900 + 450) = Some BLACK) /\
  (forall numThreads buf buf',
     length buf = Z.to_nat (900 * 900) ->
     render_pass numThreads 900 900 default_viewport buf buf' ->
     if 1 <=? numThreads
     then buf' !! Z.to_nat (450 * 900 + 450) = Some BLACK
     else buf' = buf).
Proof.
  do 4 (split; [vm_compute; reflexivity|]).
  split; [vm_compute; reflexivity|].
  do 4 (split; [vm_compute; reflexivity|]).
  assert (Hpix : pixel_color 450 450 900 900 default_viewport = BLACK)
    by (vm_compute; reflexivity).
  split; [exact Hpix|].
  assert (Hin : in_tile 7 7 900 900 450 450)
    by (unfold in_tile, TILE_SIZE; lia).
  split; [exact Hin|].
  split; [|split].
  - intros buf Hlen. rewrite RenderTile_stores. apply run_stores_is_Some.
    intros i Hi. apply elem_of_tile_indices in Hi as (x & y & Ht & ->).
    apply in_tile_inv in Ht as (Hx & Hy & _); [|lia..].
    pose proof (index_in_raster 900 900 x y Hx Hy). lia.
  - intros buf buf' Hrun. rewrite RenderTile_stores in Hrun.
    rewrite <- Hpix.
    apply (run_stores_lookup_stored
             (fun i => pixel_color (i mod 900) (i / 900) 900 900 default_viewport)
             (tile_stores 7 7 900 900 default_viewport) buf buf'
             (450 * 900 + 450)).
    + intros j c Hjc. apply (tile_stores_functional 7 7); [lia | exact Hjc].
    + exact Hrun.
    + apply elem_of_tile_indices. exists 450, 450. auto.
  - intros numThreads buf buf' Hlen Hpass.
    destruct (1 <=? numThreads) eqn:HW.
    + apply Z.leb_le in HW.
      apply render_pass_image in Hpass; [|lia | lia | exact HW | exact Hlen].
      subst buf'. unfold render_image. rewrite list_lookup_fmap.
      rewrite lookup_seqZ_lt by (rewrite Z2Nat.id; lia).
      cbn [fmap option_fmap option_map]. rewrite Z2Nat.id by lia.
      change ((0 + (450 * 900 + 450)) mod 900) with 450.
      change ((0 + (450 * 900 + 450)) / 900) with 450.
      now rewrite Hpix.
    + apply Z.leb_gt in HW. apply render_pass_no_worker in Hpass; [|lia].
      exact Hpass.
Qed.

(** * Further properties *)

(** ** The escape-time evaluator *)

Lemma escape_loop_cap cx cy m m' zx zy n :
  m <= m' -> n < m ->
  escape_loop cx cy zx zy n m = Z.min (escape_loop cx cy zx zy n m') m.
Proof.
  intros Hmm. revert zx zy n.
  apply (escape_loop_rounds_ind cx cy m'
           (fun zx zy n => n < m ->
              escape_loop cx cy zx zy n m
              = Z.min (escape_loop cx cy zx zy n m') m)).
  intros zx zy n IH Hn.
  rewrite (escape_loop_round cx cy zx zy n m), (escape_loop_round cx cy zx zy n m').
  destruct (Qle_bool (zx * zx + zy * zy) 4.0) eqn:Hle; simpl; [|lia].
  destruct (n + 1 <? m) eqn:H1.
  - apply Z.ltb_lt in H1.
    assert (H2 : (n + 1 <? m') = true) by (apply Z.ltb_lt; lia).
    rewrite H2. apply IH; [reflexivity | lia | exact H1].
  - apply Z.ltb_ge in H1. destruct (n + 1 <? m') eqn:H2; [|lia].
    pose proof (escape_loop_bounds cx cy (zx * zx - zy * zy + cx)
                  (2 * zx * zy + cy) (n + 1) m'). lia.
Qed.

(** Lowering the iteration cap only cuts the count off: for caps
    [1 <= m <= m'], the count under cap [m] is the smaller of [m] and the
    count under cap [m']. *)
Theorem mandelbrotEscape_cap (cx cy : Q) (m m' : Z) :
  1 <= m -> m <= m' ->
  mandelbrotEscape cx cy m = Z.min (mandelbrotEscape cx cy m') m.
Proof.
  intros Hm Hmm. unfold mandelbrotEscape.
  destruct (in_cardioid cx cy); [lia|].
  destruct (in_bulb cx cy); [lia|].
  destruct (outside cx cy); [lia|].
  apply escape_loop_cap; lia.
Qed.

(** On the real axis between -2 and 1/4 the iterates stay real and
    bounded, and the loop runs to the cap. *)
Lemma escape_loop_real_segment cx cy max_iter zx zy n :
  (cy == 0)%Q -> (-2 <= cx)%Q -> (cx <= 0.25)%Q ->
  (zy == 0)%Q ->
  ((cx <= 0 /\ cx <= zx <= - cx) \/ (0 <= cx /\ 0 <= zx <= 0.5))%Q ->
  n < max_iter ->
  escape_loop cx cy zx zy n max_iter = max_iter.
Proof.
  intros Hcy Hlo Hhi. revert zx zy n.
  apply (escape_loop_rounds_ind cx cy max_iter
    (fun zx zy n =>
      (zy == 0)%Q ->
      ((cx <= 0 /\ cx <= zx <= - cx) \/ (0 <= cx /\ 0 <= zx <= 0.5))%Q ->
      n < max_iter ->
      escape_loop cx cy zx zy n max_iter = max_iter)).
  intros zx zy n IH Hzy Hzx Hn. rewrite escape_loop_round.
  assert (Hsq : (zx * zx + zy * zy == zx * zx)%Q) by (rewrite Hzy; ring).
  assert (Hin : Qle_bool (zx * zx + zy * zy) 4.0 = true).
  { apply Qle_bool_iff. rewrite Hsq.
    destruct Hzx as [(H0 & H1 & H2)|(H0 & H1 & H2)].
    - assert ((zx - cx) * (zx + cx) <= 0)%Q by nra. nra.
    - nra. }
  rewrite Hin. simpl andb.
  destruct (n + 1 <? max_iter) eqn:Hlt; [|apply Z.ltb_ge in Hlt; lia].
  apply Z.ltb_lt in Hlt. apply (IH Hin Hlt); [| |exact Hlt].
  - rewrite Hzy, Hcy. ring.
  - assert (Hx' : (zx * zx - zy * zy + cx == zx * zx + cx)%Q)
      by (rewrite Hzy; ring).
    rewrite Hx'.
    destruct Hzx as [(H0 & H1 & H2)|(H0 & H1 & H2)]; [left | right].
    + assert ((zx - cx) * (zx + cx) <= 0)%Q by nra.
      assert (0 <= zx * zx)%Q by nra. repeat split; nra.
    + assert (zx * (zx - 0.5) <= 0)%Q by nra.
      assert (0 <= zx * zx)%Q by nra. repeat split; lra.
Qed.

(** Every point of the real axis between -2 and 1/4, the part of the axis
    that belongs to the Mandelbrot set, is classified interior, whatever the
    cap (of at least 1); in exact arithmetic. *)
Theorem mandelbrotEscape_real_segment (cx cy : Q) (max_iter : Z) :
  1 <= max_iter -> (cy == 0)%Q -> (-2 <= cx)%Q -> (cx <= 0.25)%Q ->
  mandelbrotEscape cx cy max_iter = max_iter.
Proof.
  intros Hm Hcy Hlo Hhi. unfold mandelbrotEscape.
  destruct (in_cardioid cx cy); [reflexivity|].
  destruct (in_bulb cx cy); [reflexivity|].
  destruct (outside cx cy) eqn:Ho.
  { apply Qltb_lt in Ho. rewrite Hcy in Ho. exfalso. nra. }
  apply escape_loop_real_segment; try assumption; [reflexivity | | lia].
  destruct (Qlt_le_dec cx 0); [left | right]; repeat split; lra.
Qed.

(** ** The pixel-to-plane mapping *)

(** Over the reals (rounding left out), the corners of the raster are the
    corners of the viewport: pixel (0, 0) is [(Re_min, Im_max)] and pixel
    (width, height) is [(Re_max, Im_min)]. *)
Theorem plane_corners (vp : Viewport) (width height : Z) :
  0 < width -> 0 < height ->
  (plane_real vp 0 width == Re_min vp)%Q /\
  (plane_real vp (inject_Z width) width == Re_max vp)%Q /\
  (plane_imag vp 0 height == Im_max vp)%Q /\
  (plane_imag vp (inject_Z height) height == Im_min vp)%Q.
Proof.
  intros Hw Hh.
  pose proof (inject_Z_nonzero width Hw). pose proof (inject_Z_nonzero height Hh).
  unfold plane_real, plane_imag. repeat split; field; assumption.
Qed.

(** ** Resize, zoom and pan *)

(** The bounds after a resize, around the centre, also when the size is
    unchanged and the handler is skipped. *)
Lemma resize_bounds (vp : Viewport) (w h w' h' : Z) :
  0 < w -> 0 < h ->
  (Re_min (resize vp w h w' h')
     == center_real vp - real_range vp * (inject_Z w' / inject_Z w) / 2)%Q /\
  (Re_max (resize vp w h w' h')
     == center_real vp + real_range vp * (inject_Z w' / inject_Z w) / 2)%Q /\
  (Im_min (resize vp w h w' h')
     == center_imag vp - imag_range vp * (inject_Z h' / inject_Z h) / 2)%Q /\
  (Im_max (resize vp w h w' h')
     == center_imag vp + imag_range vp * (inject_Z h' / inject_Z h) / 2)%Q.
Proof.
  intros Hw Hh.
  pose proof (inject_Z_nonzero w Hw) as Hw0.
  pose proof (inject_Z_nonzero h Hh) as Hh0.
  unfold resize, center_real, center_imag, real_range, imag_range.
  destruct (negb (w' =? w) || negb (h' =? h)) eqn:Hchg.
  - simpl. repeat split; field; assumption.
  - apply orb_false_iff in Hchg. destruct Hchg as [H1 H2].
    apply negb_false_iff, Z.eqb_eq in H1. apply negb_false_iff, Z.eqb_eq in H2.
    subst w' h'. repeat split; field; assumption.
Qed.

(** Over the reals (rounding left out), resizes compose: going from
    [w x h] to [w' x h'] and on to [w'' x h''] gives the viewport of the
    direct resize; in particular resizing back to [w x h] restores the
    viewport. *)
Theorem resize_compose (vp : Viewport) (w h w' h' w'' h'' : Z) :
  0 < w -> 0 < h -> 0 < w' -> 0 < h' ->
  viewport_eq (resize (resize vp w h w' h') w' h' w'' h'')
              (resize vp w h w'' h'') /\
  viewport_eq (resize (resize vp w h w' h') w' h' w h) vp.
Proof.
  intros Hw Hh Hw' Hh'.
  pose proof (inject_Z_nonzero w Hw) as Hw0.
  pose proof (inject_Z_nonzero h Hh) as Hh0.
  pose proof (inject_Z_nonzero w' Hw') as Hw0'.
  pose proof (inject_Z_nonzero h' Hh') as Hh0'.
  assert (Hgen : forall a b,
    viewport_eq (resize (resize vp w h w' h') w' h' a b) (resize vp w h a b)).
  { intros a b.
    destruct (resize_bounds (resize vp w h w' h') w' h' a b Hw' Hh')
      as (A1 & A2 & A3 & A4).
    destruct (resize_bounds vp w h a b Hw Hh) as (B1 & B2 & B3 & B4).
    destruct (resize_bounds vp w h w' h' Hw Hh) as (C1 & C2 & C3 & C4).
    unfold viewport_eq. rewrite A1, A2, A3, A4, B1, B2, B3, B4.
    unfold center_real, center_imag, real_range, imag_range.
    rewrite C1, C2, C3, C4.
    unfold center_real, center_imag, real_range, imag_range.
    repeat split; field; auto. }
  split; [apply Hgen|].
  destruct (Hgen w h) as (G1 & G2 & G3 & G4).
  destruct (resize_bounds vp w h w h Hw Hh) as (B1 & B2 & B3 & B4).
  unfold viewport_eq. rewrite G1, G2, G3, G4, B1, B2, B3, B4.
  unfold center_real, center_imag, real_range, imag_range.
  repeat split; field; auto.
Qed.

(** The bounds after a pan that moved. *)
Lemma pan_bounds (vp : Viewport) (w h : Z) (last pos : Q * Q) :
  drag_moved ((fst pos - fst last)%Q, (snd pos - snd last)%Q) = true ->
  let dre := (- (fst pos - fst last) * real_range vp / inject_Z w)%Q in
  let dim := ((snd pos - snd last) * imag_range vp / inject_Z h)%Q in
  (Re_min (pan vp w h last pos) == Re_min vp + dre)%Q /\
  (Re_max (pan vp w h last pos) == Re_max vp + dre)%Q /\
  (Im_min (pan vp w h last pos) == Im_min vp + dim)%Q /\
  (Im_max (pan vp w h last pos) == Im_max vp + dim)%Q.
Proof.
  intros Hmoved dre dim. unfold pan. cbv zeta. rewrite Hmoved.
  unfold dre, dim, real_range, imag_range, DRAG_SENSITIVITY. simpl.
  repeat split; ring.
Qed.

Lemma pan_not_moved (vp : Viewport) (w h : Z) (last pos : Q * Q) :
  drag_moved ((fst pos - fst last)%Q, (snd pos - snd last)%Q) = false ->
  pan vp w h last pos = vp.
Proof. intros H. unfold pan. cbv zeta. now rewrite H. Qed.

(** Over the reals (rounding left out), a zoom scales both ranges by the
    same factor: 0.8 when the wheel moves forwards, 1.25 when it moves
    backwards. *)
Theorem zoom_scales_ranges (vp : Viewport) (w h : Z) (mx my wheel : Q) :
  ~ (wheel == 0)%Q ->
  let f := if Qgtb wheel 0 then 0.8%Q else 1.25%Q in
  (real_range (zoom vp w h mx my wheel) == real_range vp * f)%Q /\
  (imag_range (zoom vp w h mx my wheel) == imag_range vp * f)%Q.
Proof.
  intros Hwheel f.
  destruct (zoom_bounds vp w h mx my wheel Hwheel) as (H1 & H2 & H3 & H4).
  fold f in H1, H2, H3, H4. split.
  - unfold real_range at 1. rewrite H1, H2. field.
  - unfold imag_range at 1. rewrite H3, H4. field.
Qed.

Lemma Qgtb_pos (wheel : Q) : (0 < wheel)%Q -> Qgtb wheel 0 = true.
Proof. intros H. unfold Qgtb. now apply Qltb_lt. Qed.

Lemma Qgtb_neg (wheel : Q) : (wheel < 0)%Q -> Qgtb wheel 0 = false.
Proof. intros H. unfold Qgtb. apply Qltb_ge. lra. Qed.

(** Over the reals (rounding left out), one notch forwards and one notch
    backwards, in either order and wherever the cursor is, give back the
    ranges of the viewport; with the cursor at the centre of the raster
    both times they give back the viewport. *)
Theorem zoom_in_out (vp : Viewport) (w h : Z) (mx my mx' my' up down : Q) :
  0 < w -> 0 < h -> (0 < up)%Q -> (down < 0)%Q ->
  let there := zoom (zoom vp w h mx my up) w h mx' my' down in
  let back := zoom (zoom vp w h mx my down) w h mx' my' up in
  (real_range there == real_range vp)%Q /\
  (imag_range there == imag_range vp)%Q /\
  (real_range back == real_range vp)%Q /\
  (imag_range back == imag_range vp)%Q /\
  ((mx == inject_Z w / 2)%Q -> (my == inject_Z h / 2)%Q ->
   (mx' == inject_Z w / 2)%Q -> (my' == inject_Z h / 2)%Q ->
   viewport_eq there vp /\ viewport_eq back vp).
Proof.
  intros Hw Hh Hup Hdown there back.
  pose proof (inject_Z_nonzero w Hw) as Hw0.
  pose proof (inject_Z_nonzero h Hh) as Hh0.
  assert (Hup0 : ~ (up == 0)%Q) by (intros E; rewrite E in Hup; lra).
  assert (Hdown0 : ~ (down == 0)%Q) by (intros E; rewrite E in Hdown; lra).
  destruct (zoom_bounds vp w h mx my up Hup0) as (U1 & U2 & U3 & U4).
  destruct (zoom_bounds vp w h mx my down Hdown0) as (D1 & D2 & D3 & D4).
  destruct (zoom_bounds (zoom vp w h mx my up) w h mx' my' down Hdown0)
    as (T1 & T2 & T3 & T4).
  destruct (zoom_bounds (zoom vp w h mx my down) w h mx' my' up Hup0)
    as (B1 & B2 & B3 & B4).
  fold there in T1, T2, T3, T4. fold back in B1, B2, B3, B4.
  rewrite (Qgtb_pos up Hup) in *. rewrite (Qgtb_neg down Hdown) in *.
  unfold plane_real, plane_imag, real_range, imag_range in *.
  split; [rewrite T1, T2, U1, U2; field; assumption|].
  split; [rewrite T3, T4, U3, U4; field; assumption|].
  split; [rewrite B1, B2, D1, D2; field; assumption|].
  split; [rewrite B3, B4, D3, D4; field; assumption|].
  intros Hmx Hmy Hmx' Hmy'. unfold viewport_eq.
  rewrite T1, T2, T3, T4, B1, B2, B3, B4.
  rewrite U1, U2, U3, U4, D1, D2, D3, D4.
  rewrite Hmx, Hmy, Hmx', Hmy'.
  repeat split; field; assumption.
Qed.

(** Over the reals (rounding left out), a drag holds on to the plane:
    after a pan that moved, the point under the mouse is the point that
    was under the mouse where the drag step started. *)
Theorem pan_keeps_grabbed_point (vp : Viewport) (w h : Z) (last pos : Q * Q) :
  0 < w -> 0 < h ->
  drag_moved ((fst pos - fst last)%Q, (snd pos - snd last)%Q) = true ->
  (plane_real (pan vp w h last pos) (fst pos) w
     == plane_real vp (fst last) w)%Q /\
  (plane_imag (pan vp w h last pos) (snd pos) h
     == plane_imag vp (snd last) h)%Q.
Proof.
  intros Hw Hh Hmoved.
  pose proof (inject_Z_nonzero w Hw) as Hw0.
  pose proof (inject_Z_nonzero h Hh) as Hh0.
  destruct (pan_bounds vp w h last pos Hmoved) as (P1 & P2 & P3 & P4).
  cbv zeta in P1, P2, P3, P4.
  unfold plane_real, plane_imag, real_range, imag_range in *.
  rewrite P1, P2, P3, P4. split; field; assumption.
Qed.


(** ** [RenderTile] and the round-robin schedule *)

(** Two sequences of stores with the same stores in different orders do
    the same to the buffer, when the colour stored at an index is a
    function of the index. *)
Lemma run_stores_Permutation (f : Z -> Color) l1 l2 buf :
  (forall j c, (j, c) ∈ l1 -> c = f j) ->
  l1 ≡ₚ l2 ->
  run_stores l1 buf = run_stores l2 buf.
Proof.
  intros Hf Hperm.
  assert (Hf2 : forall j c, (j, c) ∈ l2 -> c = f j)
    by (intros j c Hjc; apply Hf; now rewrite Hperm).
  assert (Hidx : forall i, i ∈ l1.*1 <-> i ∈ l2.*1)
    by (intros i; now rewrite Hperm).
  destruct (run_stores l1 buf) as [b1|] eqn:H1;
    destruct (run_stores l2 buf) as [b2|] eqn:H2.
  - f_equal. apply list_eq. intros j.
    destruct (decide (Z.of_nat j ∈ l1.*1)) as [Hin|Hout].
    + pose proof (run_stores_lookup_stored f l1 buf b1 _ Hf H1 Hin) as E1.
      pose proof (run_stores_lookup_stored f l2 buf b2 _ Hf2 H2
                    (proj1 (Hidx _) Hin)) as E2.
      rewrite Nat2Z.id in E1, E2. congruence.
    + rewrite (run_stores_lookup_other l1 buf b1 j H1 Hout).
      rewrite (run_stores_lookup_other l2 buf b2 j H2); [reflexivity|].
      intros Hin. apply Hout. now apply Hidx.
  - exfalso. assert (Hs : is_Some (run_stores l1 buf)) by eauto.
    pose proof (proj1 (run_stores_is_Some _ _) Hs) as Hr.
    assert (Hs2 : is_Some (run_stores l2 buf)).
    { apply run_stores_is_Some. intros i Hi. apply Hr. now apply Hidx. }
    rewrite H2 in Hs2. destruct Hs2 as [? [=]].
  - exfalso. assert (Hs : is_Some (run_stores l2 buf)) by eauto.
    pose proof (proj1 (run_stores_is_Some _ _) Hs) as Hr.
    assert (Hs1 : is_Some (run_stores l1 buf)).
    { apply run_stores_is_Some. intros i Hi. apply Hr. now apply Hidx. }
    rewrite H1 in Hs1. destruct Hs1 as [? [=]].
  - reflexivity.
Qed.

(** What [RenderTile] writes: after a call on a tile with a non-negative
    column, the entry of every pixel of the tile holds the colour of that
    pixel. *)
Theorem RenderTile_writes_tile (tileX tileY width height : Z) (vp : Viewport)
    (buf buf' : list Color) (x y : Z) :
  0 < width -> 0 <= tileX ->
  RenderTile tileX tileY width height vp buf = Some buf' ->
  in_tile tileX tileY width height x y ->
  buf' !! Z.to_nat (y * width + x) = Some (pixel_color x y width height vp).
Proof.
  intros Hw HX Hrun Hin. rewrite RenderTile_stores in Hrun.
  pose proof Hin as [Hx _]. unfold TILE_SIZE in Hx.
  destruct (pixel_of_index width x y ltac:(lia)) as [Hm Hd].
  replace (pixel_color x y width height vp)
    with (pixel_color ((y * width + x) mod width) ((y * width + x) / width)
            width height vp) by (now rewrite Hm, Hd).
  apply (run_stores_lookup_stored
           (fun i => pixel_color (i mod width) (i / width) width height vp)
           (tile_stores tileX tileY width height vp) buf buf').
  - intros j c Hjc. now apply (tile_stores_functional tileX tileY).
  - exact Hrun.
  - apply elem_of_tile_indices. exists x, y. auto.
Qed.

(** A tile beyond the last column or the last row of the grid has no
    pixel: [RenderTile] returns without a store, whatever the buffer. *)
Theorem RenderTile_off_grid (tileX tileY width height : Z) (vp : Viewport)
    (buf : list Color) :
  0 < width -> 0 < height ->
  tiles_along width <= tileX \/ tiles_along height <= tileY ->
  RenderTile tileX tileY width height vp buf = Some buf.
Proof.
  intros Hw Hh Hoff. rewrite RenderTile_stores.
  assert (Hnil : tile_stores tileX tileY width height vp = []).
  { apply elem_of_nil_inv. intros [i c] Hin.
    apply elem_of_tile_stores in Hin as (x & y & [Hx Hy] & _).
    rewrite !tiles_along_pos in Hoff by assumption. unfold TILE_SIZE in *.
    pose proof (Z.div_mod (width + 63) 64 ltac:(lia)).
    pose proof (Z.mod_pos_bound (width + 63) 64 ltac:(lia)).
    pose proof (Z.div_mod (height + 63) 64 ltac:(lia)).
    pose proof (Z.mod_pos_bound (height + 63) 64 ltac:(lia)).
    lia. }
  now rewrite Hnil.
Qed.

(** Calls of [RenderTile] on the same raster and viewport commute: two
    tiles can be rendered in either order with the same outcome, a failed
    store included. *)
Theorem RenderTile_commute (tileX tileY tileX' tileY' width height : Z)
    (vp : Viewport) (buf : list Color) :
  0 < width -> 0 <= tileX -> 0 <= tileX' ->
  match RenderTile tileX tileY width height vp buf with
  | Some buf1 => RenderTile tileX' tileY' width height vp buf1
  | None => None
  end =
  match RenderTile tileX' tileY' width height vp buf with
  | Some buf1 => RenderTile tileX tileY width height vp buf1
  | None => None
  end.
Proof.
  intros Hw HX HX'.
  transitivity (run_stores (tile_stores tileX tileY width height vp
                            ++ tile_stores tileX' tileY' width height vp) buf).
  - rewrite run_stores_app, (RenderTile_stores tileX tileY).
    destruct (run_stores (tile_stores tileX tileY width height vp) buf);
      [apply RenderTile_stores | reflexivity].
  - transitivity (run_stores (tile_stores tileX' tileY' width height vp
                              ++ tile_stores tileX tileY width height vp) buf).
    + apply (run_stores_Permutation
               (fun i => pixel_color (i mod width) (i / width) width height vp)).
      * intros j c Hjc. apply elem_of_app in Hjc as [Hjc|Hjc].
        -- now apply (tile_stores_functional tileX tileY).
        -- now apply (tile_stores_functional tileX' tileY').
      * apply Permutation_app_comm.
    + rewrite run_stores_app, (RenderTile_stores tileX' tileY').
      destruct (run_stores (tile_stores tileX' tileY' width height vp) buf);
        [symmetry; apply RenderTile_stores | reflexivity].
Qed.

(** The number of tiles a worker takes. *)
Lemma worker_tiles_length fuel t numThreads totalTiles tiles :
  0 < numThreads ->
  worker_tiles fuel t numThreads totalTiles = Some tiles ->
  Z.of_nat (length tiles)
  = Z.max 0 ((totalTiles - t + numThreads - 1) / numThreads).
Proof.
  intros HW. revert t tiles. induction fuel as [|fuel IH]; intros t tiles; simpl.
  - destruct (t <? totalTiles) eqn:Hlt; [discriminate|].
    intros [= <-]. apply Z.ltb_ge in Hlt. simpl.
    assert ((totalTiles - t + numThreads - 1) / numThreads <= 0); [|lia].
    destruct (Z_le_dec 0 (totalTiles - t + numThreads - 1)).
    + rewrite Z.div_small by lia. lia.
    + apply Z.lt_le_incl, Z.div_lt_upper_bound; lia.
  - destruct (t <? totalTiles) eqn:Hlt.
    + apply Z.ltb_lt in Hlt.
      destruct (worker_tiles fuel (t + numThreads) numThreads totalTiles)
        as [rest|] eqn:Hrest; [|discriminate].
      intros [= <-]. simpl length. rewrite Nat2Z.inj_succ, (IH _ _ Hrest).
      replace (totalTiles - t + numThreads - 1)
        with (totalTiles - (t + numThreads) + numThreads - 1 + 1 * numThreads)
        by lia.
      rewrite Z.div_add by lia.
      assert (0 <= (totalTiles - (t + numThreads) + numThreads - 1) / numThreads)
        by (apply Z.div_pos; lia).
      lia.
    + intros [= <-]. apply Z.ltb_ge in Hlt. simpl.
      assert ((totalTiles - t + numThreads - 1) / numThreads <= 0); [|lia].
      destruct (Z_le_dec 0 (totalTiles - t + numThreads - 1)).
      * rewrite Z.div_small by lia. lia.
      * apply Z.lt_le_incl, Z.div_lt_upper_bound; lia.
Qed.

(** The round-robin schedule is balanced: a worker takes as many tiles as
    any later worker or one more, and none takes more than
    [totalTiles / numThreads] rounded up. *)
Theorem round_robin_balanced (numThreads totalTiles t t' : Z) :
  1 <= numThreads -> 0 <= totalTiles -> 0 <= t -> t <= t' -> t' < numThreads ->
  exists tiles tiles',
    worker_tiles (Z.to_nat totalTiles) t numThreads totalTiles = Some tiles /\
    worker_tiles (Z.to_nat totalTiles) t' numThreads totalTiles = Some tiles' /\
    (length tiles' <= length tiles <= length tiles' + 1)%nat /\
    Z.of_nat (length tiles) <= (totalTiles + numThreads - 1) / numThreads.
Proof.
  intros HW Htot Ht Htt Ht'.
  destruct (worker_tiles_spec (Z.to_nat totalTiles) t numThreads totalTiles)
    as (tiles & Htiles & _); [lia | lia |].
  destruct (worker_tiles_spec (Z.to_nat totalTiles) t' numThreads totalTiles)
    as (tiles' & Htiles' & _); [lia | lia |].
  exists tiles, tiles'. split; [exact Htiles|]. split; [exact Htiles'|].
  assert (HW0 : 0 < numThreads) by lia.
  pose proof (worker_tiles_length _ _ _ _ _ HW0 Htiles) as Hl.
  pose proof (worker_tiles_length _ _ _ _ _ HW0 Htiles') as Hl'.
  set (a := totalTiles - t + numThreads - 1) in *.
  set (a' := totalTiles - t' + numThreads - 1) in *.
  assert (H1 : a' / numThreads <= a / numThreads)
    by (apply Z.div_le_mono; unfold a, a'; lia).
  assert (H2 : a / numThreads <= a' / numThreads + 1).
  { rewrite <- (Z.div_add a' 1 numThreads) by lia.
    apply Z.div_le_mono; unfold a, a'; lia. }
  assert (H3 : a / numThreads <= (totalTiles + numThreads - 1) / numThreads)
    by (apply Z.div_le_mono; unfold a; lia).
  assert (H4 : 0 <= (totalTiles + numThreads - 1) / numThreads)
    by (apply Z.div_pos; lia).
  lia.
Qed.

(** ** The main loop *)

Lemma State_eta (st : State) :
  {| view := view st; currentWidth := currentWidth st;
     currentHeight := currentHeight st; pixelBuffer := pixelBuffer st |} = st.
Proof. now destruct st. Qed.

Lemma resize_same (vp : Viewport) (w h : Z) : resize vp w h w h = vp.
Proof. unfold resize. now rewrite !Z.eqb_refl. Qed.

(** What the handlers do to the variables rendering depends on is a
    resize, if the window size changed, and a change of view. *)
Lemma handle_events_steps (numThreads : Z) (f : Frame) (s : Main) :
  0 < screenWidth f -> 0 < screenHeight f ->
  rtc (main_step numThreads) (core s) (core (handle_events f s)).
Proof.
  intros Hw Hh. unfold handle_events. cbv zeta. cbn [core].
  destruct (negb (screenWidth f =? currentWidth (core s))
            || negb (screenHeight f =? currentHeight (core s))) eqn:Hres.
  - eapply rtc_l.
    + apply (step_resize numThreads (core s) (screenWidth f) (screenHeight f));
        [exact Hw | exact Hh |].
      apply orb_true_iff in Hres as [H|H];
        apply negb_true_iff, Z.eqb_neq in H; auto.
    + apply rtc_once.
      match goal with |- main_step _ ?a {| view := ?v |} =>
        exact (step_view numThreads a v) end.
  - apply orb_false_iff in Hres as [H1 H2].
    apply negb_false_iff, Z.eqb_eq in H1. apply negb_false_iff, Z.eqb_eq in H2.
    apply rtc_once.
    match goal with |- main_step _ _ {| view := ?v |} =>
      exact (step_view numThreads (core s) v) end.
Qed.

(** Every handler that touches the viewport, the raster size or the buffer
    sets [needsRedraw]: when the flag is off after the handlers, nothing of
    these has changed. *)
Lemma handle_events_quiet (f : Frame) (s : Main) :
  needsRedraw (handle_events f s) = false ->
  needsRedraw s = false /\
  core (handle_events f s) = core s /\
  texture (handle_events f s) = texture s /\
  hasRenderedOnce (handle_events f s) = hasRenderedOnce s.
Proof.
  unfold handle_events. cbv zeta. cbn [needsRedraw core texture hasRenderedOnce].
  destruct (keyF f); [discriminate|].
  destruct (keyR f); [discriminate|].
  destruct (Qeq_bool (wheelMove f) 0) eqn:Hwheel; [|discriminate].
  cbn [negb].
  destruct (negb (screenWidth f =? currentWidth (core s))
            || negb (screenHeight f =? currentHeight (core s))) eqn:Hres.
  { destruct (_ && drag_moved _); discriminate. }
  apply orb_false_iff in Hres as [H1 H2].
  apply negb_false_iff, Z.eqb_eq in H1. apply negb_false_iff, Z.eqb_eq in H2.
  rewrite H1, H2, resize_same.
  assert (Hzoom : forall vp w h mx my, zoom vp w h mx my (wheelMove f) = vp)
    by (intros; unfold zoom; now rewrite Hwheel).
  rewrite Hzoom.
  set (dragging :=
    (if leftPressed f then true
     else if leftReleased f then false else isDragging s) && leftDown f).
  destruct dragging; cbn [andb].
  - destruct (drag_moved _) eqn:Hmoved; [discriminate|].
    intros Hn. rewrite (pan_not_moved _ _ _ _ _ Hmoved).
    rewrite State_eta. auto.
  - intros Hn. rewrite State_eta. auto.
Qed.

(** The flags after a round that went through the render block. *)
Lemma loop_round_flags (f : Frame) (s s' : Main) (shown : option (list Color)) :
  showSplashScreen s = false -> isCurrentlyRendering s = false ->
  loop_round f s (Continue s' shown) ->
  needsRedraw s' = false /\ hasRenderedOnce s' = true /\
  isCurrentlyRendering s' = false /\ showSplashScreen s' = false /\
  shown = Some (texture s').
Proof.
  intros Hsplash Hbusy. unfold loop_round. cbv zeta.
  cbn [tick showSplashScreen]. rewrite Hsplash.
  destruct (keyQ f); cbv iota; [discriminate|].
  intros (s2 & Hrender & [= <- ->]).
  unfold render_round in Hrender.
  set (s1 := handle_events f (tick f s)) in *.
  assert (Hbusy1 : isCurrentlyRendering s1 = false) by exact Hbusy.
  assert (Hsplash1 : showSplashScreen s1 = false) by exact Hsplash.
  rewrite Hbusy1 in Hrender. cbn [negb] in Hrender. rewrite andb_true_r in Hrender.
  destruct (needsRedraw s1 || negb (hasRenderedOnce s1)) eqn:Hneed.
  - destruct Hrender as (buf' & _ & ->). cbn. auto.
  - subst s'. apply orb_false_iff in Hneed as [Hn Hr].
    apply negb_false_iff in Hr. rewrite Hr. auto.
Qed.

(** One round of the loop, seen on the variables rendering depends on. *)
Lemma loop_round_steps (hc : Z) (f : Frame) (s : Main) (o : Outcome) :
  frame_ok hc f -> loop_round f s o ->
  rtc (main_step (int_of_unsigned hc)) (core s) (core (outcome_state o)).
Proof.
  intros (Hw & Hh & Hhc). unfold loop_round. cbv zeta.
  cbn [tick showSplashScreen].
  destruct (showSplashScreen s).
  - intros ->. cbn [outcome_state]. unfold splash_round.
    destruct (_ || _); apply rtc_refl.
  - pose proof (handle_events_steps (int_of_unsigned hc) f (tick f s) Hw Hh)
      as Hsteps.
    destruct (keyQ f).
    + intros ->. exact Hsteps.
    + intros (s2 & Hrender & ->). cbn [outcome_state].
      unfold render_round in Hrender.
      destruct ((needsRedraw _ || negb (hasRenderedOnce _)) && _).
      * destruct Hrender as (buf' & Hpass & ->). cbn [core].
        eapply rtc_r; [exact Hsteps|].
        unfold render_block in Hpass. rewrite Hhc in Hpass.
        exact (step_render _ _ _ Hpass).
      * now subst s2.
Qed.

(** What a pass leaves in the buffer of a state of [main]. *)
Lemma render_pass_frame numThreads (st : State) buf' :
  reachable numThreads st ->
  render_pass numThreads (currentWidth st) (currentHeight st) (view st)
    (pixelBuffer st) buf' ->
  buf' = completed_frame numThreads (currentWidth st) (currentHeight st)
           (view st).
Proof.
  intros Hreach Hpass.
  destruct (reachable_buffer numThreads st Hreach) as (Hw & Hh & Hlen & Hblank).
  unfold completed_frame. destruct (1 <=? numThreads) eqn:HW.
  - apply Z.leb_le in HW. now apply render_pass_image in Hpass.
  - apply Z.leb_gt in HW. apply render_pass_no_worker in Hpass; [|lia].
    subst buf'. apply Hblank. lia.
Qed.

(** At the head of the loop: no render is in progress, the variables
    rendering depends on are in a state of the render model, and when no
    redraw is pending the buffer and the texture hold the frame of the
    current viewport and raster. *)
Lemma main_invariant (hc : Z) (s : Main) :
  main_reachable hc s ->
  isCurrentlyRendering s = false /\
  reachable (int_of_unsigned hc) (core s) /\
  (needsRedraw s = false -> hasRenderedOnce s = true ->
   pixelBuffer (core s)
   = completed_frame (int_of_unsigned hc) (currentWidth (core s))
       (currentHeight (core s)) (view (core s)) /\
   texture s = pixelBuffer (core s)).
Proof.
  unfold main_reachable. revert s. apply rtc_ind_r.
  - split; [reflexivity|]. split; [apply rtc_refl|]. cbn. discriminate.
  - intros s s' _ (f & shown & Hok & Hround) (Hbusy & Hreach & Hfresh).
    pose proof (loop_round_steps hc f s _ Hok Hround) as Hsteps.
    cbn [outcome_state] in Hsteps.
    assert (Hreach' : reachable (int_of_unsigned hc) (core s'))
      by (unfold reachable in *; etrans; eassumption).
    destruct (showSplashScreen s) eqn:Hsplash.
    + unfold loop_round in Hround. cbv zeta in Hround.
      cbn [tick showSplashScreen] in Hround. rewrite Hsplash in Hround.
      injection Hround as -> _. unfold splash_round.
      destruct (_ || _); cbn; (split; [exact Hbusy|]); (split; [exact Hreach|]).
      * discriminate.
      * exact Hfresh.
    + destruct (loop_round_flags f s s' shown Hsplash Hbusy Hround)
        as (_ & _ & Hbusy' & _ & _).
      split; [exact Hbusy'|]. split; [exact Hreach'|]. intros _ _.
      unfold loop_round in Hround. cbv zeta in Hround.
      cbn [tick showSplashScreen] in Hround. rewrite Hsplash in Hround.
      destruct (keyQ f); cbv iota in Hround; [discriminate Hround|].
      destruct Hround as (s2 & Hrender & [= -> _]).
      set (s1 := handle_events f (tick f s)) in *.
      assert (Hreach1 : reachable (int_of_unsigned hc) (core s1)).
      { unfold reachable in *. etrans; [exact Hreach|].
        destruct Hok as (Hw & Hh & _).
        apply (handle_events_steps _ f (tick f s) Hw Hh). }
      unfold render_round in Hrender.
      destruct ((needsRedraw s1 || negb (hasRenderedOnce s1))
                && negb (isCurrentlyRendering s1)) eqn:Hneed.
      * destruct Hrender as (buf' & Hpass & ->). cbn.
        split; [|reflexivity].
        unfold render_block in Hpass. destruct Hok as (_ & _ & Hhc).
        rewrite Hhc in Hpass. now apply (render_pass_frame _ (core s1)).
      * subst s2.
        assert (Hbusy1 : isCurrentlyRendering s1 = false) by exact Hbusy.
        rewrite Hbusy1 in Hneed. cbn [negb] in Hneed.
        rewrite andb_true_r in Hneed.
        apply orb_false_iff in Hneed as [Hn Hr]. apply negb_false_iff in Hr.
        destruct (handle_events_quiet f (tick f s) Hn) as (Hn0 & Hc & Ht & Hh1).
        fold s1 in Hc, Ht, Hh1. rewrite Hc, Ht.
        cbn [tick hasRenderedOnce] in Hh1.
        apply Hfresh; [exact Hn0 | congruence].
Qed.

(** The loop body is a refinement of the render model: in a run of [main]
    on windows of positive size, what a round does to the viewport, the
    raster size and the buffer is a sequence of resizes, view changes and
    render passes, so the states the loop reaches are states of the
    model. *)
Theorem main_loop_refines (hc : Z) (f : Frame) (s : Main) (o : Outcome) :
  main_reachable hc s -> frame_ok hc f -> loop_round f s o ->
  reachable (int_of_unsigned hc) (core s) /\
  rtc (main_step (int_of_unsigned hc)) (core s) (core (outcome_state o)) /\
  reachable (int_of_unsigned hc) (core (outcome_state o)).
Proof.
  intros Hreach Hok Hround.
  destruct (main_invariant hc s Hreach) as (_ & Hcore & _).
  pose proof (loop_round_steps hc f s o Hok Hround) as Hsteps.
  split; [exact Hcore|]. split; [exact Hsteps|].
  unfold reachable in *. etrans; eassumption.
Qed.

(** No stale frame: in a run of [main], every round past the splash screen
    that reaches the end of the loop body shows the frame of the viewport
    and raster size it ends with, whatever the handlers of the round
    changed. *)
Theorem shown_frame_is_current (hc : Z) (f : Frame) (s s' : Main)
    (shown : option (list Color)) :
  main_reachable hc s -> frame_ok hc f ->
  showSplashScreen s = false ->
  loop_round f s (Continue s' shown) ->
  shown = Some (completed_frame (int_of_unsigned hc) (currentWidth (core s'))
                  (currentHeight (core s')) (view (core s'))).
Proof.
  intros Hreach Hok Hsplash Hround.
  destruct (main_invariant hc s Hreach) as (Hbusy & _ & _).
  destruct (loop_round_flags f s s' shown Hsplash Hbusy Hround)
    as (Hn & Hr & _ & _ & ->).
  assert (Hreach' : main_reachable hc s').
  { unfold main_reachable in *. eapply rtc_r; [exact Hreach|].
    exists f, (Some (texture s')). auto. }
  destruct (main_invariant hc s' Hreach') as (_ & _ & Hfresh).
  destruct (Hfresh Hn Hr) as [Hbuf Htex]. now rewrite Htex, Hbuf.
Qed.

(** However the worker threads are scheduled, a pass on a buffer of the
    size of the raster runs through: its threads exist, and every store of
    every interleaving falls inside the buffer. *)
Lemma render_pass_every_schedule numThreads width height vp buf :
  0 < width -> 0 < height ->
  length buf = Z.to_nat (width * height) ->
  exists threads,
    render_threads numThreads width height vp = Some threads /\
    forall trace, interleaving threads trace ->
      (forall i c, (i, c) ∈ trace -> 0 <= i < Z.of_nat (length buf)) /\
      is_Some (run_stores trace buf).
Proof.
  intros Hw Hh Hlen.
  destruct (Z_le_dec numThreads 0) as [HW|HW].
  - exists []. split.
    + unfold render_threads. cbv zeta.
      replace (seqZ 0 numThreads) with (@nil Z); [reflexivity|].
      unfold seqZ. replace (Z.to_nat numThreads) with 0%nat by lia. reflexivity.
    + intros trace Hint. apply interleaving_Permutation in Hint. simpl in Hint.
      apply Permutation_nil_r in Hint. subst trace.
      split; [intros i c Hi; inversion Hi | simpl; eauto].
  - eexists. split; [apply render_threads_workers; lia|].
    intros trace Hint. apply interleaving_Permutation in Hint.
    rewrite concat_fmap_bind in Hint.
    assert (Hin : forall i c, (i, c) ∈ trace ->
              0 <= i < Z.of_nat (length buf)).
    { intros i c Hic. rewrite Hint in Hic.
      apply elem_of_pass in Hic as [Hr _]; [|lia..]. lia. }
    split; [exact Hin|].
    apply run_stores_is_Some. intros i Hi.
    apply list_elem_of_fmap in Hi as ([j c] & -> & Hjc). simpl.
    exact (Hin j c Hjc).
Qed.

(** No store of a run of [main] leaves the buffer.  In a run on windows of
    positive size every round of the loop has an outcome; and at the render
    block of a round past the splash screen, whatever order the stores of
    the worker threads are interleaved in, every store falls inside the
    pixel buffer and the pass runs through. *)
Theorem main_loop_progress (hc : Z) (f : Frame) (s : Main) :
  main_reachable hc s -> frame_ok hc f ->
  (showSplashScreen s = false ->
   exists threads,
     render_threads (int_of_unsigned hc)
       (currentWidth (core (handle_events f (tick f s))))
       (currentHeight (core (handle_events f (tick f s))))
       (view (core (handle_events f (tick f s)))) = Some threads /\
     forall trace, interleaving threads trace ->
       (forall i c, (i, c) ∈ trace ->
          0 <= i < Z.of_nat
                     (length (pixelBuffer (core (handle_events f (tick f s))))))
       /\
       is_Some
         (run_stores trace (pixelBuffer (core (handle_events f (tick f s))))))
  /\ exists o, loop_round f s o.
Proof.
  intros Hreach Hok.
  destruct (main_invariant hc s Hreach) as (_ & Hcore & _).
  set (s1 := handle_events f (tick f s)).
  assert (Hreach1 : reachable (int_of_unsigned hc) (core s1)).
  { unfold reachable in *. etrans; [exact Hcore|].
    destruct Hok as (Hw & Hh & _).
    apply (handle_events_steps _ f (tick f s) Hw Hh). }
  destruct (reachable_buffer _ _ Hreach1) as (Hw & Hh & Hlen & _).
  split.
  { intros _. apply render_pass_every_schedule; assumption. }
  unfold loop_round. cbv zeta. cbn [tick showSplashScreen].
  destruct (showSplashScreen s); [eauto|].
  destruct (keyQ f); [eauto|].
  fold s1. unfold render_round.
  destruct ((needsRedraw s1 || negb (hasRenderedOnce s1))
            && negb (isCurrentlyRendering s1)).
  - destruct (render_pass_total (int_of_unsigned (hardwareConcurrency f))
                (currentWidth (core s1)) (currentHeight (core s1))
                (view (core s1)) (pixelBuffer (core s1)) Hw Hh Hlen)
      as [buf' Hpass].
    eexists. eexists. split; [|reflexivity].
    exists buf'. split; [exact Hpass | reflexivity].
  - eexists. exists s1. split; reflexivity.
Qed.

End Render.
(** * Instances

    The program and the theorems above at concrete inputs, with [gray_hsv]
    in the place of raylib's [ColorFromHSV]. *)

(** The centre of the cardioid and the centre of the period-2 bulb are
    classified interior by the closed-form tests. *)
Example mandelbrotEscape_origin :
  Binary64.mandelbrotEscape 0 0 100 = 100 /\ mandelbrotEscape 0 0 100 = 100.
Proof. split; vm_compute; reflexivity. Qed.

Example mandelbrotEscape_bulb_center :
  Binary64.mandelbrotEscape (-1) 0 100 = 100 /\
  mandelbrotEscape (-1) 0 100 = 100.
Proof. split; vm_compute; reflexivity. Qed.

Example mandelbrotEscape_far :
  Binary64.mandelbrotEscape 3 0 100 = 0 /\ mandelbrotEscape 3 0 100 = 0.
Proof. split; vm_compute; reflexivity. Qed.

(** [c = -0.25 + 1.5i]: [z_2] is the first iterate outside the disc, and the
    loop returns 3. *)
Example mandelbrotEscape_above_center :
  Binary64.mandelbrotEscape (-0.25) 1.5 100 = 3 /\
  mandelbrotEscape (-0.25) 1.5 100 = 3.
Proof. split; vm_compute; reflexivity. Qed.

(** [c = i] never leaves the disc: the loop runs to the cap. *)
Example mandelbrotEscape_i : Binary64.mandelbrotEscape 0 1 100 = 100.
Proof. vm_compute. reflexivity. Qed.

(** A NaN coordinate fails every comparison: the three tests do not fire,
    the loop test passes once on [z_0 = 0] and fails on [z_1], and the
    result is 2. *)
Example mandelbrotEscape_nan :
  Binary64.mandelbrotEscape PrimFloat.nan 0 100 = 2 /\
  Binary64.mandelbrotEscape 0 PrimFloat.nan 100 = 2.
Proof. split; vm_compute; reflexivity. Qed.

(** The wheel turned backwards with the cursor at pixel (0, 0) of the
    default view: every operation is exact in binary64. *)
Example zoom_out_at_corner :
  Binary64.zoom Binary64.default_viewport 900 900 0 0 (-1)
  = Binary64.mkViewport (-4.1875) 0.1875 (-0.375) 3.375.
Proof. vm_compute. reflexivity. Qed.

(** Worker 1 of 3 on 10 tiles. *)
Example worker_tiles_1_of_3 : worker_tiles 10 1 3 10 = Some [1; 4; 7].
Proof. reflexivity. Qed.

(** A 100 x 70 raster has 2 x 2 tiles. *)
Example tiles_100x70 : tiles_along 100 = 2 /\ tiles_along 70 = 2.
Proof. split; reflexivity. Qed.

(** The one tile of a 2 x 1 raster on the default viewport: pixel (0, 0) is
    the point [-2 + 1.5i], outside the disc; pixel (1, 0) is
    [-0.25 + 1.5i]. *)
Example RenderTile_2x1 :
  RenderTile gray_hsv 0 0 2 1 default_viewport [blank; blank]
  = Some [mkColor 0 0 255 255; mkColor 7 7 255 255].
Proof. vm_compute. reflexivity. Qed.

(** A store outside the buffer fails. *)
Example RenderTile_short_buffer :
  RenderTile gray_hsv 0 0 2 1 default_viewport [blank] = None.
Proof. vm_compute. reflexivity. Qed.

Lemma mandelbrotEscape_double_iterative_at_1_1 :
  1 <= 100 /\ Binary64.iterative_branch 1 1 /\
  ((forall k, Binary64.first_escape 1 1 k ->
      Binary64.mandelbrotEscape 1 1 100 = Z.min (Z.of_nat k + 1) 100) /\
   ((forall j, Z.of_nat j < 100 ->
       Binary64.escaped (Binary64.orbit 1 1 j) = false) ->
      Binary64.mandelbrotEscape 1 1 100 = 100)).
Proof.
  assert (Hb : Binary64.iterative_branch 1 1)
    by (repeat split; vm_compute; reflexivity).
  split; [lia|]. split; [exact Hb|].
  apply (mandelbrotEscape_double_iterative 1 1 100); [lia | exact Hb].
Defined.

(** At [c = 3 + 0.5 i] the exterior test fires: the result is 0, and the
    cardioid and bulb tests evaluated before it did not fire.  At
    [c = 1 + i] it does not fire and the loop runs: the result, 3, is at
    least 1 and at most the cap. *)
Lemma mandelbrotEscape_double_range_at_3_half_and_1_1 :
  1 <= 100 /\
  (Binary64.outside 3 0.5 = true /\
   0 <= Binary64.mandelbrotEscape 3 0.5 100 <= 100 /\
   Binary64.mandelbrotEscape 3 0.5 100 = 0 /\
   Binary64.in_cardioid 3 0.5 = false /\ Binary64.in_bulb 3 0.5 = false) /\
  (Binary64.iterative_branch 1 1 /\
   1 <= Binary64.mandelbrotEscape 1 1 100 <= 100 /\
   Binary64.mandelbrotEscape 1 1 100 <> 0).
Proof.
  split; [lia|].
  assert (Hout : Binary64.outside 3 0.5 = true) by (vm_compute; reflexivity).
  assert (Hit : Binary64.iterative_branch 1 1)
    by (repeat split; vm_compute; reflexivity).
  destruct (mandelbrotEscape_double_range 3 0.5 100) as (H1 & H2 & H3 & _);
    [lia|].
  destruct (mandelbrotEscape_double_range 1 1 100) as (G1 & G2 & _ & G4 & _);
    [lia|].
  split.
  - split; [exact Hout|]. split; [exact H1|].
    split; [apply H2; exact Hout | apply H3; exact Hout].
  - split; [exact Hit|]. split; [split; [apply G4; exact Hit | apply G1]|].
    intros H0. apply G2 in H0. vm_compute in H0. discriminate H0.
Defined.


Lemma zoom_at_raster_center :
  (center_real (zoom default_viewport 900 900 450 450 1)
     == plane_real default_viewport 450 900)%Q /\
  (center_imag (zoom default_viewport 900 900 450 450 1)
     == plane_imag default_viewport 450 900)%Q /\
  ((450 == inject_Z 900 / 2)%Q ->
   (plane_real (zoom default_viewport 900 900 450 450 1) 450 900
      == plane_real default_viewport 450 900)%Q) /\
  ((450 == inject_Z 900 / 2)%Q ->
   (plane_imag (zoom default_viewport 900 900 450 450 1) 450 900
      == plane_imag default_viewport 450 900)%Q).
Proof.
  apply (zoom_centers_on_cursor default_viewport 900 900 450 450 1);
    [lia | lia | intros H; vm_compute in H; discriminate H].
Defined.

(** On a 65 x 1 raster tile (0, 0) has the pixels 0 to 63: a call runs
    through and leaves entry 64, the pixel of tile (1, 0), as it was. *)
Lemma RenderTile_frame_65x1 :
  (forall buf',
     RenderTile gray_hsv 0 0 65 1 default_viewport (replicate 65 blank)
       = Some buf' ->
     length buf' = 65%nat /\ buf' !! 64%nat = Some blank) /\
  is_Some (RenderTile gray_hsv 0 0 65 1 default_viewport (replicate 65 blank)).
Proof.
  destruct (RenderTile_frame gray_hsv 0 0 65 1 default_viewport
              (replicate 65 blank)) as [Hframe Hruns]; [lia | lia |].
  split.
  - intros buf' Hrun. destruct (Hframe buf' Hrun) as [Hlen Hout].
    split; [exact Hlen|].
    rewrite (Hout 64%nat); [reflexivity|].
    intros (x & y & [Hx Hy] & Hj). unfold TILE_SIZE in Hx, Hy. lia.
  - apply Hruns; [lia | lia | reflexivity].
Defined.

Lemma tiles_cover_100x70_two_workers :
  exists threads,
    render_threads gray_hsv 2 100 70 default_viewport = Some threads /\
    length threads = Z.to_nat 2 /\
    forall trace, interleaving threads trace -> trace.*1 ≡ₚ seqZ 0 (100 * 70).
Proof.
  apply (tiles_cover_raster_once gray_hsv 2 100 70 default_viewport); lia.
Defined.

Lemma render_pass_deterministic_initially :
  reachable gray_hsv 1 initial_state /\
  forall buf1 buf2,
    render_pass gray_hsv 1 WIDTH HEIGHT default_viewport
      (pixelBuffer initial_state) buf1 ->
    render_pass gray_hsv 1 WIDTH HEIGHT default_viewport buf1 buf2 ->
    buf1 = completed_frame gray_hsv 1 WIDTH HEIGHT default_viewport /\
    buf2 = buf1.
Proof.
  assert (Hinit : reachable gray_hsv 1 initial_state) by apply rtc_refl.
  split; [exact Hinit|].
  apply (render_pass_deterministic gray_hsv 1 initial_state Hinit).
Defined.

(** [RenderTile] on tile (7, 7) of the value-initialised 900 x 900 buffer
    runs through and leaves black at the centre; so does a pass with one
    worker. *)
Lemma center_pixel_is_black_tile_7_7 :
  (exists buf',
     RenderTile gray_hsv 7 7 900 900 default_viewport
       (replicate (Z.to_nat (900 * 900)) blank) = Some buf' /\
     buf' !! Z.to_nat (450 * 900 + 450) = Some BLACK) /\
  (exists buf',
     render_pass gray_hsv 1 900 900 default_viewport
       (replicate (Z.to_nat (900 * 900)) blank) buf' /\
     buf' !! Z.to_nat (450 * 900 + 450) = Some BLACK).
Proof.
  assert (Hlen : length (replicate (Z.to_nat (900 * 900)) blank)
                 = Z.to_nat (900 * 900)) by apply length_replicate.
  destruct (center_pixel_is_black gray_hsv)
    as (_ & _ & _ & _ & _ & _ & _ & _ & _ & _ & _ & Hruns & Hstore & Hpass).
  split.
  - destruct (Hruns _ Hlen) as [buf' Hrun].
    exists buf'. split; [exact Hrun | exact (Hstore _ _ Hrun)].
  - destruct (render_pass_total gray_hsv 1 900 900 default_viewport
                (replicate (Z.to_nat (900 * 900)) blank)) as [buf' Hrun];
      [lia | lia | exact Hlen |].
    exists buf'. split; [exact Hrun|].
    exact (Hpass 1 _ _ Hlen Hrun).
Defined.

(** ** Instances of the further properties *)

Lemma mandelbrotEscape_cap_at_1_1 :
  mandelbrotEscape 1 1 2 = Z.min (mandelbrotEscape 1 1 100) 2.
Proof. apply (mandelbrotEscape_cap 1 1 2 100); lia. Defined.

(** On a NaN real part the count is 2; at [c = 1 + i] it is 3. *)
Lemma mandelbrotEscape_double_values_at_nan :
  3 <= 100 /\
  PrimFloat.is_nan PrimFloat.nan = true /\
  Binary64.mandelbrotEscape PrimFloat.nan 0.5 100 = 2 /\
  Binary64.mandelbrotEscape 1 1 100 <> 1 /\
  (Binary64.mandelbrotEscape 1 1 100 = 2 <->
   PrimFloat.is_nan 1 = true \/ PrimFloat.is_nan 1 = true).
Proof.
  split; [lia|].
  assert (Hn : PrimFloat.is_nan PrimFloat.nan = true) by reflexivity.
  split; [exact Hn|].
  destruct (mandelbrotEscape_double_values PrimFloat.nan 0.5 100)
    as (_ & _ & H); [lia|].
  destruct (mandelbrotEscape_double_values 1 1 100) as (_ & G1 & G2); [lia|].
  split; [apply H; left; exact Hn|]. split; [exact G1 | exact G2].
Defined.

(** At [c = 1 + 2^-30 i] the count 4 certifies that the computed [z_3]
    failed the loop's test and the computed [z_0], [z_1], [z_2] passed it
    (the exact [z_2] lies outside the disc). *)
Lemma mandelbrotEscape_double_certificate_at_1 :
  Binary64.mandelbrotEscape 1 0x1p-30 100 = 4 /\
  Binary64.iterative_branch 1 0x1p-30 /\
  Binary64.escaped
    (Binary64.orbit 1 0x1p-30
       (Z.to_nat (Binary64.mandelbrotEscape 1 0x1p-30 100 - 1))) = true /\
  forall j : nat,
    Z.of_nat j < Binary64.mandelbrotEscape 1 0x1p-30 100 - 1 ->
    Binary64.escaped (Binary64.orbit 1 0x1p-30 j) = false.
Proof.
  assert (H : 0 < Binary64.mandelbrotEscape 1 0x1p-30 100 < 100)
    by (split; vm_compute; reflexivity).
  split; [vm_compute; reflexivity|].
  apply (mandelbrotEscape_double_certificate 1 0x1p-30 100 H).
Defined.

Lemma mandelbrotEscape_real_segment_at_minus_2 :
  mandelbrotEscape (-2) 0 100 = 100.
Proof.
  apply (mandelbrotEscape_real_segment (-2) 0 100);
    [lia | reflexivity | lra | lra].
Defined.

Lemma plane_corners_default :
  (plane_real default_viewport 0 900 == Re_min default_viewport)%Q /\
  (plane_real default_viewport (inject_Z 900) 900 == Re_max default_viewport)%Q /\
  (plane_imag default_viewport 0 900 == Im_max default_viewport)%Q /\
  (plane_imag default_viewport (inject_Z 900) 900 == Im_min default_viewport)%Q.
Proof. apply (plane_corners default_viewport 900 900); lia. Defined.

Lemma resize_compose_900_1200_600 :
  viewport_eq
    (resize (resize default_viewport 900 900 1200 600) 1200 600 300 300)
    (resize default_viewport 900 900 300 300) /\
  viewport_eq
    (resize (resize default_viewport 900 900 1200 600) 1200 600 900 900)
    default_viewport.
Proof.
  apply (resize_compose default_viewport 900 900 1200 600 300 300); lia.
Defined.

Lemma zoom_scales_ranges_forwards :
  (real_range (zoom default_viewport 900 900 10 20 1)
     == real_range default_viewport * (if Qgtb 1 0 then 0.8 else 1.25))%Q /\
  (imag_range (zoom default_viewport 900 900 10 20 1)
     == imag_range default_viewport * (if Qgtb 1 0 then 0.8 else 1.25))%Q.
Proof.
  apply (zoom_scales_ranges default_viewport 900 900 10 20 1).
  intros H. vm_compute in H. discriminate H.
Defined.

Lemma zoom_in_out_default :
  (real_range (zoom (zoom default_viewport 900 900 10 20 1) 900 900 30 40 (-1))
     == real_range default_viewport)%Q /\
  (imag_range (zoom (zoom default_viewport 900 900 10 20 1) 900 900 30 40 (-1))
     == imag_range default_viewport)%Q.
Proof.
  assert (Hup : (0 < 1)%Q) by reflexivity.
  assert (Hdown : (-1 < 0)%Q) by reflexivity.
  destruct (zoom_in_out default_viewport 900 900 10 20 30 40 1 (-1)
              ltac:(lia) ltac:(lia) Hup Hdown) as (H1 & H2 & _).
  split; [exact H1 | exact H2].
Defined.

Lemma pan_keeps_grabbed_point_3_4 :
  (plane_real (pan default_viewport 900 900 (0%Q, 0%Q) (3%Q, 4%Q)) 3 900
     == plane_real default_viewport 0 900)%Q /\
  (plane_imag (pan default_viewport 900 900 (0%Q, 0%Q) (3%Q, 4%Q)) 4 900
     == plane_imag default_viewport 0 900)%Q.
Proof.
  apply (pan_keeps_grabbed_point default_viewport 900 900 (0%Q, 0%Q) (3%Q, 4%Q));
    [lia | lia | reflexivity].
Defined.


Lemma RenderTile_writes_tile_2x1 :
  [mkColor 0 0 255 255; mkColor 7 7 255 255] !! Z.to_nat (0 * 2 + 1)
  = Some (pixel_color gray_hsv 1 0 2 1 default_viewport).
Proof.
  apply (RenderTile_writes_tile gray_hsv 0 0 2 1 default_viewport
           [blank; blank] [mkColor 0 0 255 255; mkColor 7 7 255 255] 1 0);
    [lia | lia | vm_compute; reflexivity | unfold in_tile, TILE_SIZE; lia].
Defined.

Lemma RenderTile_off_grid_2x1 :
  RenderTile gray_hsv 1 0 2 1 default_viewport [] = Some [].
Proof.
  apply (RenderTile_off_grid gray_hsv 1 0 2 1 default_viewport []);
    [lia | lia | left; change (tiles_along 2) with 1; lia].
Defined.

(** The two tiles of a 65 x 1 raster, of 64 pixels and of 1 pixel, in
    either order. *)
Lemma RenderTile_commute_65x1 :
  match RenderTile gray_hsv 0 0 65 1 default_viewport (replicate 65 blank) with
  | Some buf1 => RenderTile gray_hsv 1 0 65 1 default_viewport buf1
  | None => None
  end =
  match RenderTile gray_hsv 1 0 65 1 default_viewport (replicate 65 blank) with
  | Some buf1 => RenderTile gray_hsv 0 0 65 1 default_viewport buf1
  | None => None
  end.
Proof.
  apply (RenderTile_commute gray_hsv 0 0 1 0 65 1 default_viewport
           (replicate 65 blank)); lia.
Defined.

Lemma round_robin_balanced_3_of_10 :
  exists tiles tiles',
    worker_tiles (Z.to_nat 10) 0 3 10 = Some tiles /\
    worker_tiles (Z.to_nat 10) 2 3 10 = Some tiles' /\
    (length tiles' <= length tiles <= length tiles' + 1)%nat /\
    Z.of_nat (length tiles) <= (10 + 3 - 1) / 3.
Proof. apply (round_robin_balanced 3 10 0 2); lia. Defined.

(** The initial 900 x 900 raster on four threads. *)
Lemma render_block_int_range_900 :
  int_range (900 + TILE_SIZE) /\ int_range (900 + TILE_SIZE - 1) /\
  int_range (tiles_along 900 * tiles_along 900) /\ int_range (900 * 900).
Proof.
  destruct (render_block_int_range 4 900 900)
    as (H1 & H2 & _ & _ & _ & _ & H7 & H8 & _);
    try (unfold TILE_SIZE; lia).
  split; [exact H1|]. split; [exact H2|]. split; [exact H7 | exact H8].
Defined.

(** The round after ENTER in which the window reports the size 1200 x 700:
    the handlers resize the raster, the render block runs a pass, and the
    state the round ends in is a state of the render model, on a 1200 x 700
    raster. *)
Lemma main_loop_refines_resize_render :
  exists o,
    loop_round gray_hsv ray_white (idle_frame 1200 700 4)
      (splash_round (enter_frame 900 900 4)
         (tick (enter_frame 900 900 4) (initial_main ray_white))) o /\
    currentWidth (core (outcome_state o)) = 1200 /\
    currentHeight (core (outcome_state o)) = 700 /\
    hasRenderedOnce (outcome_state o) = true /\
    rtc (main_step gray_hsv (int_of_unsigned 4))
      (core (splash_round (enter_frame 900 900 4)
               (tick (enter_frame 900 900 4) (initial_main ray_white))))
      (core (outcome_state o)) /\
    reachable gray_hsv (int_of_unsigned 4) (core (outcome_state o)).
Proof.
  pose (f0 := enter_frame 900 900 4). pose (f1 := idle_frame 1200 700 4).
  pose (s1 := splash_round f0 (tick f0 (initial_main ray_white))).
  fold f0 f1 s1.
  assert (Hok0 : frame_ok 4 f0) by (repeat split; reflexivity).
  assert (Hok1 : frame_ok 4 f1) by (repeat split; reflexivity).
  assert (R1 : main_reachable gray_hsv ray_white 4 s1).
  { apply rtc_once. exists f0, None. split; [exact Hok0 | exact eq_refl]. }
  pose (sp := handle_events ray_white f1 (tick f1 s1)).
  assert (Hreach : reachable gray_hsv (int_of_unsigned 4) (core sp)).
  { apply (handle_events_steps gray_hsv ray_white (int_of_unsigned 4) f1
             (tick f1 s1)); reflexivity. }
  destruct (reachable_buffer gray_hsv _ _ Hreach) as (Hw & Hh & Hlen & _).
  destruct (render_pass_total gray_hsv
              (int_of_unsigned (hardwareConcurrency f1))
              (currentWidth (core sp)) (currentHeight (core sp))
              (view (core sp)) (pixelBuffer (core sp)) Hw Hh Hlen)
    as [buf' Hpass].
  pose (s2 := {| core := {| view := view (core sp);
                            currentWidth := currentWidth (core sp);
                            currentHeight := currentHeight (core sp);
                            pixelBuffer := buf' |};
                 texture := buf';
                 splashTime := splashTime sp;
                 showSplashScreen := showSplashScreen sp;
                 needsRedraw := false;
                 hasRenderedOnce := true;
                 isCurrentlyRendering := false;
                 isDragging := isDragging sp;
                 lastMousePos := lastMousePos sp;
                 isFullscreen := isFullscreen sp |}).
  assert (Hround : loop_round gray_hsv ray_white f1 s1
                     (Continue s2 (Some (texture s2)))).
  { unfold loop_round. cbv zeta.
    change (showSplashScreen (tick f1 s1)) with false.
    change (keyQ f1) with false. cbv iota. fold sp.
    exists s2. split; [|reflexivity].
    unfold render_round.
    change ((needsRedraw sp || negb (hasRenderedOnce sp))
            && negb (isCurrentlyRendering sp)) with true. cbv iota.
    exists buf'. split; [exact Hpass | reflexivity]. }
  exists (Continue s2 (Some (texture s2))). split; [exact Hround|].
  split; [reflexivity|]. split; [reflexivity|]. split; [reflexivity|].
  destruct (main_loop_refines gray_hsv ray_white 4 f1 s1
              (Continue s2 (Some (texture s2))) R1 Hok1 Hround)
    as (_ & H2 & H3).
  split; [exact H2 | exact H3].
Defined.

(** The first render after ENTER: on four threads, every interleaving of
    the stores of the pass over the 900 x 900 raster stays inside the
    buffer and runs through. *)
Lemma main_loop_progress_first_render :
  exists threads,
    render_threads gray_hsv (int_of_unsigned 4)
      (currentWidth
         (core (handle_events ray_white (idle_frame 900 900 4)
                  (tick (idle_frame 900 900 4)
                     (splash_round (enter_frame 900 900 4)
                        (tick (enter_frame 900 900 4)
                           (initial_main ray_white)))))))
      (currentHeight
         (core (handle_events ray_white (idle_frame 900 900 4)
                  (tick (idle_frame 900 900 4)
                     (splash_round (enter_frame 900 900 4)
                        (tick (enter_frame 900 900 4)
                           (initial_main ray_white)))))))
      (view
         (core (handle_events ray_white (idle_frame 900 900 4)
                  (tick (idle_frame 900 900 4)
                     (splash_round (enter_frame 900 900 4)
                        (tick (enter_frame 900 900 4)
                           (initial_main ray_white)))))))
    = Some threads /\
    forall trace, interleaving threads trace ->
      is_Some
        (run_stores trace
           (pixelBuffer
              (core (handle_events ray_white (idle_frame 900 900 4)
                       (tick (idle_frame 900 900 4)
                          (splash_round (enter_frame 900 900 4)
                             (tick (enter_frame 900 900 4)
                                (initial_main ray_white)))))))).
Proof.
  pose (f0 := enter_frame 900 900 4). pose (f1 := idle_frame 900 900 4).
  pose (s1 := splash_round f0 (tick f0 (initial_main ray_white))).
  fold f0 f1 s1.
  assert (Hok0 : frame_ok 4 f0) by (repeat split; reflexivity).
  assert (Hok1 : frame_ok 4 f1) by (repeat split; reflexivity).
  assert (R1 : main_reachable gray_hsv ray_white 4 s1).
  { apply rtc_once. exists f0, None. split; [exact Hok0 | exact eq_refl]. }
  destruct (main_loop_progress gray_hsv ray_white 4 f1 s1 R1 Hok1)
    as [Hstores _].
  destruct (Hstores eq_refl) as (threads & Hthreads & Hall).
  exists threads. split; [exact Hthreads|].
  intros trace Hint. exact (proj2 (Hall trace Hint)).
Defined.

Lemma shown_frame_is_current_first_render :
  exists s' shown,
    loop_round gray_hsv ray_white (idle_frame 900 900 4)
      (splash_round (enter_frame 900 900 4)
         (tick (enter_frame 900 900 4) (initial_main ray_white)))
      (Continue s' shown) /\
    shown = Some (completed_frame gray_hsv (int_of_unsigned 4)
                    (currentWidth (core s')) (currentHeight (core s'))
                    (view (core s'))).
Proof.
  pose (f0 := enter_frame 900 900 4). pose (f1 := idle_frame 900 900 4).
  pose (s1 := splash_round f0 (tick f0 (initial_main ray_white))).
  fold f0 f1 s1.
  assert (Hok0 : frame_ok 4 f0) by (repeat split; reflexivity).
  assert (Hok1 : frame_ok 4 f1) by (repeat split; reflexivity).
  assert (R1 : main_reachable gray_hsv ray_white 4 s1).
  { apply rtc_once. exists f0, None. split; [exact Hok0 | exact eq_refl]. }
  assert (Hs1 : showSplashScreen s1 = false) by reflexivity.
  pose (sp := handle_events ray_white f1 (tick f1 s1)).
  assert (Hreach : reachable gray_hsv (int_of_unsigned 4) (core sp)).
  { apply (handle_events_steps gray_hsv ray_white (int_of_unsigned 4) f1
             (tick f1 s1)); reflexivity. }
  destruct (reachable_buffer gray_hsv _ _ Hreach) as (Hw & Hh & Hlen & _).
  destruct (render_pass_total gray_hsv
              (int_of_unsigned (hardwareConcurrency f1))
              (currentWidth (core sp)) (currentHeight (core sp))
              (view (core sp)) (pixelBuffer (core sp)) Hw Hh Hlen)
    as [buf' Hpass].
  assert (Hround : exists s' shown,
    loop_round gray_hsv ray_white f1 s1 (Continue s' shown)).
  { unfold loop_round. cbv zeta.
    change (showSplashScreen (tick f1 s1)) with false.
    change (keyQ f1) with false. cbv iota. fold sp.
    eexists. eexists. eexists. split; [|reflexivity].
    unfold render_round.
    change ((needsRedraw sp || negb (hasRenderedOnce sp))
            && negb (isCurrentlyRendering sp)) with true. cbv iota.
    exists buf'. split; [exact Hpass | reflexivity]. }
  destruct Hround as (s' & shown & Hround).
  exists s', shown. split; [exact Hround|].
  apply (shown_frame_is_current gray_hsv ray_white 4 f1 s1 s' shown
           R1 Hok1 Hs1 Hround).
Defined.
